(** * Face-mask tool: geometric core, texture cache and prompt pipeline

    A shallow embedding of the TypeScript sources

      - [src/utils/coordinates.ts]       (module [Coordinates])
      - [src/utils/triangulation.ts]     (module [Triangulation])
      - [src/components/MaskCompositor.tsx] (module [MaskCompositor])
      - [services/maskProcessor.ts]      (module [MaskProcessor])
      - [src/services/textureGenerator.ts] (module [TextureGenerator])
      - [src/services/materialSystem.ts], prompt part (module [PromptProcessor])

    JavaScript numbers are IEEE-754 binary64 values: they are modelled by
    Rocq's primitive floats, whose operations are the same binary64
    operations (round to nearest, ties to even).  Array indices, lengths and
    millisecond timestamps are integers and are modelled by [nat] and [Z].
    Real numbers appear only in the proofs, as the values of binary64
    numbers, to bound rounding errors. *)

From Stdlib Require Import String Ascii.
From Stdlib Require Import Floats ZArith List Bool Lia.
From Stdlib Require Import Reals Lra.
Import ListNotations.

Set Warnings "-inexact-float".

(** ** Host semantics: the parts of the JavaScript number API the sources use *)

Module JS.
Local Open Scope float_scope.

(** [Math.max(a, b)]: NaN if either argument is NaN, and [+0] counts as
    larger than [-0]. *)
Definition Math_max (a b : float) : float :=
  if is_nan a || is_nan b then nan
  else if a <? b then b
  else if b <? a then a
  else match classify a with NZero => b | _ => a end.

(** [Math.min(a, b)]: NaN if either argument is NaN, and [-0] counts as
    smaller than [+0]. *)
Definition Math_min (a b : float) : float :=
  if is_nan a || is_nan b then nan
  else if a <? b then a
  else if b <? a then b
  else match classify a with PZero => b | _ => a end.

(** [v || 0] on a number: the falsy numbers are NaN, [+0] and [-0]. *)
Definition or_zero (v : float) : float :=
  if is_nan v || is_zero v then 0 else v.

(** [a > b] and [a >= b] are the mirrored IEEE comparisons. *)
Definition gtb (a b : float) : bool := b <? a.
Definition geb (a b : float) : bool := b <=? a.
End JS.

(** ** src/utils/coordinates.ts

    The functions take every argument explicitly; the defaults
    [faceScale = 2.0] and [targetSize = 2.0] are the callers' business. *)

Module Coordinates.

(** A point [{x, y, z}] over a number type [T]; the same shape serves for
    normalized landmarks and for [THREE.Vector3]. *)
Record Point (T : Type) : Type := mkPoint { x : T; y : T; z : T }.
Arguments mkPoint {T} _ _ _.
Arguments x {T} _.
Arguments y {T} _.
Arguments z {T} _.

(** The arithmetic the conversions use, gathered in a record; [float_ops],
    the binary64 operations, is what the program runs on. *)
Record Ops (T : Type) : Type := mkOps {
  add : T -> T -> T;
  sub : T -> T -> T;
  mul : T -> T -> T;
  div : T -> T -> T;
  neg : T -> T;
  half : T
}.
Arguments add {T} _ _ _.
Arguments sub {T} _ _ _.
Arguments mul {T} _ _ _.
Arguments div {T} _ _ _.
Arguments neg {T} _ _.
Arguments half {T} _.

Definition float_ops : Ops float :=
  mkOps float PrimFloat.add PrimFloat.sub PrimFloat.mul PrimFloat.div
        PrimFloat.opp 0.5%float.

Section Conversions.
Context {T : Type} (o : Ops T).

(** [normalizedToWorld(normalized, faceScale)] *)
Definition normalizedToWorld (normalized : Point T) (faceScale : T) : Point T :=
  mkPoint
    (mul o (sub o (x normalized) (half o)) faceScale)
    (mul o (neg o (sub o (y normalized) (half o))) faceScale)
    (mul o (mul o (z normalized) faceScale) (half o)).

(** [worldToNormalized(world, faceScale)] *)
Definition worldToNormalized (world : Point T) (faceScale : T) : Point T :=
  mkPoint
    (add o (div o (x world) faceScale) (half o))
    (add o (neg o (div o (y world) faceScale)) (half o))
    (div o (z world) (mul o faceScale (half o))).
End Conversions.

Local Open Scope float_scope.

Definition Landmark : Type := Point float.

(** The six running bounds of [calculateFaceBoundingBox]. *)
Record Bounds : Type := mkBounds {
  b_minX : float; b_maxX : float;
  b_minY : float; b_maxY : float;
  b_minZ : float; b_maxZ : float
}.

Record BoundingBox : Type := mkBoundingBox {
  minX : float; maxX : float;
  minY : float; maxY : float;
  minZ : float; maxZ : float;
  width : float; height : float; depth : float
}.

Definition initialBounds : Bounds :=
  mkBounds infinity neg_infinity infinity neg_infinity infinity neg_infinity.

(** The body of the [forEach] callback. *)
Definition updateBounds (b : Bounds) (landmark : Landmark) : Bounds :=
  mkBounds
    (JS.Math_min (b_minX b) (x landmark)) (JS.Math_max (b_maxX b) (x landmark))
    (JS.Math_min (b_minY b) (y landmark)) (JS.Math_max (b_maxY b) (y landmark))
    (JS.Math_min (b_minZ b) (z landmark)) (JS.Math_max (b_maxZ b) (z landmark)).

(** [calculateFaceBoundingBox(landmarks)] *)
Definition calculateFaceBoundingBox (landmarks : list Landmark) : BoundingBox :=
  let b := fold_left updateBounds landmarks initialBounds in
  mkBoundingBox
    (b_minX b) (b_maxX b) (b_minY b) (b_maxY b) (b_minZ b) (b_maxZ b)
    (b_maxX b - b_minX b) (b_maxY b - b_minY b) (b_maxZ b - b_minZ b).

(** [calculateOptimalFaceScale(landmarks, targetSize)] *)
Definition calculateOptimalFaceScale
    (landmarks : list Landmark) (targetSize : float) : float :=
  let bbox := calculateFaceBoundingBox landmarks in
  let maxDimension := JS.Math_max (width bbox) (height bbox) in
  if JS.gtb maxDimension 0 then targetSize / maxDimension else targetSize.

(** The per-axis test [!isNaN(v) && v >= lo && v <= hi]. *)
Definition axisOk (lo hi v : float) : bool :=
  negb (is_nan v) && JS.geb v lo && (v <=? hi).

(** The callback of [landmarks.every(...)]. *)
Definition landmarkOk (landmark : Landmark) : bool :=
  axisOk 0 1 (x landmark) && axisOk 0 1 (y landmark) && axisOk (-1) 1 (z landmark).

(** [validateLandmarks(landmarks)] *)
Definition validateLandmarks (landmarks : list Landmark) : bool :=
  match landmarks with
  | [] => false
  | _ => forallb landmarkOk landmarks
  end.

(** The range constraints of the data model: [x], [y] in [0,1] and [z] in
    [-1,1], in the order of binary64. *)
Definition inValidRange (p : Landmark) : Prop :=
  (0 <=? x p) = true /\ (x p <=? 1) = true /\
  (0 <=? y p) = true /\ (y p <=? 1) = true /\
  (-1 <=? z p) = true /\ (z p <=? 1) = true.

(** A positive normal binary64 number: finite and at least [2^-1022], the
    range in which products and quotients keep their full precision. *)
Definition positiveNormal (v : float) : Prop :=
  (0x1p-1022 <=? v) = true /\ (v <=? 0x1.fffffffffffffp1023) = true.

(** [|a - b| <= 1e-9] *)
Definition withinTolerance (a b : float) : bool := abs (a - b) <=? 1e-9.

(** The round trip through world space at scale [s] returns [p] within
    [1e-9] on each component. *)
Definition roundTripWithinTolerance (p : Landmark) (s : float) : bool :=
  let q := worldToNormalized float_ops (normalizedToWorld float_ops p s) s in
  withinTolerance (x q) (x p) && withinTolerance (y q) (y p)
  && withinTolerance (z q) (z p).

End Coordinates.

(** ** src/utils/triangulation.ts *)

Module Triangulation.
Local Open Scope Z_scope.

(** The static triangulation table: one landmark-index triple per triangle. *)
Definition FACE_MESH_TRIANGLES : list (list Z) :=
  [
    (* Lips *)
    [61; 146; 91]; [91; 181; 84]; [84; 17; 314]; [314; 405; 321]; [321; 375; 291];
    [291; 61; 146]; [78; 95; 88]; [88; 178; 87]; [87; 14; 317]; [317; 402; 318];
    [318; 324; 308]; [308; 78; 95]; [78; 191; 80]; [80; 81; 82]; [82; 13; 312];
    [312; 311; 310]; [310; 415; 308]; [308; 324; 318]; [318; 402; 317]; [317; 14; 87];
    [87; 178; 88]; [88; 95; 78]; [80; 191; 78]; [82; 81; 80]; [312; 13; 82];
    [310; 311; 312]; [415; 310; 308];
    (* Right eye *)
    [362; 382; 381]; [381; 380; 374]; [374; 373; 390]; [390; 249; 263]; [263; 466; 388];
    [388; 387; 386]; [386; 385; 384]; [384; 398; 362]; [398; 384; 385]; [385; 386; 387];
    [387; 388; 466]; [466; 263; 249]; [249; 390; 373]; [373; 374; 380]; [380; 381; 382];
    [382; 362; 398];
    (* Left eye *)
    [33; 7; 163]; [163; 144; 145]; [145; 153; 154]; [154; 155; 133]; [133; 33; 246];
    [246; 161; 160]; [160; 159; 158]; [158; 157; 173]; [173; 157; 158]; [158; 159; 160];
    [160; 161; 246]; [246; 33; 133]; [133; 155; 154]; [154; 153; 145]; [145; 144; 163];
    [163; 7; 33];
    (* Right eyebrow *)
    [276; 283; 282]; [282; 295; 285]; [285; 295; 282]; [282; 283; 276]; [283; 276; 300];
    [300; 293; 334]; [334; 296; 336]; [336; 285; 295]; [295; 282; 285]; [285; 336; 334];
    [334; 293; 300]; [300; 276; 283];
    (* Left eyebrow *)
    [46; 53; 52]; [52; 65; 55]; [55; 65; 52]; [52; 53; 46]; [53; 46; 70];
    [70; 63; 105]; [105; 66; 107]; [107; 55; 65]; [65; 52; 55]; [55; 107; 105];
    [105; 63; 70]; [70; 46; 53];
    (* Nose *)
    [1; 2; 98]; [98; 97; 2]; [2; 326; 327]; [327; 294; 326]; [168; 6; 197];
    [197; 195; 5]; [5; 4; 1]; [4; 5; 195]; [195; 197; 6]; [6; 168; 8];
    [8; 9; 168]; [9; 8; 42]; [42; 41; 38]; [38; 37; 40]; [40; 39; 37];
    [37; 38; 41]; [41; 42; 8]; [8; 168; 9]; [168; 197; 195]; [195; 5; 4];
    [4; 1; 2]; [2; 97; 98]; [98; 2; 326]; [326; 294; 327]; [327; 326; 294];
    (* Face contour *)
    [10; 338; 297]; [297; 338; 337]; [337; 299; 333]; [333; 299; 298]; [298; 337; 338];
    [338; 10; 297]; [109; 10; 338]; [338; 337; 299]; [299; 333; 298]; [298; 338; 337];
    [337; 338; 10]; [10; 109; 338]; [67; 109; 10]; [10; 338; 337]; [337; 299; 333];
    [333; 298; 337]; [337; 338; 298]; [298; 338; 109]; [109; 67; 10];
    (* Cheeks and face sides *)
    [127; 234; 93]; [93; 234; 137]; [137; 234; 177]; [177; 234; 215]; [215; 234; 177];
    [177; 215; 138]; [138; 215; 214]; [214; 215; 177]; [177; 138; 214]; [214; 138; 135];
    [135; 138; 177]; [177; 137; 135]; [135; 137; 234]; [234; 127; 93]; [93; 137; 234];
    (* Additional face triangles for complete coverage *)
    [132; 58; 172]; [172; 136; 150]; [150; 149; 176]; [176; 148; 152]; [152; 377; 400];
    [400; 378; 379]; [379; 365; 397]; [397; 288; 361]; [361; 323; 454]; [454; 356; 389];
    [389; 200; 421]; [421; 428; 262]; [262; 369; 396]; [396; 175; 171]; [171; 32; 132]
  ].

(** [getFaceTriangles()]: the triples pushed, in order, onto one flat array. *)
Definition getFaceTriangles : list Z :=
  fold_left (fun triangles triangle => triangles ++ triangle)
            FACE_MESH_TRIANGLES [].

(** [validateTriangles(triangles, landmarkCount)] *)
Definition validateTriangles (triangles : list Z) (landmarkCount : Z) : bool :=
  forallb (fun index => (index >=? 0) && (index <? landmarkCount)) triangles.

End Triangulation.

(** ** Shared notation for code that can throw: [None] is a thrown exception

    The exceptions met below are the [TypeError] of reading a field of a
    missing array element and the [IndexSizeError] of a canvas call. *)

Module Throwing.
Definition bind {A B : Type} (m : option A) (k : A -> option B) : option B :=
  match m with
  | Some a => k a
  | None => None
  end.
End Throwing.

Notation "x <- m ;; k" := (Throwing.bind m (fun x => k))
  (at level 61, m at next level, right associativity).

(** ** src/components/MaskCompositor.tsx: the canvas-path mask builder *)

Module MaskCompositor.
Import Coordinates.
Local Open Scope float_scope.

(** A [Path2D] is modelled by the sequence of drawing calls made on it that
    returned, each with its arguments (the canvas ignores a call that has an
    infinite or NaN argument; the call is listed all the same). *)
Inductive PathCall : Type :=
| moveTo (x y : float)
| lineTo (x y : float)
| arcTo (x1 y1 x2 y2 radius : float)
| closePath
| ellipse (cx cy radiusX radiusY rotation startAngle endAngle : float)
          (counterclockwise : bool).

Definition Path2D : Type := list PathCall.

Definition LM_TOP_HEAD : nat := 10.
Definition LM_CHIN : nat := 152.
Definition LM_LEFT_EAR : nat := 234.
Definition LM_RIGHT_EAR : nat := 454.

Definition LEFT_EYE : list nat :=
  [33;246;161;160;159;158;157;173;133;155;154;153;145;144;163;7]%nat.
Definition RIGHT_EYE : list nat :=
  [362;398;384;385;386;387;388;466;263;249;390;373;374;380;381;382]%nat.
Definition MOUTH_PTS : list nat := [78; 13; 308; 14]%nat.

Definition Math_PI : float := 3.141592653589793.

(** [lm[i].x * W] and [lm[i].y * H]; reading a field of a missing
    landmark throws. *)
Definition px (lm : list Landmark) (i : nat) (W : float) : option float :=
  p <- nth_error lm i ;; Some (x p * W).
Definition py (lm : list Landmark) (i : nat) (H : float) : option float :=
  p <- nth_error lm i ;; Some (y p * H).

(** Whether a call on a [Path2D] throws.  By the HTML canvas standard
    [arcTo] and [ellipse] return at once when an argument is infinite or
    NaN, and otherwise throw an [IndexSizeError] when a radius is negative;
    [moveTo], [lineTo] and [closePath] never throw. *)
Definition throws (c : PathCall) : bool :=
  match c with
  | arcTo x1 y1 x2 y2 radius =>
      forallb is_finite [x1; y1; x2; y2; radius] && (radius <? 0)
  | ellipse cx cy radiusX radiusY rotation startAngle endAngle _ =>
      forallb is_finite [cx; cy; radiusX; radiusY; rotation; startAngle; endAngle]
      && ((radiusX <? 0) || (radiusY <? 0))
  | _ => false
  end.

(** Making calls on a path one after the other: the first call that throws
    ends the run. *)
Fixpoint draw (path : Path2D) (calls : list PathCall) : option Path2D :=
  match calls with
  | [] => Some path
  | c :: rest => if throws c then None else draw (path ++ [c]) rest
  end.

(** [addHoleCCW(path, indices, lm, W, H)]: the loop runs over
    [i = 1 .. rev.length - 1]. *)
Definition addHoleCCW (path : Path2D) (indices : list nat)
    (lm : list Landmark) (W H : float) : option Path2D :=
  let rev := List.rev indices in
  r0 <- nth_error rev 0 ;;
  p0 <- nth_error lm r0 ;;
  let path := path ++ [moveTo (x p0 * W) (y p0 * H)] in
  path <- fold_left
            (fun acc i =>
               path <- acc ;;
               ri <- nth_error rev i ;;
               p <- nth_error lm ri ;;
               Some (path ++ [lineTo (x p * W) (y p * H)]))
            (seq 1 (length rev - 1)) (Some path) ;;
  Some (path ++ [closePath]).

(** The calls for the rounded rectangle that [buildMaskPath] draws first. *)
Definition outline (topY chinY leftX rightX : float) : Path2D :=
  let centerX := (leftX + rightX) / 2 in
  let faceW := rightX - leftX in
  let faceH := chinY - topY in
  let topMask := topY in
  let bottomMask := chinY + faceH * 0.5 in
  let maskW := faceW * 0.65 in
  let left := centerX - maskW in
  let right := centerX + maskW in
  let cornerR := faceW * 0.25 in
  [ moveTo (left + cornerR) topMask;
    lineTo (right - cornerR) topMask;
    arcTo right topMask right (topMask + cornerR) cornerR;
    lineTo right (bottomMask - cornerR);
    arcTo right bottomMask (right - cornerR) bottomMask cornerR;
    lineTo (left + cornerR) bottomMask;
    arcTo left bottomMask left (bottomMask - cornerR) cornerR;
    lineTo left (topMask + cornerR);
    arcTo left topMask (left + cornerR) topMask cornerR;
    closePath ].

(** The mouth ellipse call of [buildMaskPath]. *)
Definition mouthEllipse (mLeft mTop mRight mBottom : float) : PathCall :=
  let mCX := (mLeft + mRight) / 2 in
  let mCY := (mTop + mBottom) / 2 in
  let mRX := (mRight - mLeft) * 0.35 in
  let mRY := (mBottom - mTop) * 0.45 in
  ellipse mCX mCY mRX mRY 0 0 (Math_PI * 2) true.

(** [buildMaskPath(lm, W, H)] *)
Definition buildMaskPath (lm : list Landmark) (W H : float) : option Path2D :=
  topY <- py lm LM_TOP_HEAD H ;;
  chinY <- py lm LM_CHIN H ;;
  leftX <- px lm LM_LEFT_EAR W ;;
  rightX <- px lm LM_RIGHT_EAR W ;;
  p <- draw [] (outline topY chinY leftX rightX) ;;
  p <- addHoleCCW p LEFT_EYE lm W H ;;
  p <- addHoleCCW p RIGHT_EYE lm W H ;;
  mLeft <- px lm (nth 0 MOUTH_PTS 0%nat) W ;;
  mTop <- py lm (nth 1 MOUTH_PTS 0%nat) H ;;
  mRight <- px lm (nth 2 MOUTH_PTS 0%nat) W ;;
  mBottom <- py lm (nth 3 MOUTH_PTS 0%nat) H ;;
  draw p [mouthEllipse mLeft mTop mRight mBottom].

(** The landmark [lm[i]] of an array that has one there. *)
Definition landmarkAt (lm : list Landmark) (i : nat) : Landmark :=
  nth i lm (mkPoint 0 0 0).

(** The outline calls and the mouth call that [buildMaskPath] makes on
    an array that has the landmarks it reads. *)
Definition outlineOf (lm : list Landmark) (W H : float) : Path2D :=
  outline (y (landmarkAt lm LM_TOP_HEAD) * H) (y (landmarkAt lm LM_CHIN) * H)
          (x (landmarkAt lm LM_LEFT_EAR) * W) (x (landmarkAt lm LM_RIGHT_EAR) * W).

Definition mouthOf (lm : list Landmark) (W H : float) : PathCall :=
  mouthEllipse (x (landmarkAt lm (nth 0 MOUTH_PTS 0%nat)) * W)
               (y (landmarkAt lm (nth 1 MOUTH_PTS 0%nat)) * H)
               (x (landmarkAt lm (nth 2 MOUTH_PTS 0%nat)) * W)
               (y (landmarkAt lm (nth 3 MOUTH_PTS 0%nat)) * H).

(** The pixel position [{lm[idx].x * W, lm[idx].y * H}] of landmark [idx],
    when there is one. *)
Definition pixelAt (lm : list Landmark) (W H : float) (idx : nat)
    : option (float * float) :=
  p <- nth_error lm idx ;; Some (x p * W, y p * H).

(** A closed sub-path: one [moveTo], then [lineTo] calls, then [closePath]. *)
Definition closedSubPath (vs : list (float * float)) : Path2D :=
  match vs with
  | [] => []
  | (vx, vy) :: rest =>
      moveTo vx vy :: map (fun v => lineTo (fst v) (snd v)) rest ++ [closePath]
  end.

(** The vertices of a run of calls: the end points of its [moveTo] and
    [lineTo] calls, in call order. *)
Definition vertices (calls : Path2D) : list (float * float) :=
  flat_map (fun c => match c with
                     | moveTo vx vy => [(vx, vy)]
                     | lineTo vx vy => [(vx, vy)]
                     | _ => []
                     end) calls.

(** The radii passed to [ellipse] calls, in call order. *)
Definition ellipseRadii (calls : Path2D) : list (float * float) :=
  flat_map (fun c => match c with
                     | ellipse _ _ rx ry _ _ _ _ => [(rx, ry)]
                     | _ => []
                     end) calls.

End MaskCompositor.

(** ** services/maskProcessor.ts: the raw-SVG mask buffer *)

Module MaskProcessor.
Import Coordinates.
Local Open Scope float_scope.

(** The SVG document that [generateMaskBuffer] writes as text, element by
    element; numbers stand where the template literals print them. *)
Inductive SvgElement : Type :=
| rect (fill : string)
| polygon (points : list (float * float)) (fill : string)
| svgEllipse (cx cy rx ry : float) (fill : string).

Definition LEFT_EYE : list nat :=
  [33; 246; 161; 160; 159; 158; 157; 173; 133; 155; 154; 153; 145; 144; 163; 7]%nat.
Definition RIGHT_EYE : list nat :=
  [362; 398; 384; 385; 386; 387; 388; 466; 263; 249; 390; 373; 374; 380; 381; 382]%nat.
Definition MOUTH_PTS : list nat := [78; 13; 308; 14]%nat.

(** The [map] callback: [pt ? `${pt.x * W},${pt.y * H}` : '0,0']. *)
Definition eyePoint (landmarks : list Landmark) (W H : float) (idx : nat)
    : float * float :=
  match nth_error landmarks idx with
  | Some pt => (x pt * W, y pt * H)
  | None => (0, 0)
  end.

(** [landmarks[i]?.x * W || 0]: a missing landmark gives
    [undefined * W = NaN], which [|| 0] turns into [0]. *)
Definition xOrZero (landmarks : list Landmark) (i : nat) (W : float) : float :=
  JS.or_zero (match nth_error landmarks i with
              | Some pt => x pt * W
              | None => nan
              end).
Definition yOrZero (landmarks : list Landmark) (i : nat) (H : float) : float :=
  JS.or_zero (match nth_error landmarks i with
              | Some pt => y pt * H
              | None => nan
              end).

(** [generateMaskBuffer(landmarks, W, H)] *)
Definition generateMaskBuffer (landmarks : list Landmark) (W H : float)
    : list SvgElement :=
  let leftEyePoints := map (eyePoint landmarks W H) LEFT_EYE in
  let rightEyePoints := map (eyePoint landmarks W H) RIGHT_EYE in
  let mLeft := xOrZero landmarks (nth 0 MOUTH_PTS 0%nat) W in
  let mTop := yOrZero landmarks (nth 1 MOUTH_PTS 0%nat) H in
  let mRight := xOrZero landmarks (nth 2 MOUTH_PTS 0%nat) W in
  let mBottom := yOrZero landmarks (nth 3 MOUTH_PTS 0%nat) H in
  let mCX := (mLeft + mRight) / 2 in
  let mCY := (mTop + mBottom) / 2 in
  let mRX := JS.Math_max ((mRight - mLeft) * 0.35) 10 in
  let mRY := JS.Math_max ((mBottom - mTop) * 0.45) 10 in
  [ rect "white";
    polygon leftEyePoints "black";
    polygon rightEyePoints "black";
    svgEllipse mCX mCY mRX mRY "black" ].

(** The point lists of the polygons of a document, in document order. *)
Definition polygons (doc : list SvgElement) : list (list (float * float)) :=
  flat_map (fun e => match e with
                     | polygon pts _ => [pts]
                     | _ => []
                     end) doc.

(** The radii of the ellipses of a document. *)
Definition ellipseRadii (doc : list SvgElement) : list (float * float) :=
  flat_map (fun e => match e with
                     | svgEllipse _ _ rx ry _ => [(rx, ry)]
                     | _ => []
                     end) doc.

End MaskProcessor.

(** ** Sample faces *)

Module Fixtures.
Import Coordinates.
Local Open Scope float_scope.

(** 468 landmarks: forehead (10), chin (152) and ears (234, 454) spread
    around the image centre, every other landmark at the centre, so the
    mouth corners (78, 308) coincide and so do the lips (13, 14). *)
Definition closedMouthFace : list Landmark :=
  map (fun i =>
         if (i =? 10)%nat then mkPoint 0.5 0.25 0
         else if (i =? 152)%nat then mkPoint 0.5 0.75 0
         else if (i =? 234)%nat then mkPoint 0.25 0.5 0
         else if (i =? 454)%nat then mkPoint 0.75 0.5 0
         else mkPoint 0.5 0.5 0)
      (seq 0 468).

(** 468 landmarks on a diagonal: landmark [i] sits at [(i/512, i/512, 0)],
    so that at 512 x 512 its pixel is [(i, i)]; no two landmarks coincide,
    the right ear is right of the left ear and the lower lip below the
    upper lip. *)
Definition diagonalFace : list Landmark :=
  map (fun i =>
         let t := of_uint63 (Uint63.of_Z (Z.of_nat i)) / 512 in
         mkPoint t t 0)
      (seq 0 468).

(** The same face mirrored left to right: the ears have changed sides. *)
Definition mirroredFace : list Landmark :=
  map (fun p => mkPoint (1 - x p) (y p) (z p)) diagonalFace.

End Fixtures.

(** ** src/services/textureGenerator.ts *)

Module TextureGenerator.
Local Open Scope string_scope.
Local Open Scope Z_scope.

Inductive Quality : Type := low | medium | high | ultra.

Record TextureGenerationRequest : Type := mkRequest {
  prompt : string;
  negativePrompt : option string;
  style : option string;
  quality : option Quality;
  seed : option float;
  steps : option float;
  guidance : option float
}.

Record TextureGenerationResponse : Type := mkResponse {
  baseColor : list Byte.byte;
  normalMap : list Byte.byte;
  roughnessMap : list Byte.byte;
  metalnessMap : list Byte.byte;
  aoMap : option (list Byte.byte);
  emissiveMap : option (list Byte.byte);
  width : float;
  height : float;
  responseSeed : float;
  generationTime : float
}.

(** A cache entry [{ data, timestamp }]; timestamps are [Date.now()]
    readings, whole milliseconds. *)
Record Entry : Type := mkEntry {
  data : TextureGenerationResponse;
  timestamp : Z
}.

(** A JavaScript [Map<string, Entry>]: the entries in insertion order, one
    per key. *)
Definition EntryMap : Type := list (string * Entry).

Fixpoint Map_get (key : string) (m : EntryMap) : option Entry :=
  match m with
  | [] => None
  | (k, e) :: rest => if String.eqb k key then Some e else Map_get key rest
  end.

(** [Map.prototype.set]: an existing key keeps its place, a new key goes
    last. *)
Fixpoint Map_set (key : string) (e : Entry) (m : EntryMap) : EntryMap :=
  match m with
  | [] => [(key, e)]
  | (k, e') :: rest =>
      if String.eqb k key then (k, e) :: rest else (k, e') :: Map_set key e rest
  end.

Fixpoint Map_delete (key : string) (m : EntryMap) : EntryMap :=
  match m with
  | [] => []
  | (k, e) :: rest =>
      if String.eqb k key then rest else (k, e) :: Map_delete key rest
  end.

Definition Map_size (m : EntryMap) : nat := length m.

Definition maxSize : nat := 20.
Definition ttl : Z := 24 * 60 * 60 * 1000.

(** [Array.prototype.sort] with the comparator
    [(a, b) => a[1].timestamp - b[1].timestamp]: the sort is stable, so its
    result is the one a stable insertion sort gives. *)
Fixpoint insertByTimestamp (a : string * Entry) (sorted : EntryMap) : EntryMap :=
  match sorted with
  | [] => [a]
  | b :: rest =>
      if timestamp (snd a) - timestamp (snd b) <=? 0
      then a :: b :: rest
      else b :: insertByTimestamp a rest
  end.

Fixpoint sortByTimestamp (entries : EntryMap) : EntryMap :=
  match entries with
  | [] => []
  | a :: rest => insertByTimestamp a (sortByTimestamp rest)
  end.

(** [Array.from(this.cache.entries()).sort(...)[0][0]]; on an empty map the
    index expression would throw, which [TextureCache_set] never reaches
    because [maxSize] is positive. *)
Definition oldestKey (cache : EntryMap) : option string :=
  match sortByTimestamp cache with
  | (k, _) :: _ => Some k
  | [] => None
  end.

(** [TextureCache.set(key, value)], with the reading of [Date.now()]. *)
Definition TextureCache_set (cache : EntryMap) (key : string)
    (value : TextureGenerationResponse) (now : Z) : EntryMap :=
  let cache :=
    if (maxSize <=? Map_size cache)%nat
    then match oldestKey cache with
         | Some k => Map_delete k cache
         | None => cache
         end
    else cache in
  Map_set key (mkEntry value now) cache.

(** [TextureCache.get(key)], with the reading of [Date.now()]; an expired
    entry is deleted on the way. *)
Definition TextureCache_get (cache : EntryMap) (key : string) (now : Z)
    : EntryMap * option TextureGenerationResponse :=
  match Map_get key cache with
  | None => (cache, None)
  | Some entry =>
      if now - timestamp entry >? ttl
      then (Map_delete key cache, None)
      else (cache, Some (data entry))
  end.

Definition qualityName (q : Quality) : string :=
  match q with
  | low => "low" | medium => "medium" | high => "high" | ultra => "ultra"
  end.

(** How a template literal prints an optional string. *)
Definition printOptional (s : option string) : string :=
  match s with
  | Some s => s
  | None => "undefined"
  end.

(** [TextureCache.generateKey(request)] *)
Definition generateKey (request : TextureGenerationRequest) : string :=
  (prompt request ++ "_" ++ printOptional (style request) ++ "_"
     ++ printOptional (option_map qualityName (quality request)))%string.

(** The mutable fields of an [AITextureGenerator]. *)
Record Generator : Type := mkGenerator {
  cache : EntryMap;
  isGenerating : bool
}.

(** Where a call of the async [generate] stands once it stops running:
    settled, or suspended at [await this.callAIModel(request)]. *)
Inductive Progress : Type :=
| Resolved (response : TextureGenerationResponse)
| Rejected (message : string)
| AwaitingModel (cacheKey : string).

(** [generate(request)] from its entry to the first point where it stops:
    a cache hit, the single-flight error, or the [await]. *)
Definition generate (g : Generator) (request : TextureGenerationRequest)
    (now : Z) : Generator * Progress :=
  let cacheKey := generateKey request in
  let (cache', cached) := TextureCache_get (cache g) cacheKey now in
  match cached with
  | Some response => (mkGenerator cache' (isGenerating g), Resolved response)
  | None =>
      if isGenerating g
      then (mkGenerator cache' (isGenerating g),
            Rejected "Generation already in progress")
      else (mkGenerator cache' true, AwaitingModel cacheKey)
  end.

(** The rest of [generate] once [callAIModel] has settled with a response
    or an error: the [try] body and the [finally] block. *)
Definition generate_resume (g : Generator) (cacheKey : string)
    (settled : TextureGenerationResponse + string) (now : Z)
    : Generator * Progress :=
  match settled with
  | inl response =>
      (mkGenerator (TextureCache_set (cache g) cacheKey response now) false,
       Resolved response)
  | inr message => (mkGenerator (cache g) false, Rejected message)
  end.


(** The map entry a [set] call writes. *)
Definition entryOf (call : string * TextureGenerationResponse * Z)
    : string * Entry :=
  (fst (fst call), mkEntry (snd (fst call)) (snd call)).

(** No string occurs twice. *)
Fixpoint distinct (keys : list string) : bool :=
  match keys with
  | [] => true
  | k :: rest => negb (existsb (String.eqb k) rest) && distinct rest
  end.



(** Sample data: a response, and the request and [set] call number [i];
    the prompts are the one-letter strings "A", "B", ... *)
Definition sampleResponse : TextureGenerationResponse :=
  mkResponse [] [] [] [] None None 512 512 1 0.

Definition sampleRequest (i : nat) : TextureGenerationRequest :=
  mkRequest (String (ascii_of_nat (65 + i)) EmptyString) None
            (Some "realistic") (Some high) None None None.

Definition sampleCall (i : nat) : string * TextureGenerationResponse * Z :=
  (generateKey (sampleRequest i), sampleResponse, 1000 + Z.of_nat i).


End TextureGenerator.

(** ** src/services/materialSystem.ts: the prompt processor *)

Module PromptProcessor.
Local Open Scope string_scope.

(** Strings are read as sequences of code units in the range
    U+0000..U+00FF. *)

(** White space and line terminators removed by [String.prototype.trim]. *)
Definition isWhiteSpace (c : ascii) : bool :=
  let n := nat_of_ascii c in
  ((n =? 9) || (n =? 10) || (n =? 11) || (n =? 12) || (n =? 13)
   || (n =? 32) || (n =? 160))%nat.

Fixpoint trimStart (s : string) : string :=
  match s with
  | EmptyString => EmptyString
  | String c rest => if isWhiteSpace c then trimStart rest else s
  end.

Fixpoint trimEnd (s : string) : string :=
  match s with
  | EmptyString => EmptyString
  | String c rest =>
      match trimEnd rest with
      | EmptyString => if isWhiteSpace c then EmptyString else String c EmptyString
      | rest' => String c rest'
      end
  end.

(** [s.trim()] *)
Definition trim (s : string) : string := trimEnd (trimStart s).

Definition lowerChar (c : ascii) : ascii :=
  let n := nat_of_ascii c in
  if ((65 <=? n) && (n <=? 90))%nat then ascii_of_nat (n + 32)
  else if ((192 <=? n) && (n <=? 222) && negb (n =? 215))%nat
       then ascii_of_nat (n + 32)
       else c.

(** [s.toLowerCase()] *)
Fixpoint toLowerCase (s : string) : string :=
  match s with
  | EmptyString => EmptyString
  | String c rest => String (lowerChar c) (toLowerCase rest)
  end.

(** [s.includes(word)] *)
Fixpoint includes (s word : string) : bool :=
  String.prefix word s
  || match s with
     | EmptyString => false
     | String _ rest => includes rest word
     end.

(** [parts.join(sep)] *)
Fixpoint join (sep : string) (parts : list string) : string :=
  match parts with
  | [] => ""
  | [p] => p
  | p :: rest => p ++ sep ++ join sep rest
  end.

Inductive Style : Type :=
| style_realistic | style_artistic | style_fantasy
| style_cyberpunk | style_steampunk | style_minimalist.
Inductive Quality : Type :=
| quality_low | quality_medium | quality_high | quality_ultra.
Inductive Lighting : Type :=
| lighting_studio | lighting_natural | lighting_dramatic | lighting_soft.
Inductive Material : Type :=
| material_fabric | material_metal | material_ceramic
| material_plastic | material_leather | material_wood.
Inductive DetailLevel : Type :=
| detail_low | detail_medium | detail_high | detail_extreme.

(** The string each selector value is at run time. *)
Definition styleKey (s : Style) : string :=
  match s with
  | style_realistic => "realistic" | style_artistic => "artistic"
  | style_fantasy => "fantasy" | style_cyberpunk => "cyberpunk"
  | style_steampunk => "steampunk" | style_minimalist => "minimalist"
  end.
Definition qualityKey (q : Quality) : string :=
  match q with
  | quality_low => "low" | quality_medium => "medium"
  | quality_high => "high" | quality_ultra => "ultra"
  end.
Definition lightingKey (l : Lighting) : string :=
  match l with
  | lighting_studio => "studio" | lighting_natural => "natural"
  | lighting_dramatic => "dramatic" | lighting_soft => "soft"
  end.
Definition materialKey (m : Material) : string :=
  match m with
  | material_fabric => "fabric" | material_metal => "metal"
  | material_ceramic => "ceramic" | material_plastic => "plastic"
  | material_leather => "leather" | material_wood => "wood"
  end.
Definition detailKey (d : DetailLevel) : string :=
  match d with
  | detail_low => "low" | detail_medium => "medium"
  | detail_high => "high" | detail_extreme => "extreme"
  end.

Record PromptConfig : Type := mkConfig {
  style : option Style;
  quality : option Quality;
  lighting : option Lighting;
  material : option Material;
  detailLevel : option DetailLevel
}.

Record EnhancedPrompt : Type := mkEnhanced {
  original : string;
  enhanced : string;
  e_style : string;
  e_quality : string;
  e_lighting : string;
  e_material : string;
  e_detailLevel : string;
  tokens : nat
}.

(** The preset tables, [Record<string, string>]. *)
Definition STYLE_PRESETS : list (string * string) :=
  [ ("realistic", "photorealistic, 4K, professional photography, detailed, high quality");
    ("artistic", "artistic rendering, painted, stylized, creative, unique");
    ("fantasy", "fantasy art, magical, mystical, ethereal, otherworldly");
    ("cyberpunk", "cyberpunk, neon, futuristic, high-tech, glowing");
    ("steampunk", "steampunk, vintage, mechanical, brass, gears");
    ("minimalist", "minimalist, clean, simple, elegant, modern") ].

Definition QUALITY_PRESETS : list (string * string) :=
  [ ("low", "512x512 resolution");
    ("medium", "1024x1024 resolution, good quality");
    ("high", "2048x2048 resolution, excellent quality, highly detailed");
    ("ultra", "4096x4096 resolution, ultra high quality, extreme detail") ].

Definition LIGHTING_PRESETS : list (string * string) :=
  [ ("studio", "studio lighting, professional lighting setup, key light, fill light");
    ("natural", "natural lighting, daylight, soft shadows, outdoor");
    ("dramatic", "dramatic lighting, high contrast, moody, cinematic");
    ("soft", "soft lighting, diffused, gentle shadows, flattering") ].

Definition MATERIAL_PRESETS : list (string * string) :=
  [ ("fabric", "fabric texture, cloth, woven, soft appearance");
    ("metal", "metallic, shiny, reflective, polished metal");
    ("ceramic", "ceramic, glossy, smooth, porcelain-like");
    ("plastic", "plastic, matte, synthetic, uniform finish");
    ("leather", "leather texture, supple, rich, aged patina");
    ("wood", "wood texture, natural grain, warm tones") ].

Definition DETAIL_PRESETS : list (string * string) :=
  [ ("low", "simple design, minimal details");
    ("medium", "moderate details, balanced complexity");
    ("high", "intricate details, complex patterns, fine textures");
    ("extreme", "extremely detailed, hyper-detailed, every surface textured") ].

(** [TABLE[key]]; [None] is [undefined]. *)
Fixpoint lookup (table : list (string * string)) (key : string) : option string :=
  match table with
  | [] => None
  | (k, v) :: rest => if String.eqb k key then Some v else lookup rest key
  end.

Definition minLength : nat := 5.
Definition maxLength : nat := 500.

Record Validation : Type := mkValidation {
  valid : bool;
  error : option string
}.

Definition inappropriateWords : list string := ["violence"; "hate"; "explicit"].

(** [validatePrompt(prompt)] *)
Definition validatePrompt (prompt : string) : Validation :=
  if String.eqb prompt ""
  then mkValidation false (Some "Prompt must be a non-empty string")
  else
    let trimmed := trim prompt in
    if (String.length trimmed <? minLength)%nat
    then mkValidation false (Some "Prompt must be at least 5 characters")
    else if (maxLength <? String.length trimmed)%nat
    then mkValidation false (Some "Prompt must be less than 500 characters")
    else if existsb (fun word => includes (toLowerCase trimmed) word)
                    inappropriateWords
    then mkValidation false (Some "Prompt contains inappropriate content")
    else mkValidation true None.

(** [estimateTokens(text)]: [Math.ceil(text.length / 4)]. *)
Definition estimateTokens (text : string) : nat :=
  ((String.length text + 3) / 4)%nat.

(** The truthy strings: [parts.filter(p => p)] drops [undefined] and [""]. *)
Definition truthy (parts : list (option string)) : list string :=
  flat_map (fun p => match p with
                     | Some s => if String.eqb s "" then [] else [s]
                     | None => []
                     end) parts.

Inductive Outcome (A : Type) : Type :=
| Returned (value : A)
| Thrown (message : string).
Arguments Returned {A} _.
Arguments Thrown {A} _.

Definition orDefault {A : Type} (v : option A) (d : A) : A :=
  match v with
  | Some a => a
  | None => d
  end.

(** [enhancePrompt(prompt, config)] *)
Definition enhancePrompt (prompt : string) (config : PromptConfig)
    : Outcome EnhancedPrompt :=
  let validation := validatePrompt prompt in
  if negb (valid validation)
  then Thrown (orDefault (error validation) "")
  else
    let style := styleKey (orDefault (style config) style_realistic) in
    let quality := qualityKey (orDefault (quality config) quality_high) in
    let lighting := lightingKey (orDefault (lighting config) lighting_studio) in
    let material := materialKey (orDefault (material config) material_metal) in
    let detailLevel := detailKey (orDefault (detailLevel config) detail_high) in
    let parts :=
      [ Some (trim prompt);
        lookup STYLE_PRESETS style;
        lookup QUALITY_PRESETS quality;
        lookup LIGHTING_PRESETS lighting;
        lookup MATERIAL_PRESETS material;
        lookup DETAIL_PRESETS detailLevel;
        Some "mask, face mask, wearable art" ] in
    let enhanced := join ", " (truthy parts) in
    Returned (mkEnhanced prompt enhanced style quality lighting material
                         detailLevel (estimateTokens enhanced)).

(** The defaults of [config = {}]. *)
Definition defaultConfig : PromptConfig := mkConfig None None None None None.

(** A valid phrase: at least [minLength] and at most [maxLength] characters
    once trimmed (so not empty), and no denylisted term in it. *)
Definition validPhrase (prompt : string) : Prop :=
  (minLength <= String.length (trim prompt))%nat /\
  (String.length (trim prompt) <= maxLength)%nat /\
  forall word, In word inappropriateWords ->
               includes (toLowerCase (trim prompt)) word = false.

(** The messages [validatePrompt] can report. *)
Definition validationMessages : list string :=
  [ "Prompt must be a non-empty string";
    "Prompt must be at least 5 characters";
    "Prompt must be less than 500 characters";
    "Prompt contains inappropriate content" ].

(** The [enhanced] field of a returned prompt. *)
Definition enhancedText (r : Outcome EnhancedPrompt) : option string :=
  match r with
  | Returned e => Some (enhanced e)
  | Thrown _ => None
  end.

End PromptProcessor.

(** ** The real value of a binary64 number, for the proofs below *)

Module Binary64.
Local Open Scope Z_scope.

(** Powers of two with an integer exponent. *)
Definition pow2 (e : Z) : R := powerRZ 2 e.

(** The exponent of the format at a magnitude. *)
Definition fexp64 (e : Z) : Z := Z.max (e - 53) (-1074).

(** The largest finite number, [Number.MAX_VALUE]. *)
Definition maxval : R := (IZR (2 ^ 53 - 1) * pow2 971)%R.

(** The value of a zero or of a finite number; NaN and the infinities have
    none and are given 0. *)
Definition SF2R (f : spec_float) : R :=
  match f with
  | S754_finite s m e =>
      if s then (- (IZR (Zpos m) * pow2 e))%R else (IZR (Zpos m) * pow2 e)%R
  | _ => 0%R
  end.

Definition SFnumber (f : spec_float) : bool :=
  match f with
  | S754_zero _ | S754_finite _ _ _ => true
  | _ => false
  end.

Definition value (f : float) : R := SF2R (Prim2SF f).
Definition number (f : float) : Prop := SFnumber (Prim2SF f) = true.

(** The error allowed to an operation whose exact result has magnitude
    [x]: a relative error of [2^-51] and an absolute error of [2^-1073]. *)
Definition err (x : R) : R := (pow2 (-51) * x + pow2 (-1073))%R.

End Binary64.

(** ** The order of binary64 values, for the proofs below *)

Module FloatOrder.
Local Open Scope Z_scope.

(** A key that orders the values other than NaN as IEEE comparison does:
    by sign class first, then exponent, then mantissa (both negated for
    negative numbers). *)
Definition rank (s : spec_float) : Z * Z * Z :=
  match s with
  | S754_nan => (0, 0, 0)
  | S754_zero _ => (0, 0, 0)
  | S754_infinity true => (-2, 0, 0)
  | S754_infinity false => (2, 0, 0)
  | S754_finite false m e => (1, e, Zpos m)
  | S754_finite true m e => (-1, - e, Zneg m)
  end.

(** Lexicographic order on keys. *)
Definition lex_le (a b : Z * Z * Z) : Prop :=
  let '(a1, a2, a3) := a in
  let '(b1, b2, b3) := b in
  a1 < b1 \/ (a1 = b1 /\ (a2 < b2 \/ (a2 = b2 /\ a3 <= b3))).

End FloatOrder.

(** ** src/utils/coordinates.ts, continued: pixel space and the face centre *)

Module PixelSpace.
Import Coordinates.

Section Conversions.
Context {T : Type} (o : Ops T).

(** [normalizedToPixel(normalized, imageWidth, imageHeight)]; a point
    [{x, y}] is a pair. *)
Definition normalizedToPixel (normalized : T * T) (imageWidth imageHeight : T)
    : T * T :=
  (mul o (fst normalized) imageWidth, mul o (snd normalized) imageHeight).

(** [pixelToNormalized(pixel, imageWidth, imageHeight)] *)
Definition pixelToNormalized (pixel : T * T) (imageWidth imageHeight : T)
    : T * T :=
  (div o (fst pixel) imageWidth, div o (snd pixel) imageHeight).
End Conversions.

Local Open Scope float_scope.

(** [getFaceCenter(landmarks, faceScale)] *)
Definition getFaceCenter (landmarks : list Landmark) (faceScale : float)
    : Point float :=
  let bbox := calculateFaceBoundingBox landmarks in
  let centerNormalized :=
    mkPoint (minX bbox + width bbox / 2)
            (minY bbox + height bbox / 2)
            (minZ bbox + depth bbox / 2) in
  normalizedToWorld float_ops centerNormalized faceScale.

(** A landmark all of whose coordinates are numbers (none is NaN). *)
Definition allNumbers (p : Landmark) : Prop :=
  is_nan (x p) = false /\ is_nan (y p) = false /\ is_nan (z p) = false.

End PixelSpace.

(** ** src/components/FaceMesh3D.tsx: the geometry of the face mesh *)

Module FaceMesh3D.
Import Coordinates.
Local Open Scope float_scope.

(** What the [useMemo] body hands to three.js: the empty placeholder
    [new THREE.BufferGeometry()], or the position, uv and index arrays. *)
Inductive Geometry : Type :=
| emptyGeometry
| meshGeometry (position : list float) (uv : list float) (index : list Z).

(** The body of [useMemo] in [FaceMesh], up to the arrays it builds. *)
Definition buildGeometry (landmarks : list Landmark) : Geometry :=
  if (length landmarks =? 0)%nat || negb (validateLandmarks landmarks)
  then emptyGeometry
  else
    let faceScale := calculateOptimalFaceScale landmarks 2 in
    let vertices :=
      flat_map (fun landmark =>
                  let worldPos := normalizedToWorld float_ops landmark faceScale in
                  [x worldPos; y worldPos; z worldPos])
               landmarks in
    let uvs := flat_map (fun landmark => [x landmark; y landmark]) landmarks in
    let triangleIndices := Triangulation.getFaceTriangles in
    if negb (Triangulation.validateTriangles triangleIndices
                                             (Z.of_nat (length landmarks)))
    then emptyGeometry
    else meshGeometry vertices uvs triangleIndices.

End FaceMesh3D.

(** ** src/components/MaskCompositor.tsx, continued: head width and edge *)

Module MaskEdge.
Import Coordinates.
Import MaskCompositor.
Local Open Scope float_scope.

(** [getHeadWidth(lm, W, H)] *)
Definition getHeadWidth (lm : list Landmark) (W H : float) : option float :=
  right <- px lm LM_RIGHT_EAR W ;;
  left <- px lm LM_LEFT_EAR W ;;
  Some (abs (right - left)).

(** What [drawEdge] strokes: the path [e] with the stroke settings. *)
Record Stroke : Type := mkStroke {
  strokePath : Path2D;
  strokeStyle : string;
  lineWidth : float
}.

(** [drawEdge(ctx, lm, W, H)]: the calls on the new path [e], one of which
    may throw, then the stroke. *)
Definition drawEdge (lm : list Landmark) (W H : float) : option Stroke :=
  topY <- py lm LM_TOP_HEAD H ;;
  chinY <- py lm LM_CHIN H ;;
  leftX <- px lm LM_LEFT_EAR W ;;
  rightX <- px lm LM_RIGHT_EAR W ;;
  let centerX := (leftX + rightX) / 2 in
  let faceW := rightX - leftX in
  let faceH := chinY - topY in
  let topMask := topY in
  let bottomMask := chinY + faceH * 0.5 in
  let maskW := faceW * 0.65 in
  let left := centerX - maskW in
  let right := centerX + maskW in
  let cornerR := faceW * 0.25 in
  let calls :=
    [ moveTo (left + cornerR) topMask;
      lineTo (right - cornerR) topMask;
      arcTo right topMask right (topMask + cornerR) cornerR;
      lineTo right (bottomMask - cornerR);
      arcTo right bottomMask (right - cornerR) bottomMask cornerR;
      lineTo (left + cornerR) bottomMask;
      arcTo left bottomMask left (bottomMask - cornerR) cornerR;
      lineTo left (topMask + cornerR);
      arcTo left topMask (left + cornerR) topMask cornerR;
      closePath ] in
  e <- draw [] calls ;;
  Some (mkStroke e "rgba(0,0,0,0.3)" 3).

End MaskEdge.

(** ** src/services/textureGenerator.ts, continued: the retry loop *)

Module ModelCall.
Import TextureGenerator.
Local Open Scope Z_scope.

(** What one pass through the [try] block comes to: the decoded response,
    or the message of the error it threw (network failure, a status that is
    not ok, a body that does not parse). *)
Definition Attempt : Type := (TextureGenerationResponse + string)%type.

(** [this.config.retries || 3], the count read as a whole number;
    [None] is [undefined]. *)
Definition retriesOrDefault (retries : option Z) : Z :=
  match retries with
  | None => 3
  | Some 0 => 3
  | Some n => n
  end.

(** The error thrown after the loop: it prints [this.config.retries] as it
    is and the message of the last error, if any. *)
Record Failure : Type := mkFailure {
  reportedAttempts : option Z;
  lastMessage : option string
}.

(** The [for] loop from [attempt] on, with [n] iterations left; [waited]
    collects the delays of [setTimeout], in milliseconds. *)
Fixpoint attemptLoop (n : nat) (attempt : Z) (retries : option Z)
    (outcome : Z -> Attempt) (lastError : option string) (waited : list Z)
    : list Z * (TextureGenerationResponse + Failure) :=
  match n with
  | O => (waited, inr (mkFailure retries lastError))
  | S n' =>
      match outcome attempt with
      | inl response => (waited, inl response)
      | inr message =>
          let waited :=
            if attempt <? retriesOrDefault retries - 1
            then waited ++ [1000 * (attempt + 1)]
            else waited in
          attemptLoop n' (attempt + 1) retries outcome (Some message) waited
      end
  end.

(** [callAIModel(request)], given what each attempt comes to. *)
Definition callAIModel (retries : option Z) (outcome : Z -> Attempt)
    : list Z * (TextureGenerationResponse + Failure) :=
  attemptLoop (Z.to_nat (retriesOrDefault retries)) 0 retries outcome None [].

(** The delays before the first [k] retries: 1000, 2000, ..., 1000 k. *)
Definition backoff (k : nat) : list Z :=
  map (fun i => 1000 * (Z.of_nat i + 1)) (seq 0 k).

End ModelCall.

(** ** src/services/materialSystem.ts, continued *)

Module PromptExtras.
Import PromptProcessor.
Local Open Scope string_scope.

(** The field [maxTokens] of [PromptProcessor]. *)
Definition maxTokens : nat := 150.

(** [getSuggestions(partial)]; [Object.keys] lists the styles in the order
    of the table. *)
Definition getSuggestions (partial : string) : list string :=
  filter (fun style => includes style (toLowerCase partial))
         (map fst STYLE_PRESETS).

(** Every character is white space. *)
Fixpoint allWhiteSpace (s : string) : bool :=
  match s with
  | EmptyString => true
  | String c rest => isWhiteSpace c && allWhiteSpace rest
  end.

End PromptExtras.

(** ** src/services/uvMapper.ts: which projection is chosen *)

Module UVMapper.
Import Coordinates.
Local Open Scope float_scope.

(** [config.method] *)
Inductive Method : Type := planar | cylindrical | spherical | auto.

(** The fields of a [UVMappingResult] besides the geometry and its uv
    array. *)
Record ProjectionInfo : Type := mkInfo {
  method : string;
  distortion : float;
  seamCount : Z
}.

Definition planarInfo : ProjectionInfo := mkInfo "planar" 0 0.
Definition cylindricalInfo : ProjectionInfo := mkInfo "cylindrical" 0.1 1.
Definition sphericalInfo : ProjectionInfo := mkInfo "spherical" 0.2 2.

(** [autoProjection], as a function of [size], the size of the bounding box
    of the positions. *)
Definition autoProjection (size : Point float) : ProjectionInfo :=
  let aspectRatio :=
    JS.Math_max (x size) (y size) / JS.Math_min (x size) (y size) in
  let flatness := z size / JS.Math_max (x size) (y size) in
  if flatness <? 0.2 then planarInfo
  else if JS.gtb aspectRatio 2 then cylindricalInfo
  else sphericalInfo.

(** [generateUVs], likewise; [None] is a config without [method]. *)
Definition generateUVs (configMethod : option Method) (size : Point float)
    : ProjectionInfo :=
  match configMethod with
  | Some planar => planarInfo
  | Some cylindrical => cylindricalInfo
  | Some spherical => sphericalInfo
  | Some auto | None => autoProjection size
  end.

End UVMapper.
(** * Proofs *)

(** ** Facts about binary64 comparison and subtraction, from the
       specification of the primitive operations *)

Module FloatFacts.
Open Scope float_scope.

Lemma SFcompare_antisym (a b : spec_float) :
  SFcompare a b = option_map CompOpp (SFcompare b a).
Proof.
  destruct a as [sa | sa | | sa ma ea], b as [sb | sb | | sb mb eb];
    simpl; try reflexivity;
    try (destruct sa; reflexivity); try (destruct sb; reflexivity);
    try (destruct sa, sb; reflexivity).
  destruct sa, sb; simpl; try reflexivity;
    rewrite (Z.compare_antisym ea eb);
    destruct (ea ?= eb)%Z; simpl; try reflexivity;
    pose proof (Pos.compare_cont_antisym mb ma Eq) as H; simpl in H;
    rewrite <- H; destruct (Pos.compare_cont Eq mb ma); reflexivity.
Qed.

Lemma SFcompare_refl (a : spec_float) :
  a <> S754_nan -> SFcompare a a = Some Eq.
Proof.
  destruct a as [sa | sa | | sa ma ea]; simpl; intros H; try congruence.
  - destruct sa; reflexivity.
  - rewrite Z.compare_refl.
    assert (Pos.compare_cont Eq ma ma = Eq) as -> by apply Pos.compare_cont_refl.
    destruct sa; reflexivity.
Qed.

Lemma ltb_leb_false (a b : float) : (a <? b) = true -> (b <=? a) = false.
Proof.
  rewrite ltb_spec, leb_spec. unfold SFltb, SFleb.
  rewrite (SFcompare_antisym (Prim2SF b) (Prim2SF a)).
  destruct (SFcompare (Prim2SF a) (Prim2SF b)) as [[]|]; simpl; congruence.
Qed.

Lemma ltb_irrefl (a : float) : (a <? a) = false.
Proof.
  rewrite ltb_spec. unfold SFltb.
  destruct (Prim2SF a) as [s | s | | s m e] eqn:E; try reflexivity;
    rewrite SFcompare_refl; try reflexivity; discriminate.
Qed.

Lemma leb_not_nan (a b : float) :
  (a <=? b) = true -> is_nan a = false /\ is_nan b = false.
Proof.
  unfold is_nan. rewrite leb_spec, !FloatAxioms.eqb_spec. unfold SFleb, SFeqb.
  intros H.
  assert (Prim2SF a <> S754_nan /\ Prim2SF b <> S754_nan) as [Ha Hb].
  { destruct (Prim2SF a), (Prim2SF b); simpl in H; try discriminate;
      split; discriminate. }
  rewrite !SFcompare_refl by assumption. split; reflexivity.
Qed.

Lemma is_nan_spec (a : float) : is_nan a = true <-> Prim2SF a = S754_nan.
Proof.
  unfold is_nan. rewrite FloatAxioms.eqb_spec. unfold SFeqb. split.
  - destruct (Prim2SF a) eqn:E; try reflexivity;
      rewrite SFcompare_refl; simpl; discriminate.
  - intros ->. reflexivity.
Qed.

Lemma is_nan_eq (a : float) : is_nan a = true -> a = nan.
Proof.
  intros H. apply is_nan_spec in H. apply Prim2SF_inj. rewrite H. reflexivity.
Qed.

Lemma is_infinity_eq (a : float) :
  is_infinity a = true -> a = infinity \/ a = neg_infinity.
Proof.
  unfold is_infinity. rewrite FloatAxioms.eqb_spec, abs_spec. unfold SFeqb.
  change (Prim2SF infinity) with (S754_infinity false).
  destruct (Prim2SF a) as [s | s | | s m e] eqn:E; simpl; try discriminate.
  intros _. destruct s; [right | left]; apply Prim2SF_inj; rewrite E; reflexivity.
Qed.

(** A non-finite number is NaN or one of the two infinities. *)
Lemma not_finite_cases (a : float) :
  is_finite a = false -> a = nan \/ a = infinity \/ a = neg_infinity.
Proof.
  unfold is_finite. rewrite negb_false_iff, orb_true_iff.
  intros [H | H]; [left; apply is_nan_eq, H | right; apply is_infinity_eq, H].
Qed.

(** [a - a] is [+0], or NaN when [a] is not finite. *)
Lemma sub_diag (a : float) : a - a = nan \/ a - a = 0.
Proof.
  assert (H : Prim2SF (a - a) = S754_nan \/ Prim2SF (a - a) = S754_zero false).
  { rewrite sub_spec. unfold SF64sub, SFsub.
    destruct (Prim2SF a) as [s | s | | s m e]; auto.
    - destruct s; auto.
    - destruct s; auto.
    - rewrite Z.sub_diag. simpl. auto. }
  destruct H as [H | H]; [left | right]; apply Prim2SF_inj; rewrite H; reflexivity.
Qed.

(** Nothing is above [infinity] or below [neg_infinity]. *)
Lemma infinity_ltb (a : float) : (infinity <? a) = false.
Proof.
  rewrite ltb_spec. change (Prim2SF infinity) with (S754_infinity false).
  unfold SFltb. destruct (Prim2SF a) as [s | s | | s m e]; try reflexivity.
  destruct s; reflexivity.
Qed.

Lemma ltb_neg_infinity (a : float) : (a <? neg_infinity) = false.
Proof.
  rewrite ltb_spec. change (Prim2SF neg_infinity) with (S754_infinity true).
  unfold SFltb. destruct (Prim2SF a) as [s | s | | s m e]; try reflexivity;
    destruct s; reflexivity.
Qed.

(** A number that is neither NaN nor below [infinity] is [infinity]. *)
Lemma not_below_infinity (a : float) :
  is_nan a = false -> (a <? infinity) = false -> a = infinity.
Proof.
  intros Hn. rewrite ltb_spec. change (Prim2SF infinity) with (S754_infinity false).
  unfold SFltb.
  destruct (Prim2SF a) as [s | s | | s m e] eqn:E; simpl.
  - discriminate.
  - destruct s; try discriminate. intros _. apply Prim2SF_inj. rewrite E. reflexivity.
  - apply is_nan_spec in E. congruence.
  - destruct s; discriminate.
Qed.

Lemma not_above_neg_infinity (a : float) :
  is_nan a = false -> (neg_infinity <? a) = false -> a = neg_infinity.
Proof.
  intros Hn. rewrite ltb_spec.
  change (Prim2SF neg_infinity) with (S754_infinity true).
  unfold SFltb.
  destruct (Prim2SF a) as [s | s | | s m e] eqn:E; simpl.
  - discriminate.
  - destruct s; try discriminate. intros _. apply Prim2SF_inj. rewrite E. reflexivity.
  - apply is_nan_spec in E. congruence.
  - destruct s; discriminate.
Qed.

Lemma leb_refl (a : float) : is_nan a = false -> (a <=? a) = true.
Proof.
intros Hn. rewrite leb_spec. unfold SFleb.
rewrite SFcompare_refl; [reflexivity |].
intros E. apply is_nan_spec in E. congruence.
Qed.

Lemma ltb_leb (a b : float) : (a <? b) = true -> (a <=? b) = true.
Proof.
rewrite ltb_spec, leb_spec. unfold SFltb, SFleb.
destruct (SFcompare (Prim2SF a) (Prim2SF b)) as [[] |]; congruence.
Qed.

(** Two numbers are comparable: when [a] is not below [b], [b] is at most
  [a]. *)
Lemma not_ltb_leb (a b : float) :
is_nan a = false -> is_nan b = false -> (a <? b) = false -> (b <=? a) = true.
Proof.
intros Ha Hb. rewrite ltb_spec, leb_spec. unfold SFltb, SFleb.
rewrite (SFcompare_antisym (Prim2SF b) (Prim2SF a)).
assert (Prim2SF a <> S754_nan) as Na
  by (intros E; apply is_nan_spec in E; congruence).
assert (Prim2SF b <> S754_nan) as Nb
  by (intros E; apply is_nan_spec in E; congruence).
destruct (SFcompare (Prim2SF a) (Prim2SF b)) as [[] |] eqn:E;
  simpl; try congruence.
destruct (Prim2SF a), (Prim2SF b); simpl in E; congruence.
Qed.

End FloatFacts.

(** ** Coordinate converter *)

Module CoordinatesFacts.
Import Coordinates.
Local Open Scope float_scope.

(** *** [Math.min] and [Math.max] on the bounds of a bounding box *)

Lemma Math_min_infinity (a : float) : JS.Math_min infinity a = a.
Proof.
  unfold JS.Math_min. change (is_nan infinity) with false. simpl orb.
  destruct (is_nan a) eqn:Hn.
  - symmetry. apply FloatFacts.is_nan_eq, Hn.
  - rewrite FloatFacts.infinity_ltb.
    destruct (a <? infinity) eqn:Hlt; simpl.
    + reflexivity.
    + symmetry. apply FloatFacts.not_below_infinity; assumption.
Qed.

Lemma Math_max_neg_infinity (a : float) : JS.Math_max neg_infinity a = a.
Proof.
  unfold JS.Math_max. change (is_nan neg_infinity) with false. simpl orb.
  destruct (is_nan a) eqn:Hn.
  - symmetry. apply FloatFacts.is_nan_eq, Hn.
  - destruct (neg_infinity <? a) eqn:Hlt.
    + reflexivity.
    + rewrite FloatFacts.ltb_neg_infinity. simpl.
      symmetry. apply FloatFacts.not_above_neg_infinity; assumption.
Qed.

Lemma Math_min_diag (a : float) : JS.Math_min a a = a.
Proof.
  unfold JS.Math_min. rewrite orb_diag.
  destruct (is_nan a) eqn:Hn.
  - symmetry. apply FloatFacts.is_nan_eq, Hn.
  - rewrite FloatFacts.ltb_irrefl. destruct (classify a); reflexivity.
Qed.

Lemma Math_max_diag (a : float) : JS.Math_max a a = a.
Proof.
  unfold JS.Math_max. rewrite orb_diag.
  destruct (is_nan a) eqn:Hn.
  - symmetry. apply FloatFacts.is_nan_eq, Hn.
  - rewrite FloatFacts.ltb_irrefl. destruct (classify a); reflexivity.
Qed.

(** The bounds once a point [p] has been seen, and nothing else. *)
Local Abbreviation boundsOf p := (mkBounds (x p) (x p) (y p) (y p) (z p) (z p)).

Lemma updateBounds_initial (p : Landmark) :
  updateBounds initialBounds p = boundsOf p.
Proof.
  unfold updateBounds, initialBounds. simpl.
  now rewrite !Math_min_infinity, !Math_max_neg_infinity.
Qed.

Lemma updateBounds_same (p : Landmark) :
  updateBounds (boundsOf p) p = boundsOf p.
Proof.
  unfold updateBounds. simpl.
  now rewrite !Math_min_diag, !Math_max_diag.
Qed.

Lemma fold_updateBounds_same (p : Landmark) (landmarks : list Landmark) :
  Forall (fun q => q = p) landmarks ->
  fold_left updateBounds landmarks (boundsOf p) = boundsOf p.
Proof.
  induction 1 as [| q rest Hq _ IH]; simpl.
  - reflexivity.
  - subst q. rewrite updateBounds_same. exact IH.
Qed.

(** The larger of two self-differences is never above zero. *)
Lemma max_of_diag_not_positive (a b : float) :
  JS.gtb (JS.Math_max (a - a) (b - b)) 0 = false.
Proof.
  destruct (FloatFacts.sub_diag a) as [-> | ->],
           (FloatFacts.sub_diag b) as [-> | ->]; reflexivity.
Qed.

Lemma scale_of_equal_points (p : Landmark) (landmarks : list Landmark)
    (targetSize : float) :
  Forall (fun q => q = p) landmarks ->
  calculateOptimalFaceScale landmarks targetSize = targetSize.
Proof.
  intros Hall. destruct Hall as [| q rest Hq Hrest].
  - reflexivity.
  - subst q. unfold calculateOptimalFaceScale, calculateFaceBoundingBox.
    simpl fold_left. rewrite updateBounds_initial, fold_updateBounds_same by assumption.
    simpl. now rewrite max_of_diag_not_positive.
Qed.

(** *** [validateLandmarks] *)

Lemma axisOk_true (lo hi v : float) :
  axisOk lo hi v = true <-> (lo <=? v) = true /\ (v <=? hi) = true.
Proof.
  unfold axisOk, JS.geb. rewrite !andb_true_iff, negb_true_iff. split.
  - tauto.
  - intros [H1 H2]. destruct (FloatFacts.leb_not_nan _ _ H1). tauto.
Qed.

Lemma axisOk_not_finite (lo hi v : float) :
  is_finite lo = true -> is_finite hi = true ->
  is_finite v = false -> axisOk lo hi v = false.
Proof.
  intros Hlo Hhi Hv. apply not_true_is_false. rewrite axisOk_true. intros [H1 H2].
  destruct (FloatFacts.not_finite_cases v Hv) as [-> | [-> | ->]].
  - destruct (FloatFacts.leb_not_nan _ _ H1). discriminate.
  - (* hi is above infinity *)
    destruct (FloatFacts.leb_not_nan _ _ H2) as [_ Hn].
    assert (hi = infinity).
    { apply FloatFacts.not_below_infinity; [assumption |].
      destruct (hi <? infinity) eqn:E; [| reflexivity].
      apply FloatFacts.ltb_leb_false in E. congruence. }
    subst hi. discriminate.
  - destruct (FloatFacts.leb_not_nan _ _ H1) as [Hn _].
    assert (lo = neg_infinity).
    { apply FloatFacts.not_above_neg_infinity; [assumption |].
      destruct (neg_infinity <? lo) eqn:E; [| reflexivity].
      apply FloatFacts.ltb_leb_false in E. congruence. }
    subst lo. discriminate.
Qed.

Lemma axisOk_below (lo hi v : float) : (v <? lo) = true -> axisOk lo hi v = false.
Proof.
  intros H. unfold axisOk, JS.geb. rewrite (FloatFacts.ltb_leb_false _ _ H).
  now rewrite andb_false_r.
Qed.

Lemma axisOk_above (lo hi v : float) : (hi <? v) = true -> axisOk lo hi v = false.
Proof.
  intros H. unfold axisOk. rewrite (FloatFacts.ltb_leb_false _ _ H).
  now rewrite andb_false_r.
Qed.

Lemma landmarkOk_true (p : Landmark) : landmarkOk p = true <-> inValidRange p.
Proof.
  unfold landmarkOk, inValidRange. rewrite !andb_true_iff, !axisOk_true. tauto.
Qed.

Lemma validateLandmarks_rejects (landmarks : list Landmark) (p : Landmark) :
  In p landmarks -> landmarkOk p = false -> validateLandmarks landmarks = false.
Proof.
  intros Hin Hp. destruct landmarks as [| q rest]; [reflexivity |].
  unfold validateLandmarks. apply not_true_is_false. intros H.
  rewrite forallb_forall in H. specialize (H p Hin). congruence.
Qed.

Lemma validateLandmarks_accepts (landmarks : list Landmark) :
  landmarks <> [] -> (forall p, In p landmarks -> inValidRange p) ->
  validateLandmarks landmarks = true.
Proof.
  intros Hne Hall. destruct landmarks as [| q rest]; [congruence |].
  unfold validateLandmarks. apply forallb_forall. intros p Hp.
  apply landmarkOk_true, Hall, Hp.
Qed.

End CoordinatesFacts.

(** ** Rounding in binary64

    Bounds on the rounding error of the binary64 operations, derived from
    their specification: each operation on numbers returns, unless it
    overflows, a number within [err] of the exact result. *)

Module Rounding.
Import Binary64.
Local Open Scope Z_scope.

Lemma pow2_pos (e : Z) : (0 < pow2 e)%R.
Proof. apply powerRZ_lt. lra. Qed.

Lemma pow2_add (a b : Z) : pow2 (a + b) = (pow2 a * pow2 b)%R.
Proof. apply powerRZ_add. lra. Qed.

Lemma pow2_IZR (k : Z) : 0 <= k -> pow2 k = IZR (2 ^ k).
Proof.
  intros Hk. unfold pow2. destruct k as [| p | p]; [reflexivity | | lia].
  simpl. rewrite pow_IZR, positive_nat_Z. reflexivity.
Qed.

Lemma pow2_1 : pow2 1 = 2%R.
Proof. unfold pow2. simpl. lra. Qed.

Lemma pow2_ge_1 (k : Z) : 0 <= k -> (1 <= pow2 k)%R.
Proof.
  intros Hk. rewrite pow2_IZR by exact Hk. apply IZR_le.
  pose proof (Z.pow_pos_nonneg 2 k). lia.
Qed.

Lemma pow2_le (a b : Z) : a <= b -> (pow2 a <= pow2 b)%R.
Proof.
  intros H. replace b with (a + (b - a)) by lia. rewrite pow2_add.
  pose proof (pow2_pos a). pose proof (pow2_ge_1 (b - a) ltac:(lia)). nra.
Qed.

Lemma pow2_lt (a b : Z) : a < b -> (pow2 a < pow2 b)%R.
Proof.
  intros H. replace b with (a + (1 + (b - a - 1))) by lia. rewrite !pow2_add.
  pose proof (pow2_pos a). pose proof (pow2_ge_1 (b - a - 1) ltac:(lia)).
  rewrite pow2_1.
  assert (2 <= 2 * pow2 (b - a - 1))%R by lra. nra.
Qed.

Lemma pow2_lt_inv (a b : Z) : (pow2 a < pow2 b)%R -> a < b.
Proof.
  intros H. destruct (Z_lt_le_dec a b) as [Hlt | Hle]; [exact Hlt |].
  pose proof (pow2_le b a Hle). lra.
Qed.

Lemma pow2_neg (k : Z) : pow2 (- k) = (/ pow2 k)%R.
Proof. apply powerRZ_neg'. Qed.

(** The number of binary digits. *)
Lemma digits2_bounds (m : positive) :
  2 ^ (Zpos (digits2_pos m) - 1) <= Zpos m < 2 ^ Zpos (digits2_pos m).
Proof.
  induction m as [m IH | m IH |]; cbn [digits2_pos].
  - rewrite Pos2Z.inj_succ. change (Zpos m~1) with (2 * Zpos m + 1).
    replace (Z.succ (Zpos (digits2_pos m)) - 1)
      with (Z.succ (Zpos (digits2_pos m) - 1)) by lia.
    rewrite !Z.pow_succ_r by lia.
    set (lo := 2 ^ (Zpos (digits2_pos m) - 1)) in *.
    set (hi := 2 ^ Zpos (digits2_pos m)) in *. clearbody lo hi. lia.
  - rewrite Pos2Z.inj_succ. change (Zpos m~0) with (2 * Zpos m).
    replace (Z.succ (Zpos (digits2_pos m)) - 1)
      with (Z.succ (Zpos (digits2_pos m) - 1)) by lia.
    rewrite !Z.pow_succ_r by lia.
    set (lo := 2 ^ (Zpos (digits2_pos m) - 1)) in *.
    set (hi := 2 ^ Zpos (digits2_pos m)) in *. clearbody lo hi. lia.
  - simpl. lia.
Qed.

Lemma Zdigits2_nonneg (m : Z) : 0 <= Zdigits2 m.
Proof. destruct m; simpl; lia. Qed.

Lemma Zdigits2_pos (m : positive) : 1 <= Zdigits2 (Zpos m).
Proof. simpl. lia. Qed.

(** [m < 2^k] bounds the digits from above, [2^k <= m] from below. *)
Lemma Zdigits2_le (m k : Z) : 0 <= m -> 0 <= k -> m < 2 ^ k -> Zdigits2 m <= k.
Proof.
  intros Hm Hk Hlt. destruct m as [| p | p]; [simpl; lia | | lia].
  simpl. pose proof (digits2_bounds p) as [Hlo _].
  destruct (Z_le_gt_dec (Zpos (digits2_pos p)) k) as [H | H]; [exact H |].
  assert (2 ^ k <= 2 ^ (Zpos (digits2_pos p) - 1))
    by (apply Z.pow_le_mono_r; lia).
  lia.
Qed.

Lemma Zdigits2_gt (m k : Z) : 0 <= k -> 2 ^ k <= m -> k < Zdigits2 m.
Proof.
  intros Hk Hle.
  assert (0 < 2 ^ k) by (apply Z.pow_pos_nonneg; lia).
  destruct m as [| p | p]; [lia | | lia].
  simpl. pose proof (digits2_bounds p) as [_ Hhi].
  destruct (Z_lt_le_dec k (Zpos (digits2_pos p))) as [H' | H']; [exact H' |].
  assert (2 ^ Zpos (digits2_pos p) <= 2 ^ k)
    by (apply Z.pow_le_mono_r; lia).
  lia.
Qed.

Lemma Zdigits2_bounds (m : Z) :
  0 < m -> 2 ^ (Zdigits2 m - 1) <= m < 2 ^ Zdigits2 m.
Proof. destruct m as [| p | p]; try lia. intros _. apply digits2_bounds. Qed.

Lemma fexp_fexp64 (e : Z) : fexp prec emax e = fexp64 e.
Proof. reflexivity. Qed.

(** Shifting right. *)
Lemma shr_1_m (mrs : shr_record) :
  0 <= shr_m mrs -> shr_m (shr_1 mrs) = shr_m mrs / 2.
Proof.
  destruct mrs as [m r s]. cbn [shr_m]. intros Hm.
  rewrite <- Z.div2_div.
  destruct m as [| [p | p |] | p]; try reflexivity. lia.
Qed.

Lemma iter_shr_m (p : positive) :
  forall mrs, 0 <= shr_m mrs ->
    shr_m (SpecFloat.iter_pos shr_1 p mrs) = shr_m mrs / 2 ^ Zpos p.
Proof.
  induction p as [p IH | p IH |]; intros mrs Hm; cbn [SpecFloat.iter_pos].
  - assert (H1 : 0 <= shr_m (shr_1 mrs))
      by (rewrite shr_1_m by exact Hm; apply Z.div_pos; lia).
    assert (H2 : 0 <= shr_m (SpecFloat.iter_pos shr_1 p (shr_1 mrs)))
      by (rewrite IH by exact H1; apply Z.div_pos; [exact H1 |];
          apply Z.pow_pos_nonneg; lia).
    rewrite IH by exact H2. rewrite IH by exact H1. rewrite shr_1_m by exact Hm.
    assert (0 < 2 ^ Zpos p) by (apply Z.pow_pos_nonneg; lia).
    replace (Zpos p~1) with (1 + Zpos p + Zpos p) by lia.
    rewrite !Z.pow_add_r by lia. change (2 ^ 1) with 2.
    rewrite !Z.div_div by lia. f_equal. ring.
  - assert (H1 : 0 <= shr_m (SpecFloat.iter_pos shr_1 p mrs))
      by (rewrite IH by exact Hm; apply Z.div_pos; [exact Hm |];
          apply Z.pow_pos_nonneg; lia).
    rewrite IH by exact H1. rewrite IH by exact Hm.
    assert (0 < 2 ^ Zpos p) by (apply Z.pow_pos_nonneg; lia).
    rewrite Z.div_div by lia.
    rewrite Pos2Z.inj_xO. rewrite <- Z.pow_add_r by lia. f_equal. f_equal. lia.
  - rewrite shr_1_m by exact Hm. reflexivity.
Qed.


Lemma shr_record_of_loc_m (m : Z) (l : location) :
  shr_m (shr_record_of_loc m l) = m.
Proof. destruct l as [| []]; reflexivity. Qed.

Lemma shr_spec (mrs : shr_record) (e n : Z) :
  0 <= shr_m mrs ->
  exists mrs', shr mrs e n = (mrs', e + Z.max 0 n) /\
               shr_m mrs' = shr_m mrs / 2 ^ Z.max 0 n.
Proof.
  intros Hm. destruct n as [| p | p]; cbn [shr].
  - exists mrs. split; [f_equal; lia |]. simpl. now rewrite Z.div_1_r.
  - exists (SpecFloat.iter_pos shr_1 p mrs). split; [f_equal; lia |].
    replace (Z.max 0 (Zpos p)) with (Zpos p) by lia. apply iter_shr_m, Hm.
  - exists mrs. split; [f_equal; lia |].
    replace (Z.max 0 (Zneg p)) with 0 by lia. simpl. now rewrite Z.div_1_r.
Qed.

Lemma round_nearest_even_bounds (m : Z) (l : location) :
  m <= round_nearest_even m l <= m + 1.
Proof. destruct l as [| []]; simpl; try lia. destruct (Z.even m); lia. Qed.

Lemma scale_pow2 (m N e : Z) :
  0 <= N -> (IZR (m * 2 ^ N) * pow2 e = IZR m * pow2 (e + N))%R.
Proof.
  intros HN. rewrite mult_IZR, pow2_add, (pow2_IZR N) by exact HN. ring.
Qed.

(** Floor division brackets the dividend. *)
Lemma div_bracket (m N : Z) :
  0 <= N -> m / 2 ^ N * 2 ^ N <= m < (m / 2 ^ N + 1) * 2 ^ N.
Proof.
  intros HN. assert (Hp : 0 < 2 ^ N) by (apply Z.pow_pos_nonneg; lia).
  pose proof (Z.div_mod m (2 ^ N) ltac:(lia)) as Hdm.
  pose proof (Z.mod_pos_bound m (2 ^ N) Hp) as Hr.
  set (q := m / 2 ^ N) in *. set (r := m mod 2 ^ N) in *.
  set (P := 2 ^ N) in *. clearbody q r P. nia.
Qed.

(** What [binary_round_aux] returns for a magnitude [x] that lies between
    [mx 2^ex] and [(mx + 1) 2^ex]: a zero or a finite number of the sign
    asked for, within [2^-51 x + 2^-1073] of [x], and not above any power
    of two that [x] is below. *)
Lemma round_aux_bound (sx : bool) (mx ex : Z) (lx : location) (x : R) :
  0 <= mx ->
  ex <= fexp64 (Zdigits2 mx + ex) ->
  (IZR mx * pow2 ex <= x < (IZR mx + 1) * pow2 ex)%R ->
  (x < maxval)%R ->
  exists v : R,
    ((binary_round_aux prec emax sx mx ex lx = S754_zero sx /\ v = 0%R) \/
     (exists m e,
        binary_round_aux prec emax sx mx ex lx = S754_finite sx m e /\
        v = (IZR (Zpos m) * pow2 e)%R)) /\
    (Rabs (v - x) <= pow2 (-51) * x + pow2 (-1073))%R /\
    (forall k, -1074 <= k -> (x < pow2 k)%R -> (v <= pow2 k)%R).
Proof.
  intros Hmx Hex [Hlo Hhi] Hmax.
  set (e1 := fexp64 (Zdigits2 mx + ex)) in *.
  set (N1 := e1 - ex).
  assert (HN1 : 0 <= N1) by (unfold N1; lia).
  assert (He1min : -1074 <= e1) by (unfold e1, fexp64; lia).
  unfold binary_round_aux, shr_fexp.
  change (fexp prec emax (Zdigits2 mx + ex)) with e1. fold N1.
  destruct (shr_spec (shr_record_of_loc mx lx) ex N1) as (mrs1 & -> & Hm1).
  { rewrite shr_record_of_loc_m. exact Hmx. }
  rewrite shr_record_of_loc_m in Hm1.
  replace (Z.max 0 N1) with N1 in * by lia.
  replace (ex + N1) with e1 by (unfold N1; lia).
  set (m' := shr_m mrs1) in *.
  pose proof (div_bracket mx N1 HN1) as [Hb1 Hb2]. rewrite <- Hm1 in Hb1, Hb2.
  assert (Hm'0 : 0 <= m').
  { rewrite Hm1. apply Z.div_pos; [exact Hmx | apply Z.pow_pos_nonneg; lia]. }
  (* the magnitude lies between m' 2^e1 and (m'+1) 2^e1 *)
  assert (Hpe : pow2 e1 = (IZR (2 ^ N1) * pow2 ex)%R).
  { replace e1 with (N1 + ex) by (unfold N1; lia).
    rewrite pow2_add, (pow2_IZR N1) by exact HN1. reflexivity. }
  pose proof (pow2_pos ex) as Hpex. pose proof (pow2_pos e1) as Hpe1.
  assert (Hx1 : (IZR m' * pow2 e1 <= x)%R).
  { rewrite Hpe, <- Rmult_assoc, <- mult_IZR.
    apply Rle_trans with (IZR mx * pow2 ex)%R; [| exact Hlo].
    apply Rmult_le_compat_r; [lra | apply IZR_le, Hb1]. }
  assert (Hx2 : (x < (IZR m' + 1) * pow2 e1)%R).
  { apply Rlt_le_trans with ((IZR mx + 1) * pow2 ex)%R; [exact Hhi |].
    rewrite Hpe, <- Rmult_assoc. apply Rmult_le_compat_r; [lra |].
    rewrite <- (plus_IZR m' 1), <- (plus_IZR mx 1), <- mult_IZR.
    apply IZR_le. lia. }
  (* digits *)
  assert (Hcases : e1 = -1074 \/ (e1 = Zdigits2 mx + ex - 53 /\ 0 < mx)).
  { unfold e1, fexp64 in *.
    destruct (Z.max_spec (Zdigits2 mx + ex - 53) (-1074)) as [[_ E] | [_ E]];
      [left; exact E | right].
    split; [exact E |]. destruct mx as [| p | p]; [simpl in *; lia | lia | lia]. }
  assert (Hm'53 : m' < 2 ^ 53).
  { rewrite Hm1.
    assert (HP : 0 < 2 ^ N1) by (apply Z.pow_pos_nonneg; lia).
    apply Z.div_lt_upper_bound; [exact HP |].
    rewrite <- Z.pow_add_r by lia.
    destruct (Z.eq_dec mx 0) as [-> | Hne];
      [apply Z.pow_pos_nonneg; lia |].
    pose proof (Zdigits2_bounds mx ltac:(lia)) as [_ Hhi'].
    apply Z.lt_le_trans with (2 ^ Zdigits2 mx); [exact Hhi' |].
    apply Z.pow_le_mono_r; [lia |].
    unfold N1, e1, fexp64. lia. }
  assert (Hulp : (pow2 e1 <= pow2 (-52) * x + pow2 (-1074))%R).
  { pose proof (pow2_pos (-52)). pose proof (pow2_pos (-1074)).
    assert (0 <= x)%R.
    { apply Rle_trans with (IZR m' * pow2 e1)%R; [| exact Hx1].
      apply Rmult_le_pos; [apply IZR_le; lia | lra]. }
    destruct Hcases as [E | [E Hpos]].
    - rewrite E. nra.
    - assert (Hm'52 : 2 ^ 52 <= m').
      { rewrite Hm1. apply Z.div_le_lower_bound;
          [apply Z.pow_pos_nonneg; lia |].
        rewrite <- Z.pow_add_r by lia.
        pose proof (Zdigits2_bounds mx Hpos) as [Hlo' _].
        replace (N1 + 52) with (Zdigits2 mx - 1) by (unfold N1; lia).
        exact Hlo'. }
      assert (pow2 52 * pow2 e1 <= x)%R.
      { apply Rle_trans with (IZR m' * pow2 e1)%R; [| exact Hx1].
        apply Rmult_le_compat_r; [lra |]. rewrite pow2_IZR by lia.
        apply IZR_le, Hm'52. }
      assert (pow2 (-52) * pow2 52 = 1)%R
        by (rewrite <- pow2_add; reflexivity).
      assert (pow2 e1 = pow2 (-52) * (pow2 52 * pow2 e1))%R
        by (rewrite <- Rmult_assoc; rewrite H3; ring).
      nra. }
  (* rounding *)
  set (m1 := round_nearest_even m' (loc_of_shr_record mrs1)).
  pose proof (round_nearest_even_bounds m' (loc_of_shr_record mrs1)) as Hm1b.
  fold m1 in Hm1b.
  set (N2 := fexp prec emax (Zdigits2 m1 + e1) - e1).
  destruct (shr_spec (shr_record_of_loc m1 loc_Exact) e1 N2) as (mrs2 & -> & Hm2).
  { rewrite shr_record_of_loc_m. lia. }
  rewrite shr_record_of_loc_m in Hm2.
  assert (Hd1 : Zdigits2 m1 <= 54).
  { apply Zdigits2_le; [lia | lia |].
    apply Z.le_lt_trans with (2 ^ 53); [lia |].
    apply Z.pow_lt_mono_r; lia. }
  assert (HN2 : Z.max 0 N2 = 0 \/ (Z.max 0 N2 = 1 /\ 2 ^ 53 <= m1)).
  { unfold N2. change (fexp prec emax (Zdigits2 m1 + e1))
      with (fexp64 (Zdigits2 m1 + e1)). unfold fexp64.
    destruct (Z_le_gt_dec (Zdigits2 m1) 53) as [H53 | H53]; [left; lia |].
    right. split; [lia |].
    destruct (Z_lt_le_dec m1 (2 ^ 53)) as [Hlt | Hge]; [| exact Hge].
    pose proof (Zdigits2_le m1 53 ltac:(lia) ltac:(lia) Hlt). lia. }
  set (m2 := shr_m mrs2) in *.
  assert (Hm2b : 0 <= m2 /\
                 (IZR m1 - 1 <= IZR m2 * pow2 (Z.max 0 N2) <= IZR m1)%R /\
                 (Z.max 0 N2 = 1 -> m1 = 2 ^ 53 /\ m2 = 2 ^ 52)).
  { destruct HN2 as [E | [E Hge]]; rewrite E in *.
    - simpl in Hm2. rewrite Z.div_1_r in Hm2. rewrite Hm2.
      split; [lia |]. split; [| lia].
      unfold pow2. simpl. lra.
    - assert (m1 = 2 ^ 53) by lia.
      assert (m2 = 2 ^ 52) by (rewrite Hm2, H; reflexivity).
      split; [lia |]. split; [| tauto].
      rewrite pow2_1, H0, H. 
      replace (IZR (2 ^ 52) * 2)%R with (IZR (2 ^ 52 * 2)) by (rewrite mult_IZR; reflexivity).
      change (2 ^ 52 * 2) with (2 ^ 53). lra. }
  destruct Hm2b as (Hm20 & Hm2v & Hcarry).
  set (v := (IZR m2 * pow2 (e1 + Z.max 0 N2))%R).
  assert (Hv : (IZR m1 * pow2 e1 - pow2 e1 <= v <= IZR m1 * pow2 e1)%R).
  { unfold v. rewrite pow2_add, (Rmult_comm (pow2 e1)), <- Rmult_assoc.
    destruct Hm2v as [A B].
    split.
    - replace (IZR m1 * pow2 e1 - pow2 e1)%R with ((IZR m1 - 1) * pow2 e1)%R by ring.
      apply Rmult_le_compat_r; [lra | exact A].
    - apply Rmult_le_compat_r; [lra | exact B]. }
  assert (Hm1R : (IZR m' <= IZR m1 <= IZR m' + 1)%R).
  { split; [apply IZR_le; lia |]. rewrite <- (plus_IZR m' 1). apply IZR_le. lia. }
  assert (Hverr : (Rabs (v - x) <= 2 * pow2 e1)%R).
  { apply Rabs_le. destruct Hv as [A B]. destruct Hm1R as [C D]. split; nra. }
  (* no overflow *)
  assert (Hnoover : m2 <> 0 -> e1 + Z.max 0 N2 <= 971).
  { intros _.
    destruct Hcases as [E | [E Hpos]]; [destruct HN2 as [E2 | [E2 _]]; lia |].
    assert (Hmag : (pow2 (Zdigits2 mx - 1 + ex) <= x)%R).
    { apply Rle_trans with (IZR mx * pow2 ex)%R; [| exact Hlo].
      rewrite pow2_add. apply Rmult_le_compat_r; [lra |].
      pose proof (Zdigits2_bounds mx Hpos) as [Hlo' _].
      pose proof (Zdigits2_gt mx 0 ltac:(lia) ltac:(simpl; lia)).
      rewrite pow2_IZR by lia. apply IZR_le, Hlo'. }
    assert (Hmv : (maxval < pow2 1024)%R).
    { unfold maxval. replace 1024 with (53 + 971) by lia. rewrite pow2_add.
      apply Rmult_lt_compat_r; [apply pow2_pos |].
      rewrite pow2_IZR by lia. apply IZR_lt. lia. }
    assert (Zdigits2 mx - 1 + ex < 1024) by (apply pow2_lt_inv; lra).
    destruct (Z_le_gt_dec e1 970) as [Hs | Hs];
      [destruct HN2 as [E2 | [E2 _]]; lia |].
    assert (E971 : e1 = 971) by lia.
    destruct HN2 as [E2 | [E2 Hge]]; [lia |].
    exfalso.
    (* m' 2^971 <= x < maxval forces m' <= 2^53 - 2 *)
    assert (IZR m' < IZR (2 ^ 53 - 1))%R.
    { unfold maxval in Hmax. rewrite E971 in Hx1.
      pose proof (pow2_pos 971).
      apply Rmult_lt_reg_r with (pow2 971); [lra |]. lra. }
    apply lt_IZR in H0. lia. }
  exists v. split; [| split].
  - destruct m2 as [| p | p] eqn:Em2; [left | right | lia].
    + split; [reflexivity |]. unfold v. try rewrite Em2. simpl. ring.
    + exists p, (e1 + Z.max 0 N2). 
      replace (Z.leb (e1 + Z.max 0 N2) (Z.sub emax prec)) with true.
      * split; [reflexivity |]. unfold v. try rewrite Em2. reflexivity.
      * symmetry. apply Z.leb_le. change (Z.sub emax prec) with 971.
        apply Hnoover. lia.
  - apply Rle_trans with (2 * pow2 e1)%R; [exact Hverr |].
    replace (pow2 (-51)) with (2 * pow2 (-52))%R
      by (rewrite <- pow2_1, <- pow2_add; reflexivity).
    replace (pow2 (-1073)) with (2 * pow2 (-1074))%R
      by (rewrite <- pow2_1, <- pow2_add; reflexivity).
    lra.
  - intros k Hk Hxk.
    assert (Hek : e1 <= k).
    { destruct Hcases as [E | [E Hpos]]; [lia |].
      assert (Hmag : (pow2 (Zdigits2 mx - 1 + ex) <= x)%R).
      { apply Rle_trans with (IZR mx * pow2 ex)%R; [| exact Hlo].
        rewrite pow2_add. apply Rmult_le_compat_r; [lra |].
        pose proof (Zdigits2_bounds mx Hpos) as [Hlo' _].
        pose proof (Zdigits2_gt mx 0 ltac:(lia) ltac:(simpl; lia)).
        rewrite pow2_IZR by lia. apply IZR_le, Hlo'. }
      assert (Zdigits2 mx - 1 + ex < k) by (apply pow2_lt_inv; lra).
      lia. }
    apply Rle_trans with (IZR m1 * pow2 e1)%R; [apply Hv |].
    replace k with (e1 + (k - e1)) in * by lia.
    rewrite pow2_add in *. rewrite (pow2_IZR (k - e1)) in * by lia.
    rewrite (Rmult_comm (pow2 e1)). apply Rmult_le_compat_r; [lra |].
    apply IZR_le.
    assert (IZR m' < IZR (2 ^ (k - e1)))%R.
    { apply Rmult_lt_reg_r with (pow2 e1); [lra |]. lra. }
    apply lt_IZR in H. lia.
Qed.


Lemma mantissa_pos (m : positive) (e : Z) : (0 < IZR (Zpos m) * pow2 e)%R.
Proof.
  apply Rmult_lt_0_compat; [apply IZR_lt; lia | apply pow2_pos].
Qed.

Lemma valid_finite (s : bool) (m : positive) (e : Z) :
  valid_binary (S754_finite s m e) = true ->
  fexp64 (Zdigits2 (Zpos m) + e) = e /\ e <= 971.
Proof.
  cbn [SpecFloat.valid_binary]. unfold bounded, canonical_mantissa.
  intros H. apply andb_true_iff in H. destruct H as [H1 H2].
  apply Z.eqb_eq in H1. apply Z.leb_le in H2.
  split; [exact H1 | exact H2].
Qed.

Lemma canonical_digits (m : positive) (e : Z) :
  fexp64 (Zdigits2 (Zpos m) + e) = e ->
  -1074 <= e /\ 1 <= Zdigits2 (Zpos m) <= 53 /\ Zpos m < 2 ^ 53 /\
  (-1074 < e -> Zdigits2 (Zpos m) = 53 /\ 2 ^ 52 <= Zpos m).
Proof.
  intros H. unfold fexp64 in H.
  pose proof (Zdigits2_bounds (Zpos m) ltac:(lia)) as [Hlo Hhi].
  assert (1 <= Zdigits2 (Zpos m)) by (simpl; lia).
  assert (Zdigits2 (Zpos m) <= 53) by lia.
  split; [lia |]. split; [lia |]. split.
  - apply Z.lt_le_trans with (2 ^ Zdigits2 (Zpos m)); [exact Hhi |].
    apply Z.pow_le_mono_r; lia.
  - intros He. assert (E : Zdigits2 (Zpos m) = 53) by lia.
    split; [exact E |]. rewrite E in Hlo. exact Hlo.
Qed.

(** The signed form of [round_aux_bound]. *)
Lemma round_aux_signed (sx : bool) (mx ex : Z) (lx : location) (x t : R) :
  0 <= mx ->
  ex <= fexp64 (Zdigits2 mx + ex) ->
  (IZR mx * pow2 ex <= x < (IZR mx + 1) * pow2 ex)%R ->
  (x < maxval)%R ->
  t = (if sx then - x else x)%R ->
  let r := binary_round_aux prec emax sx mx ex lx in
  SFnumber r = true /\
  (Rabs (SF2R r - t) <= err x)%R /\
  (forall k, -1074 <= k -> (x < pow2 k)%R -> (Rabs (SF2R r) <= pow2 k)%R).
Proof.
  intros Hmx Hex Hx Hmax -> r.
  destruct (round_aux_bound sx mx ex lx x Hmx Hex Hx Hmax)
    as (v & Hshape & Herr & Hcap).
  assert (Hr : SFnumber r = true /\ (0 <= v)%R /\
               SF2R r = (if sx then - v else v)%R).
  { destruct Hshape as [[E ->] | (m & e & E & ->)]; subst r; rewrite E.
    - split; [reflexivity |]. split; [lra |]. simpl. destruct sx; lra.
    - split; [reflexivity |]. pose proof (mantissa_pos m e).
      split; [lra |]. simpl. destruct sx; reflexivity. }
  destruct Hr as (Hnum & Hv0 & Hval).
  split; [exact Hnum |]. rewrite Hval. unfold err. split.
  - destruct sx.
    + replace (- v - - x)%R with (- (v - x))%R by ring. rewrite Rabs_Ropp.
      exact Herr.
    + exact Herr.
  - intros k Hk Hxk. specialize (Hcap k Hk Hxk).
    destruct sx; [rewrite Rabs_Ropp |]; rewrite Rabs_pos_eq; lra.
Qed.

(** *** Multiplication *)

Lemma SFmul_bound (a b : spec_float) :
  valid_binary a = true -> valid_binary b = true ->
  SFnumber a = true -> SFnumber b = true ->
  (Rabs (SF2R a * SF2R b) < maxval)%R ->
  SFnumber (SFmul prec emax a b) = true /\
  (Rabs (SF2R (SFmul prec emax a b) - SF2R a * SF2R b)
   <= err (Rabs (SF2R a * SF2R b)))%R /\
  (forall k, -1074 <= k -> (Rabs (SF2R a * SF2R b) < pow2 k)%R ->
             (Rabs (SF2R (SFmul prec emax a b)) <= pow2 k)%R).
Proof.
  intros Va Vb Na Nb Hmax.
  assert (Herr0 : (0 <= err 0)%R).
  { unfold err. pose proof (pow2_pos (-1073)). lra. }
  assert (Hzero : forall s, (SF2R a * SF2R b = 0)%R ->
            SFmul prec emax a b = S754_zero s ->
            SFnumber (SFmul prec emax a b) = true /\
            (Rabs (SF2R (SFmul prec emax a b) - SF2R a * SF2R b)
             <= err (Rabs (SF2R a * SF2R b)))%R /\
            (forall k, -1074 <= k -> (Rabs (SF2R a * SF2R b) < pow2 k)%R ->
                       (Rabs (SF2R (SFmul prec emax a b)) <= pow2 k)%R)).
  { intros s E0 ->. rewrite E0. simpl. rewrite Rminus_0_r, Rabs_R0.
    split; [reflexivity |]. split; [exact Herr0 |].
    intros k _ _. pose proof (pow2_pos k). lra. }
  destruct a as [sa | sa | | sa ma ea]; try discriminate;
    destruct b as [sb | sb | | sb mb eb]; try discriminate.
  - apply (Hzero (xorb sa sb)); [simpl; ring | reflexivity].
  - apply (Hzero (xorb sa sb)); [simpl; ring | reflexivity].
  - apply (Hzero (xorb sa sb)); [simpl; ring | reflexivity].
  - destruct (valid_finite _ _ _ Va) as [Ca _].
    destruct (valid_finite _ _ _ Vb) as [Cb _].
    destruct (canonical_digits _ _ Ca) as (Ha1 & Ha2 & Ha3 & Ha4).
    destruct (canonical_digits _ _ Cb) as (Hb1 & Hb2 & Hb3 & Hb4).
    set (x := (IZR (Zpos (ma * mb)) * pow2 (ea + eb))%R).
    assert (Hprod : (IZR (Zpos ma) * pow2 ea * (IZR (Zpos mb) * pow2 eb) = x)%R).
    { unfold x. rewrite Pos2Z.inj_mul, mult_IZR, pow2_add. ring. }
    assert (Hxpos : (0 < x)%R) by apply mantissa_pos.
    assert (Habs : Rabs (SF2R (S754_finite sa ma ea) * SF2R (S754_finite sb mb eb)) = x).
    { simpl. destruct sa, sb; rewrite <- Hprod;
        [ replace (- (IZR (Zpos ma) * pow2 ea) * - (IZR (Zpos mb) * pow2 eb))%R
            with (IZR (Zpos ma) * pow2 ea * (IZR (Zpos mb) * pow2 eb))%R by ring
        | replace (- (IZR (Zpos ma) * pow2 ea) * (IZR (Zpos mb) * pow2 eb))%R
            with (- (IZR (Zpos ma) * pow2 ea * (IZR (Zpos mb) * pow2 eb)))%R by ring;
          rewrite Rabs_Ropp
        | replace (IZR (Zpos ma) * pow2 ea * - (IZR (Zpos mb) * pow2 eb))%R
            with (- (IZR (Zpos ma) * pow2 ea * (IZR (Zpos mb) * pow2 eb)))%R by ring;
          rewrite Rabs_Ropp
        | ];
        rewrite Hprod; apply Rabs_pos_eq; lra. }
    rewrite Habs in *.
    cbn [SFmul].
    apply (round_aux_signed (xorb sa sb) (Zpos (ma * mb)) (ea + eb) loc_Exact x).
    + lia.
    + (* the product has at least da + db - 1 digits *)
      pose proof (Zdigits2_bounds (Zpos ma) ltac:(lia)) as [La _].
      pose proof (Zdigits2_bounds (Zpos mb) ltac:(lia)) as [Lb _].
      assert (Hd : Zdigits2 (Zpos ma) + Zdigits2 (Zpos mb) - 2
                   < Zdigits2 (Zpos (ma * mb))).
      { apply Zdigits2_gt; [lia |].
        replace (Zdigits2 (Zpos ma) + Zdigits2 (Zpos mb) - 2)
          with ((Zdigits2 (Zpos ma) - 1) + (Zdigits2 (Zpos mb) - 1)) by lia.
        rewrite Z.pow_add_r by lia. rewrite Pos2Z.inj_mul.
        apply Z.mul_le_mono_nonneg; try lia;
          apply Z.pow_nonneg; lia. }
      unfold fexp64 in *. lia.
    + unfold x. split; [lra |].
      pose proof (pow2_pos (ea + eb)). nra.
    + exact Hmax.
    + simpl. rewrite <- Hprod. destruct sa, sb; simpl; ring.
Qed.


(** *** Addition and subtraction *)

Lemma iter_xO (m d : positive) : Zpos (Pos.iter xO m d) = Zpos m * 2 ^ Zpos d.
Proof.
  induction d as [| d IH] using Pos.peano_ind.
  - simpl. lia.
  - rewrite Pos.iter_succ, Pos2Z.inj_succ, Z.pow_succ_r by lia.
    change (Zpos (Pos.iter xO m d)~0) with (2 * Zpos (Pos.iter xO m d)).
    rewrite IH. ring.
Qed.

Lemma shl_align_spec (mx : positive) (ex e' : Z) :
  snd (shl_align mx ex e') = Z.min ex e' /\
  Zpos (fst (shl_align mx ex e')) = Zpos mx * 2 ^ (ex - Z.min ex e').
Proof.
  unfold shl_align. destruct (e' - ex) as [| d | d] eqn:E; cbn [fst snd].
  - split; [lia |]. replace (ex - Z.min ex e') with 0 by lia. simpl. lia.
  - split; [lia |]. replace (ex - Z.min ex e') with 0 by lia. simpl. lia.
  - split; [lia |]. rewrite iter_xO. f_equal. f_equal. lia.
Qed.

Lemma binary_round_bound (sx : bool) (m : positive) (e : Z) (t : R) :
  (IZR (Zpos m) * pow2 e < maxval)%R ->
  t = (if sx then - (IZR (Zpos m) * pow2 e) else IZR (Zpos m) * pow2 e)%R ->
  let r := binary_round prec emax sx m e in
  SFnumber r = true /\
  (Rabs (SF2R r - t) <= err (IZR (Zpos m) * pow2 e))%R /\
  (forall k, -1074 <= k -> (IZR (Zpos m) * pow2 e < pow2 k)%R ->
             (Rabs (SF2R r) <= pow2 k)%R).
Proof.
  intros Hmax Ht. unfold binary_round.
  pose proof (shl_align_spec m e (fexp prec emax (Zpos (digits2_pos m) + e)))
    as [Hez Hmz].
  destruct (shl_align m e (fexp prec emax (Zpos (digits2_pos m) + e)))
    as [mz ez]. cbn [fst snd] in Hez, Hmz.
  change (fexp prec emax (Zpos (digits2_pos m) + e))
    with (fexp64 (Zdigits2 (Zpos m) + e)) in Hez, Hmz.
  rewrite <- Hez in Hmz.
  assert (Hle : ez <= e) by lia.
  assert (Hval : (IZR (Zpos mz) * pow2 ez = IZR (Zpos m) * pow2 e)%R).
  { rewrite Hmz, scale_pow2 by lia. f_equal. f_equal. lia. }
  rewrite <- Hval in *.
  apply round_aux_signed.
  - lia.
  - pose proof (Zdigits2_bounds (Zpos m) ltac:(lia)) as [Lm _].
    assert (Hd : Zdigits2 (Zpos m) - 1 + (e - ez) < Zdigits2 (Zpos mz)).
    { pose proof (Zdigits2_pos m).
      apply Zdigits2_gt; [lia |].
      rewrite Z.pow_add_r by lia. rewrite Hmz.
      apply Z.mul_le_mono_nonneg_r; [apply Z.pow_nonneg; lia | exact Lm]. }
    unfold fexp64 in *. lia.
  - pose proof (pow2_pos ez). split; [lra | nra].
  - exact Hmax.
  - exact Ht.
Qed.

Lemma binary_normalize_bound (M e : Z) (szero : bool) :
  (Rabs (IZR M * pow2 e) < maxval)%R ->
  let r := binary_normalize prec emax M e szero in
  SFnumber r = true /\
  (Rabs (SF2R r - IZR M * pow2 e) <= err (Rabs (IZR M * pow2 e)))%R /\
  (forall k, -1074 <= k -> (Rabs (IZR M * pow2 e) < pow2 k)%R ->
             (Rabs (SF2R r) <= pow2 k)%R).
Proof.
  intros Hmax. destruct M as [| p | p]; cbn [binary_normalize].
  - simpl. rewrite Rmult_0_l, Rminus_0_r, Rabs_R0.
    split; [reflexivity |]. split.
    + unfold err. pose proof (pow2_pos (-1073)). lra.
    + intros k _ _. pose proof (pow2_pos k). lra.
  - pose proof (mantissa_pos p e) as Hp.
    rewrite (Rabs_pos_eq (IZR (Zpos p) * pow2 e)) in * by lra.
    apply binary_round_bound; [exact Hmax | reflexivity].
  - pose proof (mantissa_pos p e) as Hp.
    assert (E : (IZR (Zneg p) * pow2 e = - (IZR (Zpos p) * pow2 e))%R).
    { change (Zneg p) with (- Zpos p). rewrite opp_IZR. ring. }
    rewrite E in *. rewrite Rabs_Ropp in *.
    rewrite (Rabs_pos_eq (IZR (Zpos p) * pow2 e)) in * by lra.
    apply binary_round_bound; [exact Hmax | reflexivity].
Qed.

Lemma cond_Zopp_IZR (s : bool) (m : positive) (e ez : Z) :
  ez <= e ->
  (IZR (cond_Zopp s (Zpos (fst (shl_align m e ez)))) * pow2 ez
   = SF2R (S754_finite s m e))%R.
Proof.
  intros Hle. destruct (shl_align_spec m e ez) as [_ Hm].
  replace (Z.min e ez) with ez in Hm by lia.
  assert (E : (IZR (Zpos (fst (shl_align m e ez))) * pow2 ez
               = IZR (Zpos m) * pow2 e)%R).
  { rewrite Hm, scale_pow2 by lia. f_equal. f_equal. lia. }
  destruct s; cbn [cond_Zopp SF2R].
  - rewrite opp_IZR, <- E. ring.
  - exact E.
Qed.

Lemma exact_bound (r : spec_float) (t : R) :
  SFnumber r = true -> SF2R r = t ->
  SFnumber r = true /\
  (Rabs (SF2R r - t) <= err (Rabs t))%R /\
  (forall k, -1074 <= k -> (Rabs t < pow2 k)%R -> (Rabs (SF2R r) <= pow2 k)%R).
Proof.
  intros Hn <-. split; [exact Hn |]. split.
  - replace (SF2R r - SF2R r)%R with 0%R by ring. rewrite Rabs_R0.
    unfold err. pose proof (pow2_pos (-51)). pose proof (pow2_pos (-1073)).
    pose proof (Rabs_pos (SF2R r)). nra.
  - intros k _ H. lra.
Qed.

Lemma SFadd_bound (a b : spec_float) :
  SFnumber a = true -> SFnumber b = true ->
  (Rabs (SF2R a + SF2R b) < maxval)%R ->
  SFnumber (SFadd prec emax a b) = true /\
  (Rabs (SF2R (SFadd prec emax a b) - (SF2R a + SF2R b))
   <= err (Rabs (SF2R a + SF2R b)))%R /\
  (forall k, -1074 <= k -> (Rabs (SF2R a + SF2R b) < pow2 k)%R ->
             (Rabs (SF2R (SFadd prec emax a b)) <= pow2 k)%R).
Proof.
  intros Na Nb Hmax.
  destruct a as [sa | sa | | sa ma ea]; try discriminate;
    destruct b as [sb | sb | | sb mb eb]; try discriminate.
  - apply exact_bound; destruct sa, sb; simpl; try reflexivity; ring.
  - apply exact_bound; [reflexivity | simpl; ring].
  - apply exact_bound; [reflexivity | simpl; ring].
  - cbn [SFadd].
    assert (E : (IZR (cond_Zopp sa (Zpos (fst (shl_align ma ea (Z.min ea eb)))) +
                      cond_Zopp sb (Zpos (fst (shl_align mb eb (Z.min ea eb)))))
                 * pow2 (Z.min ea eb)
                 = SF2R (S754_finite sa ma ea) + SF2R (S754_finite sb mb eb))%R).
    { rewrite plus_IZR, Rmult_plus_distr_r, !cond_Zopp_IZR by lia. reflexivity. }
    rewrite <- E in *. apply binary_normalize_bound. exact Hmax.
Qed.

Lemma SFsub_bound (a b : spec_float) :
  SFnumber a = true -> SFnumber b = true ->
  (Rabs (SF2R a - SF2R b) < maxval)%R ->
  SFnumber (SFsub prec emax a b) = true /\
  (Rabs (SF2R (SFsub prec emax a b) - (SF2R a - SF2R b))
   <= err (Rabs (SF2R a - SF2R b)))%R /\
  (forall k, -1074 <= k -> (Rabs (SF2R a - SF2R b) < pow2 k)%R ->
             (Rabs (SF2R (SFsub prec emax a b)) <= pow2 k)%R).
Proof.
  intros Na Nb Hmax.
  destruct a as [sa | sa | | sa ma ea]; try discriminate;
    destruct b as [sb | sb | | sb mb eb]; try discriminate.
  - apply exact_bound; destruct sa, sb; simpl; try reflexivity; ring.
  - apply exact_bound; [reflexivity | destruct sb; simpl; ring].
  - apply exact_bound; [reflexivity | simpl; ring].
  - cbn [SFsub].
    assert (E : (IZR (cond_Zopp sa (Zpos (fst (shl_align ma ea (Z.min ea eb)))) -
                      cond_Zopp sb (Zpos (fst (shl_align mb eb (Z.min ea eb)))))
                 * pow2 (Z.min ea eb)
                 = SF2R (S754_finite sa ma ea) - SF2R (S754_finite sb mb eb))%R).
    { rewrite minus_IZR. unfold Rminus.
      rewrite Rmult_plus_distr_r, Ropp_mult_distr_l_reverse,
        !cond_Zopp_IZR by lia. reflexivity. }
    rewrite <- E in *. apply binary_normalize_bound. exact Hmax.
Qed.


(** *** Division *)

Lemma SFdiv_bound (a b : spec_float) :
  SFnumber a = true -> SFnumber b = true ->
  SF2R b <> 0%R ->
  (Rabs (SF2R a / SF2R b) < maxval)%R ->
  SFnumber (SFdiv prec emax a b) = true /\
  (Rabs (SF2R (SFdiv prec emax a b) - SF2R a / SF2R b)
   <= err (Rabs (SF2R a / SF2R b)))%R /\
  (forall k, -1074 <= k -> (Rabs (SF2R a / SF2R b) < pow2 k)%R ->
             (Rabs (SF2R (SFdiv prec emax a b)) <= pow2 k)%R).
Proof.
  intros Na Nb Hb Hmax.
  destruct b as [sb | sb | | sb mb eb]; try discriminate;
    [simpl in Hb; lra |].
  destruct a as [sa | sa | | sa ma ea]; try discriminate.
  - apply exact_bound; [reflexivity |]. simpl. unfold Rdiv. ring.
  - cbn [SFdiv]. unfold SFdiv_core_binary.
    change (fexp prec emax
              (Zdigits2 (Zpos ma) + ea - (Zdigits2 (Zpos mb) + eb)))
      with (fexp64 (Zdigits2 (Zpos ma) + ea - (Zdigits2 (Zpos mb) + eb))).
    set (D := Zdigits2 (Zpos ma) + ea - (Zdigits2 (Zpos mb) + eb)).
    set (e' := Z.min (fexp64 D) (ea - eb)).
    set (sh := ea - eb - e').
    assert (Hsh : 0 <= sh) by (unfold sh, e'; lia).
    set (m' := match sh with
               | 0 => Zpos ma
               | Zpos _ => Z.shiftl (Zpos ma) sh
               | Zneg _ => 0
               end).
    assert (Hm' : m' = Zpos ma * 2 ^ sh).
    { unfold m'. destruct sh as [| p | p] eqn:Es; [simpl; lia | | lia].
      apply Z.shiftl_mul_pow2. lia. }
    assert (Hq : Z.div_eucl m' (Zpos mb) = (m' / Zpos mb, m' mod Zpos mb)).
    { unfold Z.div, Z.modulo. destruct (Z.div_eucl m' (Zpos mb)); reflexivity. }
    rewrite Hq.
    set (q := m' / Zpos mb).
    pose proof (Z.div_mod m' (Zpos mb) ltac:(lia)) as Hdm.
    pose proof (Z.mod_pos_bound m' (Zpos mb) ltac:(lia)) as Hr.
    fold q in Hdm.
    assert (Hp2 : 0 < 2 ^ sh) by (apply Z.pow_pos_nonneg; lia).
    assert (Hm'0 : 0 < m') by (rewrite Hm'; lia).
    assert (Hq0 : 0 <= q) by (apply Z.div_pos; lia).
    pose proof (mantissa_pos ma ea) as Hpa.
    pose proof (mantissa_pos mb eb) as Hpb.
    set (x := (IZR (Zpos ma) * pow2 ea / (IZR (Zpos mb) * pow2 eb))%R).
    assert (Hxpos : (0 < x)%R) by (apply Rdiv_lt_0_compat; lra).
    assert (Hxq : (x = IZR m' / IZR (Zpos mb) * pow2 e')%R).
    { unfold x. rewrite Hm', mult_IZR, <- (pow2_IZR sh) by exact Hsh.
      replace ea with (sh + (e' + eb)) by (unfold sh; lia).
      rewrite !pow2_add.
      pose proof (pow2_pos eb). pose proof (pow2_pos e').
      pose proof (pow2_pos sh).
      assert (0 < IZR (Zpos mb))%R by (apply IZR_lt; lia).
      field. lra. }
    assert (Habs : Rabs (SF2R (S754_finite sa ma ea) / SF2R (S754_finite sb mb eb)) = x).
    { assert (E : (SF2R (S754_finite sa ma ea) / SF2R (S754_finite sb mb eb)
                   = if xorb sa sb then - x else x)%R).
      { unfold x. cbn [SF2R].
        set (A := (IZR (Zpos ma) * pow2 ea)%R) in *.
        set (B := (IZR (Zpos mb) * pow2 eb)%R) in *.
        destruct sa, sb; cbn [xorb]; field; lra. }
      rewrite E. destruct (xorb sa sb); [rewrite Rabs_Ropp |];
        apply Rabs_pos_eq; lra. }
    rewrite Habs in *.
    apply (round_aux_signed (xorb sa sb) q e'
             (new_location (Zpos mb) (m' mod Zpos mb)) x).
    + exact Hq0.
    + (* the quotient has enough digits *)
      assert (Hdq : D - e' <= Zdigits2 q).
      { pose proof (Zdigits2_nonneg q).
        destruct (Z_le_gt_dec (D - e') 0) as [Hle | Hgt]; [lia |].
        pose proof (Zdigits2_bounds (Zpos ma) ltac:(lia)) as [La _].
        pose proof (Zdigits2_bounds (Zpos mb) ltac:(lia)) as [_ Ub].
        pose proof (Zdigits2_pos ma). pose proof (Zdigits2_pos mb).
        set (k := D - e' - 1).
        assert (Hk : 0 <= k) by (unfold k; lia).
        assert (2 ^ k <= q).
        { unfold q. apply Z.div_le_lower_bound; [lia |].
          rewrite Hm'.
          assert (2 ^ (Zdigits2 (Zpos ma) - 1) * 2 ^ sh
                  = 2 ^ k * 2 ^ Zdigits2 (Zpos mb)).
          { rewrite <- !Z.pow_add_r by lia. f_equal. unfold k, D, sh. lia. }
          assert (0 < 2 ^ k) by (apply Z.pow_pos_nonneg; lia).
          nia. }
        pose proof (Zdigits2_gt q k Hk H2). unfold k in *. lia. }
      unfold e', fexp64 in *. lia.
    + rewrite Hxq. pose proof (pow2_pos e').
      assert (Hmb : (0 < IZR (Zpos mb))%R) by (apply IZR_lt; lia).
      assert (IZR q <= IZR m' / IZR (Zpos mb) < IZR q + 1)%R.
      { split.
        - apply Rmult_le_reg_r with (IZR (Zpos mb)); [exact Hmb |].
          unfold Rdiv. rewrite Rmult_assoc, Rinv_l, Rmult_1_r by lra.
          rewrite <- mult_IZR. apply IZR_le. lia.
        - apply Rmult_lt_reg_r with (IZR (Zpos mb)); [exact Hmb |].
          unfold Rdiv. rewrite Rmult_assoc, Rinv_l, Rmult_1_r by lra.
          rewrite <- (plus_IZR q 1), <- mult_IZR. apply IZR_lt. lia. }
      split; [apply Rmult_le_compat_r; lra | apply Rmult_lt_compat_r; lra].
    + exact Hmax.
    + unfold x. cbn [SF2R].
      set (A := (IZR (Zpos ma) * pow2 ea)%R) in *.
      set (B := (IZR (Zpos mb) * pow2 eb)%R) in *.
      destruct sa, sb; cbn [xorb]; field; lra.
Qed.


(** *** Comparison *)

Lemma canonical_lt (m1 m2 : positive) (e1 e2 : Z) :
  fexp64 (Zdigits2 (Zpos m1) + e1) = e1 ->
  fexp64 (Zdigits2 (Zpos m2) + e2) = e2 ->
  e1 < e2 ->
  (IZR (Zpos m1) * pow2 e1 < IZR (Zpos m2) * pow2 e2)%R.
Proof.
  intros C1 C2 Hlt.
  destruct (canonical_digits _ _ C1) as (A1 & A2 & A3 & _).
  destruct (canonical_digits _ _ C2) as (B1 & B2 & B3 & B4).
  destruct (B4 ltac:(lia)) as [_ Hm2].
  apply Rlt_le_trans with (pow2 (53 + e1)).
  - rewrite pow2_add, (pow2_IZR 53) by lia.
    apply Rmult_lt_compat_r; [apply pow2_pos | apply IZR_lt, A3].
  - apply Rle_trans with (pow2 (52 + e2)); [apply pow2_le; lia |].
    rewrite pow2_add, (pow2_IZR 52) by lia.
    apply Rmult_le_compat_r; [left; apply pow2_pos | apply IZR_le, Hm2].
Qed.

Lemma magnitude_compare (m1 m2 : positive) (e1 e2 : Z) :
  fexp64 (Zdigits2 (Zpos m1) + e1) = e1 ->
  fexp64 (Zdigits2 (Zpos m2) + e2) = e2 ->
  match
    match Z.compare e1 e2 with
    | Lt => Lt
    | Gt => Gt
    | Eq => Pos.compare_cont Eq m1 m2
    end
  with
  | Lt => (IZR (Zpos m1) * pow2 e1 < IZR (Zpos m2) * pow2 e2)%R
  | Eq => m1 = m2 /\ e1 = e2
  | Gt => (IZR (Zpos m2) * pow2 e2 < IZR (Zpos m1) * pow2 e1)%R
  end.
Proof.
  intros C1 C2. destruct (Z.compare_spec e1 e2) as [E | E | E].
  - subst e2. change (Pos.compare_cont Eq m1 m2) with (Pos.compare m1 m2).
    pose proof (pow2_pos e1).
    destruct (Pos.compare_spec m1 m2) as [E' | E' | E'].
    + split; [exact E' | reflexivity].
    + apply Rmult_lt_compat_r; [lra | apply IZR_lt; lia].
    + apply Rmult_lt_compat_r; [lra | apply IZR_lt; lia].
  - apply canonical_lt; assumption.
  - apply canonical_lt; assumption.
Qed.

Lemma SFcompare_value (a b : spec_float) :
  valid_binary a = true -> valid_binary b = true ->
  SFnumber a = true -> SFnumber b = true ->
  match SFcompare a b with
  | Some Lt => (SF2R a < SF2R b)%R
  | Some Eq => SF2R a = SF2R b /\
               (forall s m e, b = S754_finite s m e -> a = b)
  | Some Gt => (SF2R b < SF2R a)%R
  | None => False
  end.
Proof.
  intros Va Vb Na Nb.
  destruct a as [sa | sa | | sa ma ea]; try discriminate;
    destruct b as [sb | sb | | sb mb eb]; try discriminate.
  - simpl. split; [reflexivity | discriminate].
  - pose proof (mantissa_pos mb eb). simpl. destruct sb; lra.
  - pose proof (mantissa_pos ma ea). simpl. destruct sa; lra.
  - destruct (valid_finite _ _ _ Va) as [Ca _].
    destruct (valid_finite _ _ _ Vb) as [Cb _].
    pose proof (mantissa_pos ma ea). pose proof (mantissa_pos mb eb).
    pose proof (magnitude_compare ma mb ea eb Ca Cb) as Hc.
    cbn [SFcompare SF2R]. destruct sa, sb.
    + destruct (Z.compare ea eb);
        [destruct (Pos.compare_cont Eq ma mb) | |]; cbn [CompOpp];
        try lra.
      destruct Hc as [-> ->]. split; [reflexivity | reflexivity].
    + lra.
    + lra.
    + destruct (Z.compare ea eb);
        [destruct (Pos.compare_cont Eq ma mb) | |]; try lra.
      destruct Hc as [-> ->]. split; [reflexivity | reflexivity].
Qed.

(** *** The operations on primitive floats *)

Local Open Scope float_scope.

Lemma leb_value (a b : float) :
  number a -> number b -> ((a <=? b) = true <-> (value a <= value b)%R).
Proof.
  intros Na Nb. rewrite leb_spec. unfold SFleb, value.
  pose proof (SFcompare_value _ _ (Prim2SF_valid a) (Prim2SF_valid b) Na Nb) as H.
  destruct (SFcompare (Prim2SF a) (Prim2SF b)) as [[| |] |].
  - destruct H as [-> _]. split; [intros _; lra | reflexivity].
  - split; [intros _; lra | reflexivity].
  - split; [discriminate | intros; lra].
  - contradiction.
Qed.

Lemma ltb_value (a b : float) :
  number a -> number b -> ((a <? b) = true <-> (value a < value b)%R).
Proof.
  intros Na Nb. rewrite ltb_spec. unfold SFltb, value.
  pose proof (SFcompare_value _ _ (Prim2SF_valid a) (Prim2SF_valid b) Na Nb) as H.
  destruct (SFcompare (Prim2SF a) (Prim2SF b)) as [[| |] |].
  - destruct H as [-> _]. split; [discriminate | intros; lra].
  - split; [intros _; lra | reflexivity].
  - split; [discriminate | intros; lra].
  - contradiction.
Qed.

(** A number with the value of a finite non-zero number is that number. *)
Lemma value_inj (a b : float) (s : bool) (m : positive) (e : Z) :
  number a -> Prim2SF b = S754_finite s m e -> value a = value b -> a = b.
Proof.
  intros Na Eb Hv. apply Prim2SF_inj.
  assert (Nb : number b) by (unfold number; rewrite Eb; reflexivity).
  pose proof (SFcompare_value _ _ (Prim2SF_valid a) (Prim2SF_valid b) Na Nb) as H.
  unfold value in Hv.
  destruct (SFcompare (Prim2SF a) (Prim2SF b)) as [[| |] |]; try lra.
  destruct H as [_ H]. apply (H s m e Eb).
Qed.

(** What lies between two numbers is a number. *)
Lemma between_number (lo a hi : float) :
  number lo -> number hi ->
  (lo <=? a) = true -> (a <=? hi) = true -> number a.
Proof.
  unfold number. rewrite !leb_spec. unfold SFleb.
  destruct (Prim2SF lo) as [sl | sl | | sl ml el]; try discriminate;
    destruct (Prim2SF hi) as [sh | sh | | sh mh eh]; try discriminate;
    destruct (Prim2SF a) as [sa | [|] | | sa ma ea]; simpl;
    try reflexivity; try discriminate;
    intros _ _; try discriminate;
    try (destruct sl; discriminate); try (destruct sh; discriminate).
Qed.

Lemma number_bounded (a : float) : number a -> (Rabs (value a) <= maxval)%R.
Proof.
  unfold number, value. pose proof (Prim2SF_valid a) as V.
  assert (Hmv : (0 < maxval)%R).
  { unfold maxval. apply Rmult_lt_0_compat; [apply IZR_lt; lia | apply pow2_pos]. }
  destruct (Prim2SF a) as [s | s | | s m e]; try discriminate; intros _.
  - simpl. rewrite Rabs_R0. lra.
  - destruct (valid_finite _ _ _ V) as [C He].
    destruct (canonical_digits _ _ C) as (_ & _ & Hm & _).
    pose proof (mantissa_pos m e).
    assert (Rabs (SF2R (S754_finite s m e)) = (IZR (Zpos m) * pow2 e)%R).
    { simpl. destruct s; [rewrite Rabs_Ropp |]; apply Rabs_pos_eq; lra. }
    rewrite H0. unfold maxval.
    apply Rmult_le_compat; [apply IZR_le; lia | left; apply pow2_pos | |].
    + apply IZR_le. lia.
    + apply pow2_le. exact He.
Qed.

Lemma mul_bound (a b : float) :
  number a -> number b ->
  (Rabs (value a * value b) < maxval)%R ->
  number (a * b) /\
  (Rabs (value (a * b) - value a * value b) <= err (Rabs (value a * value b)))%R /\
  (forall k, (-1074 <= k)%Z -> (Rabs (value a * value b) < pow2 k)%R ->
             (Rabs (value (a * b)) <= pow2 k)%R).
Proof.
  intros Na Nb H. unfold number, value. rewrite mul_spec.
  apply SFmul_bound; auto using Prim2SF_valid.
Qed.

Lemma div_bound (a b : float) :
  number a -> number b -> value b <> 0%R ->
  (Rabs (value a / value b) < maxval)%R ->
  number (a / b) /\
  (Rabs (value (a / b) - value a / value b) <= err (Rabs (value a / value b)))%R /\
  (forall k, (-1074 <= k)%Z -> (Rabs (value a / value b) < pow2 k)%R ->
             (Rabs (value (a / b)) <= pow2 k)%R).
Proof.
  intros Na Nb Hb H. unfold number, value. rewrite div_spec.
  apply SFdiv_bound; assumption.
Qed.

Lemma add_bound (a b : float) :
  number a -> number b ->
  (Rabs (value a + value b) < maxval)%R ->
  number (a + b) /\
  (Rabs (value (a + b) - (value a + value b)) <= err (Rabs (value a + value b)))%R /\
  (forall k, (-1074 <= k)%Z -> (Rabs (value a + value b) < pow2 k)%R ->
             (Rabs (value (a + b)) <= pow2 k)%R).
Proof.
  intros Na Nb H. unfold number, value. rewrite add_spec.
  apply SFadd_bound; assumption.
Qed.

Lemma sub_bound (a b : float) :
  number a -> number b ->
  (Rabs (value a - value b) < maxval)%R ->
  number (a - b) /\
  (Rabs (value (a - b) - (value a - value b)) <= err (Rabs (value a - value b)))%R /\
  (forall k, (-1074 <= k)%Z -> (Rabs (value a - value b) < pow2 k)%R ->
             (Rabs (value (a - b)) <= pow2 k)%R).
Proof.
  intros Na Nb H. unfold number, value. rewrite sub_spec.
  apply SFsub_bound; assumption.
Qed.

Lemma opp_value (a : float) :
  number a -> number (- a) /\ value (- a) = (- value a)%R.
Proof.
  unfold number, value. rewrite opp_spec.
  destruct (Prim2SF a) as [s | s | | s m e]; try discriminate; intros _;
    (split; [reflexivity |]); simpl; [ring |]. destruct s; simpl; ring.
Qed.

Lemma abs_value (a : float) :
  number a -> number (abs a) /\ value (abs a) = Rabs (value a).
Proof.
  unfold number, value. rewrite abs_spec.
  destruct (Prim2SF a) as [s | s | | s m e]; try discriminate; intros _;
    (split; [reflexivity |]); simpl.
  - now rewrite Rabs_R0.
  - pose proof (mantissa_pos m e).
    destruct s; [rewrite Rabs_Ropp |]; symmetry; apply Rabs_pos_eq; lra.
Qed.


(** *** Constants *)

Lemma pow2_neg_IZR (k : Z) : (0 <= k)%Z -> pow2 (- k) = (/ IZR (2 ^ k))%R.
Proof. intros Hk. rewrite pow2_neg, pow2_IZR by exact Hk. reflexivity. Qed.

Lemma value_half : number 0.5 /\ value 0.5 = (1 / 2)%R.
Proof.
  split; [reflexivity |]. unfold value.
  replace (Prim2SF 0.5) with (S754_finite false 4503599627370496 (-53))
    by (vm_compute; reflexivity).
  cbn [SF2R]. replace (pow2 (-53)) with (/ IZR (2 ^ 53))%R
    by (symmetry; apply (pow2_neg_IZR 53); lia).
  change (2 ^ 53)%Z with 9007199254740992%Z. lra.
Qed.

Lemma value_one : number 1 /\ value 1 = 1%R.
Proof.
  split; [reflexivity |]. unfold value.
  replace (Prim2SF 1) with (S754_finite false 4503599627370496 (-52))
    by (vm_compute; reflexivity).
  cbn [SF2R]. replace (pow2 (-52)) with (/ IZR (2 ^ 52))%R
    by (symmetry; apply (pow2_neg_IZR 52); lia).
  change (2 ^ 52)%Z with 4503599627370496%Z. field.
Qed.

Lemma value_minus_one : number (-1) /\ value (-1) = (-1)%R.
Proof.
  split; [reflexivity |]. unfold value.
  replace (Prim2SF (-1)) with (S754_finite true 4503599627370496 (-52))
    by (vm_compute; reflexivity).
  cbn [SF2R]. replace (pow2 (-52)) with (/ IZR (2 ^ 52))%R
    by (symmetry; apply (pow2_neg_IZR 52); lia).
  change (2 ^ 52)%Z with 4503599627370496%Z. field.
Qed.

Lemma value_zero : number 0 /\ value 0 = 0%R.
Proof. split; reflexivity. Qed.

Lemma value_min_normal : number 0x1p-1022 /\ value 0x1p-1022 = pow2 (-1022).
Proof.
  split; [reflexivity |]. unfold value.
  replace (Prim2SF 0x1p-1022) with (S754_finite false 4503599627370496 (-1074))
    by (vm_compute; reflexivity).
  cbn [SF2R]. replace (-1022)%Z with (52 + -1074)%Z by lia.
  rewrite pow2_add, (pow2_IZR 52) by lia. reflexivity.
Qed.

Lemma value_max_float :
  Prim2SF 0x1.fffffffffffffp1023 = S754_finite false 9007199254740991 971 /\
  value 0x1.fffffffffffffp1023 = maxval.
Proof.
  assert (E : Prim2SF 0x1.fffffffffffffp1023
              = S754_finite false 9007199254740991 971)
    by (vm_compute; reflexivity).
  split; [exact E |]. unfold value. rewrite E. reflexivity.
Qed.

Lemma value_tolerance : number 1e-9 /\ (pow2 (-30) <= value 1e-9)%R.
Proof.
  split; [reflexivity |]. unfold value.
  replace (Prim2SF 1e-9) with (S754_finite false 4835703278458517 (-82))
    by (vm_compute; reflexivity).
  cbn [SF2R]. replace (-30)%Z with (52 + -82)%Z by lia.
  rewrite pow2_add, (pow2_IZR 52) by lia.
  apply Rmult_le_compat_r; [left; apply pow2_pos | apply IZR_le; lia].
Qed.

Lemma maxval_large : (4 <= maxval)%R.
Proof.
  unfold maxval. pose proof (pow2_ge_1 971 ltac:(lia)).
  assert (4 <= IZR (2 ^ 53 - 1))%R by (apply IZR_le; lia). nra.
Qed.

Lemma pow2_minus_1 : pow2 (-1) = (1 / 2)%R.
Proof.
  replace (pow2 (-1)) with (/ IZR (2 ^ 1))%R
    by (symmetry; apply (pow2_neg_IZR 1); lia).
  change (2 ^ 1)%Z with 2%Z. lra.
Qed.

Lemma eps_small : (0 < pow2 (-51) <= 1 / 1000)%R.
Proof.
  split; [apply pow2_pos |]. replace (pow2 (-51)) with (/ IZR (2 ^ 51))%R
    by (symmetry; apply (pow2_neg_IZR 51); lia).
  change (2 ^ 51)%Z with 2251799813685248%Z. lra.
Qed.

Lemma eta_small (S : R) :
  (pow2 (-1022) <= S)%R ->
  (0 < pow2 (-1073) <= pow2 (-51) * S)%R /\ (pow2 (-1073) <= pow2 (-51) / 1000)%R.
Proof.
  intros HS. pose proof (pow2_pos (-1073)). pose proof (pow2_pos (-51)).
  assert (E : pow2 (-1073) = (pow2 (-51) * pow2 (-1022))%R)
    by (rewrite <- pow2_add; reflexivity).
  split; [split; [lra |]; rewrite E; nra |].
  rewrite E.
  assert (pow2 (-1022) <= pow2 (-10))%R by (apply pow2_le; lia).
  assert (pow2 (-10) <= 1 / 1000)%R.
  { replace (pow2 (-10)) with (/ IZR (2 ^ 10))%R
    by (symmetry; apply (pow2_neg_IZR 10); lia). change (2 ^ 10)%Z with 1024%Z. lra. }
  nra.
Qed.


Lemma eta_tiny : (0 < pow2 (-1073) <= pow2 (-51) / 1000)%R.
Proof.
  destruct (eta_small (pow2 (-1022))) as [[A _] B]; [lra |]. split; assumption.
Qed.

(** *** Real arithmetic for the error bounds *)

Lemma abs_le_inv (x d : R) : (Rabs x <= d)%R -> (- d <= x <= d)%R.
Proof. unfold Rabs. destruct (Rcase_abs x); lra. Qed.

Lemma div_close (B A S d : R) :
  (0 < S)%R -> (Rabs (B - A * S) <= d * S)%R -> (Rabs (B / S - A) <= d)%R.
Proof.
  intros HS H. apply abs_le_inv in H. apply Rabs_le.
  assert (E : (B / S - A = (B - A * S) / S)%R) by (field; lra).
  rewrite E. split.
  - apply Rmult_le_reg_r with S; [exact HS |].
    unfold Rdiv. rewrite Rmult_assoc, Rinv_l, Rmult_1_r by lra. lra.
  - apply Rmult_le_reg_r with S; [exact HS |].
    unfold Rdiv. rewrite Rmult_assoc, Rinv_l, Rmult_1_r by lra. lra.
Qed.

Lemma product_small (Z u d : R) :
  (Rabs Z <= 1)%R -> (Rabs u <= d)%R -> (Rabs (Z * u) <= d)%R.
Proof.
  intros HZ Hu. rewrite Rabs_mult.
  pose proof (Rabs_pos Z). pose proof (Rabs_pos u). nra.
Qed.

Lemma ratio_close (w t Z e : R) :
  (0 < e <= 1 / 1000)%R ->
  (Rabs (w - Z / 2) <= 3 * e)%R -> (Rabs (t - 1 / 2) <= 3 / 2 * e)%R ->
  (Rabs Z <= 1)%R ->
  (0 < t)%R /\ (Rabs (w / t) <= 2)%R /\ (Rabs (w / t - Z) <= 10 * e)%R.
Proof.
  intros He Hw Ht HZ.
  pose proof (product_small Z (t - 1 / 2) (3 / 2 * e) HZ Ht) as Hp.
  apply abs_le_inv in Hw, Ht, HZ, Hp.
  assert (Ht0 : (0 < t)%R) by lra.
  split; [exact Ht0 |].
  assert (E : forall c, (w / t - c = (w - c * t) / t)%R) by (intros; field; lra).
  assert (Hdiv : forall n lo hi : R,
             (lo * t <= n <= hi * t)%R -> (lo <= n / t <= hi)%R).
  { intros n lo hi [A B]. split.
    - apply Rmult_le_reg_r with t; [exact Ht0 |].
      unfold Rdiv. rewrite Rmult_assoc, Rinv_l, Rmult_1_r by lra. exact A.
    - apply Rmult_le_reg_r with t; [exact Ht0 |].
      unfold Rdiv. rewrite Rmult_assoc, Rinv_l, Rmult_1_r by lra. exact B. }
  split.
  - apply Rabs_le. replace (- (2))%R with (-2)%R by ring. apply Hdiv. nra.
  - apply Rabs_le. rewrite E.
    replace (- (10 * e))%R with (-10 * e)%R by ring. apply Hdiv.
    replace (w - Z * t)%R with ((w - Z / 2) - Z * (t - 1 / 2))%R by field.
    nra.
Qed.

(** *** Through world space and back *)

Section Scale.
Variable s : float.
Hypothesis Hs : number s.
Hypothesis Hlo : (pow2 (-1022) <= value s)%R.

Lemma scale_facts :
  (0 < value s <= maxval)%R /\
  (0 < pow2 (-1073) <= pow2 (-51) * value s)%R /\
  (pow2 (-1073) <= pow2 (-51) / 1000)%R /\
  (0 < pow2 (-51) <= 1 / 1000)%R.
Proof.
  pose proof (pow2_pos (-1022)). pose proof (number_bounded s Hs) as Hb.
  apply abs_le_inv in Hb. pose proof (eta_small (value s) Hlo) as [A B].
  pose proof eps_small. repeat split; lra.
Qed.

(** A number of magnitude at most 1 times the scale stays below the
    largest number, except at the largest scale itself with 1 or -1. *)
Lemma scale_strict (a : float) :
  number a -> (Rabs (value a) <= 1)%R ->
  (Rabs (value a * value s) < maxval)%R \/
  (s = 0x1.fffffffffffffp1023 /\ (a = 1 \/ a = -1)).
Proof.
  intros Na Ha.
  destruct scale_facts as ((HS0 & HSmax) & _).
  destruct (Rlt_le_dec (Rabs (value a * value s)) maxval) as [Hlt | Hge];
    [left; exact Hlt | right].
  rewrite Rabs_mult, (Rabs_pos_eq (value s)) in Hge by lra.
  pose proof (Rabs_pos (value a)).
  assert (ES : value s = maxval) by nra.
  assert (EA : Rabs (value a) = 1%R) by nra.
  destruct value_max_float as [Emax Vmax].
  destruct value_minus_one as [Nm1 Vm1]. destruct value_one as [N1 V1].
  split.
  - apply (value_inj s _ _ _ _ Hs Emax). rewrite Vmax. exact ES.
  - unfold Rabs in EA. destruct (Rcase_abs (value a)).
    + right. apply (value_inj a (-1) true 4503599627370496 (-52) Na);
        [vm_compute; reflexivity | rewrite Vm1; lra].
    + left. apply (value_inj a 1 false 4503599627370496 (-52) Na);
        [vm_compute; reflexivity | rewrite V1; lra].
Qed.

Lemma half_strict (a : float) :
  (Rabs (value a) <= 1 / 2)%R -> (Rabs (value a * value s) < maxval)%R.
Proof.
  intros Ha. destruct scale_facts as ((HS0 & HSmax) & _).
  rewrite Rabs_mult, (Rabs_pos_eq (value s)) by lra.
  pose proof (Rabs_pos (value a)). nra.
Qed.

(** Multiplying by the scale and dividing by it again. *)
Lemma there_and_back (a : float) :
  number a -> (Rabs (value a) <= 1)%R ->
  (Rabs (value a * value s) < maxval)%R ->
  number (a * s / s) /\
  (Rabs (value (a * s / s) - value a) <= 4 * pow2 (-51))%R.
Proof.
  intros Na Ha Hstrict.
  destruct scale_facts as ((HS0 & HSmax) & (Heta0 & HetaS) & Heta & (Heps0 & Heps)).
  pose proof maxval_large as Hmv.
  set (S := value s) in *. set (A := value a) in *.
  set (eps := pow2 (-51)) in *. set (eta := pow2 (-1073)) in *.
  assert (HAS : (Rabs (A * S) <= S)%R).
  { rewrite Rabs_mult, (Rabs_pos_eq S) by lra.
    pose proof (Rabs_pos A). nra. }
  destruct (mul_bound a s Na Hs Hstrict) as (Nb & Hb & _).
  fold A S in Hb. unfold err in Hb. fold eps eta in Hb.
  set (B := value (a * s)) in *.
  assert (HB : (Rabs (B - A * S) <= 2 * eps * S)%R).
  { pose proof (Rabs_pos (A * S)). nra. }
  pose proof (div_close B A S (2 * eps) HS0 HB) as Hu.
  assert (HuA : (Rabs (B / S) <= 1 + 2 * eps)%R).
  { apply abs_le_inv in Hu, Ha. apply Rabs_le. lra. }
  destruct (div_bound (a * s) s Nb Hs) as (Nc & Hc & _);
    [fold S; lra | fold B S; lra |].
  fold B S in Hc. unfold err in Hc. fold eps eta in Hc.
  split; [exact Nc |].
  set (C := value (a * s / s)) in *.
  pose proof (Rabs_pos (B / S)).
  assert (Hc' : (Rabs (C - B / S) <= 2 * eps)%R) by nra.
  apply abs_le_inv in Hc', Hu. apply Rabs_le. lra.
Qed.

(** The scaled depth, divided by the scaled scale. *)
Lemma depth_there_and_back (v : float) :
  number v -> (Rabs (value v) <= 1)%R ->
  (Rabs (value v * value s) < maxval)%R ->
  number (v * s * 0.5 / (s * 0.5)) /\
  (Rabs (value (v * s * 0.5 / (s * 0.5)) - value v) <= 13 * pow2 (-51))%R.
Proof.
  intros Nv Hv Hstrict.
  destruct scale_facts as ((HS0 & HSmax) & (Heta0 & HetaS) & Heta & (Heps0 & Heps)).
  pose proof maxval_large as Hmv.
  destruct value_half as [Nh Vh].
  set (S := value s) in *. set (Z := value v) in *.
  set (eps := pow2 (-51)) in *. set (eta := pow2 (-1073)) in *.
  assert (HZS : (Rabs (Z * S) <= S)%R).
  { rewrite Rabs_mult, (Rabs_pos_eq S) by lra. pose proof (Rabs_pos Z). nra. }
  (* p = z * s *)
  destruct (mul_bound v s Nv Hs Hstrict) as (Np & Hp & _).
  fold Z S in Hp. unfold err in Hp. fold eps eta in Hp.
  set (P := value (v * s)) in *.
  assert (HP : (Rabs (P - Z * S) <= 2 * eps * S)%R).
  { pose proof (Rabs_pos (Z * S)). nra. }
  (* w = p * 0.5 *)
  pose proof (number_bounded _ Np) as HPmax. fold P in HPmax.
  assert (HPh : Rabs (P * value 0.5) = (Rabs P / 2)%R).
  { rewrite Vh, Rabs_mult, (Rabs_pos_eq (1 / 2)) by lra. field. }
  destruct (mul_bound (v * s) 0.5 Np Nh) as (Nw & Hw & _).
  { fold P. rewrite HPh. pose proof (Rabs_pos P). lra. }
  fold P in Hw. rewrite HPh in Hw. unfold err in Hw. fold eps eta in Hw.
  rewrite Vh in Hw.
  set (W := value (v * s * 0.5)) in *.
  assert (HPabs : (Rabs P <= (1 + 2 * eps) * S)%R).
  { apply abs_le_inv in HP, HZS. apply Rabs_le. nra. }
  assert (HW : (Rabs (W - Z / 2 * S) <= 3 * eps * S)%R).
  { pose proof (Rabs_pos P).
    assert (Rabs (W - P * (1 / 2)) <= 2 * eps * S)%R by nra.
    apply abs_le_inv in H0, HP. apply Rabs_le. nra. }
  (* t = s * 0.5 *)
  assert (HSh : Rabs (S * value 0.5) = (S / 2)%R).
  { rewrite Vh, Rabs_pos_eq by lra. field. }
  destruct (mul_bound s 0.5 Hs Nh) as (Nt & Ht & _).
  { fold S. rewrite HSh. lra. }
  fold S in Ht. rewrite HSh in Ht. unfold err in Ht. fold eps eta in Ht.
  rewrite Vh in Ht.
  set (T := value (s * 0.5)) in *.
  assert (HT : (Rabs (T - 1 / 2 * S) <= 3 / 2 * eps * S)%R).
  { apply abs_le_inv in Ht. apply Rabs_le. nra. }
  (* the quotient *)
  pose proof (div_close W (Z / 2) S (3 * eps) HS0 HW) as Hw'.
  pose proof (div_close T (1 / 2) S (3 / 2 * eps) HS0 HT) as Ht'.
  destruct (ratio_close (W / S) (T / S) Z eps ltac:(lra) Hw' Ht' Hv)
    as (Ht0 & Hq2 & HqZ).
  assert (HT0 : (0 < T)%R).
  { assert (T = T / S * S)%R by (field; lra). rewrite H.
    apply Rmult_lt_0_compat; lra. }
  assert (Eq : (W / S / (T / S) = W / T)%R) by (field; lra).
  rewrite Eq in Hq2, HqZ.
  destruct (div_bound (v * s * 0.5) (s * 0.5) Nw Nt) as (Nq & Hq & _);
    [fold T; lra | fold W T; lra |].
  fold W T in Hq. unfold err in Hq. fold eps eta in Hq.
  split; [exact Nq |].
  set (Q := value (v * s * 0.5 / (s * 0.5))) in *.
  pose proof (Rabs_pos (W / T)).
  assert (Rabs (Q - W / T) <= 3 * eps)%R by nra.
  apply abs_le_inv in H0, HqZ. apply Rabs_le. lra.
Qed.

End Scale.

(** Two numbers within [14 * 2^-51] of each other pass the tolerance
    test. *)
Lemma close_within (q v : float) :
  number q -> number v ->
  (Rabs (value q - value v) <= 14 * pow2 (-51))%R ->
  Coordinates.withinTolerance q v = true.
Proof.
  intros Nq Nv H. unfold Coordinates.withinTolerance.
  destruct eps_small as [Heps0 Heps]. destruct eta_tiny as [Heta0 Heta].
  pose proof maxval_large as Hmv.
  destruct (sub_bound q v Nq Nv) as (Ne & He & _); [lra |].
  unfold err in He.
  destruct (abs_value _ Ne) as [Na Va].
  destruct value_tolerance as [Nt Vt].
  apply leb_value; [exact Na | exact Nt |]. rewrite Va.
  apply Rle_trans with (pow2 (-30)); [| exact Vt].
  assert (E30 : pow2 (-30) = (2097152 * pow2 (-51))%R).
  { replace (-30)%Z with (21 + -51)%Z by lia.
    rewrite pow2_add, (pow2_IZR 21) by lia.
    change (2 ^ 21)%Z with 2097152%Z. reflexivity. }
  rewrite E30.
  set (eps := pow2 (-51)) in *. set (eta := pow2 (-1073)) in *.
  pose proof (Rabs_pos (value q - value v)).
  assert (eps * Rabs (value q - value v) <= eps)%R by nra.
  apply abs_le_inv in He, H. apply Rabs_le. lra.
Qed.

(** Subtracting one half from a number between 0 and 1. *)
Lemma minus_half (v : float) :
  (0 <=? v) = true -> (v <=? 1) = true ->
  number v /\ (0 <= value v <= 1)%R /\
  number (v - 0.5) /\
  (Rabs (value (v - 0.5)) <= 1 / 2)%R /\
  (Rabs (value (v - 0.5) - (value v - 1 / 2)) <= pow2 (-51))%R.
Proof.
  intros H0 H1.
  destruct value_zero as [N0 V0]. destruct value_one as [N1 V1].
  destruct value_half as [Nh Vh].
  assert (Nv : number v) by (apply (between_number 0 v 1); assumption).
  apply (leb_value 0 v N0 Nv) in H0. apply (leb_value v 1 Nv N1) in H1.
  rewrite V0 in H0. rewrite V1 in H1.
  split; [exact Nv |]. split; [lra |].
  destruct eps_small as [Heps0 Heps]. destruct eta_tiny as [Heta0 Heta].
  pose proof maxval_large as Hmv.
  assert (Eh : Prim2SF 0.5 = S754_finite false 4503599627370496 (-53))
    by (vm_compute; reflexivity).
  destruct (Req_dec (value v) 0) as [E0 | Hne0].
  - (* v is a zero *)
    assert (Ez : exists sg, Prim2SF v = S754_zero sg).
    { unfold number, value in *.
      destruct (Prim2SF v) as [sg | sg | | sg m e]; try discriminate;
        [eauto |].
      pose proof (mantissa_pos m e). simpl in E0. destruct sg; lra. }
    destruct Ez as [sg Ez].
    assert (Es : Prim2SF (v - 0.5) = S754_finite true 4503599627370496 (-53)).
    { rewrite sub_spec, Ez, Eh. reflexivity. }
    assert (Ev : value (v - 0.5) = (- (1 / 2))%R).
    { unfold value in *. rewrite Es. rewrite Eh in Vh. cbn [SF2R] in *.
      rewrite Vh. reflexivity. }
    split; [unfold number; rewrite Es; reflexivity |].
    rewrite Ev, E0. split.
    + rewrite Rabs_Ropp, Rabs_pos_eq; lra.
    + replace (- (1 / 2) - (0 - 1 / 2))%R with 0%R by ring.
      rewrite Rabs_R0. lra.
  - destruct (Req_dec (value v) 1) as [E1 | Hne1].
    + (* v is one *)
      assert (Ev : v = 1).
      { apply (value_inj v 1 false 4503599627370496 (-52) Nv);
          [vm_compute; reflexivity | rewrite V1; exact E1]. }
      rewrite Ev. replace (1 - 0.5) with 0.5 by (vm_compute; reflexivity).
      split; [exact Nh |]. rewrite Vh, V1. split.
      * rewrite Rabs_pos_eq; lra.
      * replace (1 / 2 - (1 - 1 / 2))%R with 0%R by field.
        rewrite Rabs_R0. lra.
    + destruct (sub_bound v 0.5 Nv Nh) as (Na & Ha & Hcap).
      { rewrite Vh. apply Rabs_def1; lra. }
      rewrite Vh in Ha, Hcap. unfold err in Ha.
      assert (Hlt : (Rabs (value v - 1 / 2) < 1 / 2)%R)
        by (apply Rabs_def1; lra).
      split; [exact Na |]. split.
      * rewrite <- pow2_minus_1. apply Hcap; [lia |].
        rewrite pow2_minus_1. exact Hlt.
      * set (eps := pow2 (-51)) in *. set (eta := pow2 (-1073)) in *.
        pose proof (Rabs_pos (value v - 1 / 2)). nra.
Qed.

(** Adding one half back. *)
Lemma plus_half_close (n v : float) :
  number n -> number v -> (0 <= value v <= 1)%R ->
  (Rabs (value n - (value v - 1 / 2)) <= 5 * pow2 (-51))%R ->
  Coordinates.withinTolerance (n + 0.5) v = true.
Proof.
  intros Nn Nv Hv H.
  destruct eps_small as [Heps0 Heps]. destruct eta_tiny as [Heta0 Heta].
  pose proof maxval_large as Hmv. destruct value_half as [Nh Vh].
  set (eps := pow2 (-51)) in *. set (eta := pow2 (-1073)) in *.
  apply abs_le_inv in H.
  assert (Hsum : (Rabs (value n + 1 / 2) <= 2)%R) by (apply Rabs_le; lra).
  destruct (add_bound n 0.5 Nn Nh) as (Nd & Hd & _); [rewrite Vh; lra |].
  rewrite Vh in Hd. unfold err in Hd. fold eps eta in Hd.
  apply close_within; [exact Nd | exact Nv |]. fold eps.
  pose proof (Rabs_pos (value n + 1 / 2)).
  assert (Hd' : (Rabs (value (n + 0.5) - (value n + 1 / 2)) <= 3 * eps)%R) by nra.
  apply abs_le_inv in Hd'. apply Rabs_le. lra.
Qed.

End Rounding.

(** ** Claims about the coordinate converter *)

Section CoordinateClaims.
Import Coordinates.
Import Binary64.
Local Open Scope float_scope.

(** C1 (as amended).  In binary64, for every point [p] with [x] and [y] in
    [0,1] and [z] in [-1,1], and every scale [s] that is a positive normal
    number (finite and at least [2^-1022]), the round trip
    [worldToNormalized(normalizedToWorld(p, s), s)] returns [p] within the
    tolerance [1e-9] on each component. *)
Theorem round_trip_binary64 :
  forall (p : Landmark) (s : float),
    inValidRange p -> positiveNormal s ->
    roundTripWithinTolerance p s = true.
Proof.
  intros p s (X0 & X1 & Y0 & Y1 & Z0 & Z1) (S0 & S1).
  destruct Rounding.value_min_normal as [Nmin Vmin].
  destruct Rounding.value_max_float as [Emax Vmax].
  assert (Nmax : number 0x1.fffffffffffffp1023)
    by (unfold number; rewrite Emax; reflexivity).
  assert (Ns : number s)
    by (apply (Rounding.between_number _ s _ Nmin Nmax); assumption).
  assert (Hlo : (pow2 (-1022) <= value s)%R).
  { rewrite <- Vmin. apply Rounding.leb_value; assumption. }
  destruct (Rounding.scale_facts s Ns Hlo)
    as ((HS0 & HSmax) & _ & _ & (Heps0 & Heps)).
  unfold roundTripWithinTolerance, worldToNormalized, normalizedToWorld.
  cbn [x y z add sub mul div neg half float_ops].
  apply andb_true_iff. split; [apply andb_true_iff; split |].
  - (* x *)
    destruct (Rounding.minus_half (x p) X0 X1) as (Nx & Hx & Na & Ha & Hax).
    destruct (Rounding.there_and_back s Ns Hlo _ Na) as (Nc & Hc);
      [lra | apply (Rounding.half_strict s Ns Hlo), Ha |].
    apply Rounding.plus_half_close; [exact Nc | exact Nx | exact Hx |].
    apply Rounding.abs_le_inv in Hc, Hax. apply Rabs_le. lra.
  - (* y *)
    destruct (Rounding.minus_half (y p) Y0 Y1) as (Ny & Hy & Na & Ha & Hay).
    destruct (Rounding.opp_value _ Na) as (Na' & Va').
    assert (Ha' : (Rabs (value (- (y p - 0.5))) <= 1 / 2)%R)
      by (rewrite Va', Rabs_Ropp; exact Ha).
    destruct (Rounding.there_and_back s Ns Hlo _ Na') as (Nc & Hc);
      [lra | apply (Rounding.half_strict s Ns Hlo), Ha' |].
    destruct (Rounding.opp_value _ Nc) as (Nn & Vn).
    apply Rounding.plus_half_close; [exact Nn | exact Ny | exact Hy |].
    rewrite Vn. rewrite Va' in Hc.
    apply Rounding.abs_le_inv in Hc, Hay. apply Rabs_le. lra.
  - (* z *)
    destruct Rounding.value_minus_one as [Nm1 Vm1].
    destruct Rounding.value_one as [N1 V1].
    assert (Nz : number (z p))
      by (apply (Rounding.between_number (-1) _ 1); assumption).
    apply (Rounding.leb_value (-1) _ Nm1 Nz) in Z0.
    apply (Rounding.leb_value _ 1 Nz N1) in Z1.
    rewrite Vm1 in Z0. rewrite V1 in Z1.
    assert (Hz : (Rabs (value (z p)) <= 1)%R) by (apply Rabs_le; lra).
    destruct (Rounding.scale_strict s Ns Hlo _ Nz Hz) as [Hlt | [-> Ez]].
    + destruct (Rounding.depth_there_and_back s Ns Hlo _ Nz Hz Hlt) as (Nq & Hq).
      apply Rounding.close_within; [exact Nq | exact Nz |]. lra.
    + (* only at the largest scale, with a depth of 1 or -1 *)
      destruct Ez as [-> | ->]; vm_compute; reflexivity.
Qed.

(** The point [(0.75, 0.25, 1)] at the usual scale 2; the same point at
    the smallest normal scale and at the largest finite one. *)
Lemma round_trip_binary64_witness :
  roundTripWithinTolerance (mkPoint 0.75 0.25 1) 2 = true /\
  roundTripWithinTolerance (mkPoint 0.75 0.25 1) 0x1p-1022 = true /\
  roundTripWithinTolerance (mkPoint 0.75 0.25 1) 0x1.fffffffffffffp1023 = true.
Proof.
  assert (Hp : inValidRange (mkPoint 0.75 0.25 1))
    by (unfold inValidRange; simpl; repeat split; reflexivity).
  split; [| split]; apply round_trip_binary64;
    first [exact Hp | split; reflexivity].
Defined.

(** C1, as stated, fails in binary64 on both sides of the normal range.  At
    the smallest positive scale [s = 2^-1074], which is not a normal
    number, the products underflow, and the point [(0.75, 0.25, 1)], which
    is in range, comes back as [(0.5, 0.5, NaN)].  At [s = Infinity], which
    is above zero as well, the products overflow and the same point comes
    back as [(NaN, NaN, NaN)]. *)
Lemma round_trip_scale_counterexample :
  let p := mkPoint 0.75 0.25 1 in
  let s := 0x1p-1074 in
  inValidRange p /\ (0 <? s) = true /\
  worldToNormalized float_ops (normalizedToWorld float_ops p s) s
    = mkPoint 0.5 0.5 nan /\
  roundTripWithinTolerance p s = false /\
  (0 <? infinity) = true /\
  worldToNormalized float_ops (normalizedToWorld float_ops p infinity) infinity
    = mkPoint nan nan nan /\
  roundTripWithinTolerance p infinity = false.
Proof.
  cbv zeta. unfold inValidRange. repeat split; vm_compute; reflexivity.
Qed.

(** C3.  [validateLandmarks] rejects the empty sequence, every sequence with
    a point that has a non-finite coordinate (NaN or an infinity), every
    sequence with a point whose [x] or [y] lies outside [0,1], and every
    sequence with a point whose [z] lies outside [-1,1]; it accepts every
    non-empty sequence all of whose points are in range. *)
Theorem validateLandmarks_verdicts :
  validateLandmarks [] = false /\
  (forall landmarks p, In p landmarks ->
     is_finite (x p) = false \/ is_finite (y p) = false \/ is_finite (z p) = false ->
     validateLandmarks landmarks = false) /\
  (forall landmarks p, In p landmarks ->
     (x p <? 0) = true \/ (1 <? x p) = true \/
     (y p <? 0) = true \/ (1 <? y p) = true ->
     validateLandmarks landmarks = false) /\
  (forall landmarks p, In p landmarks ->
     (z p <? -1) = true \/ (1 <? z p) = true ->
     validateLandmarks landmarks = false) /\
  (forall landmarks, landmarks <> [] ->
     (forall p, In p landmarks -> inValidRange p) ->
     validateLandmarks landmarks = true).
Proof.
  split; [reflexivity |].
  split; [| split; [| split]].
  - intros landmarks p Hin H.
    apply (CoordinatesFacts.validateLandmarks_rejects landmarks p Hin).
    unfold landmarkOk.
    destruct H as [H | [H | H]];
      first [ rewrite (CoordinatesFacts.axisOk_not_finite 0 1 _ eq_refl eq_refl H)
            | rewrite (CoordinatesFacts.axisOk_not_finite (-1) 1 _ eq_refl eq_refl H) ];
      rewrite ?andb_false_r; reflexivity.
  - intros landmarks p Hin H.
    apply (CoordinatesFacts.validateLandmarks_rejects landmarks p Hin).
    unfold landmarkOk.
    destruct H as [H | [H | [H | H]]];
      first [ rewrite (CoordinatesFacts.axisOk_below _ _ _ H)
            | rewrite (CoordinatesFacts.axisOk_above _ _ _ H) ];
      rewrite ?andb_false_r; reflexivity.
  - intros landmarks p Hin H.
    apply (CoordinatesFacts.validateLandmarks_rejects landmarks p Hin).
    unfold landmarkOk.
    destruct H as [H | H];
      first [ rewrite (CoordinatesFacts.axisOk_below _ _ _ H)
            | rewrite (CoordinatesFacts.axisOk_above _ _ _ H) ];
      rewrite ?andb_false_r; reflexivity.
  - exact CoordinatesFacts.validateLandmarks_accepts.
Qed.

(** 468 copies of the in-range point [(0.5, 0.5, 0)] are accepted, and the
    same sequence with one NaN coordinate, or with [x = 1.5], is rejected. *)
Lemma validateLandmarks_verdicts_witness :
  validateLandmarks (repeat (mkPoint 0.5 0.5 0) 468) = true /\
  validateLandmarks (mkPoint nan 0.5 0 :: repeat (mkPoint 0.5 0.5 0) 467) = false /\
  validateLandmarks (mkPoint 1.5 0.5 0 :: repeat (mkPoint 0.5 0.5 0) 467) = false /\
  validateLandmarks (mkPoint 0.5 0.5 (-2) :: repeat (mkPoint 0.5 0.5 0) 467) = false.
Proof.
  split; [| split; [| split]].
  - apply (proj2 (proj2 (proj2 (proj2 validateLandmarks_verdicts)))).
    + discriminate.
    + intros p Hp. apply repeat_spec in Hp. subst p.
      unfold inValidRange. simpl. repeat split; reflexivity.
  - apply (proj1 (proj2 validateLandmarks_verdicts) _ (mkPoint nan 0.5 0)).
    + left. reflexivity.
    + left. reflexivity.
  - apply (proj1 (proj2 (proj2 validateLandmarks_verdicts)) _ (mkPoint 1.5 0.5 0)).
    + left. reflexivity.
    + right. left. reflexivity.
  - apply (proj1 (proj2 (proj2 (proj2 validateLandmarks_verdicts))) _
             (mkPoint 0.5 0.5 (-2))).
    + left. reflexivity.
    + left. reflexivity.
Defined.

(** C6 (as amended).  [calculateOptimalFaceScale] returns exactly
    [targetSize] for every sequence whose points are all the same point,
    and more generally whenever the larger of the bounding-box width and
    height is not above zero; when it is above zero the result is
    [targetSize] divided by it. *)
Theorem calculateOptimalFaceScale_cases :
  (forall p landmarks targetSize,
     Forall (fun q => q = p) landmarks ->
     calculateOptimalFaceScale landmarks targetSize = targetSize) /\
  (forall landmarks targetSize,
     let bbox := calculateFaceBoundingBox landmarks in
     let maxDimension := JS.Math_max (width bbox) (height bbox) in
     (JS.gtb maxDimension 0 = false ->
      calculateOptimalFaceScale landmarks targetSize = targetSize) /\
     (JS.gtb maxDimension 0 = true ->
      calculateOptimalFaceScale landmarks targetSize = targetSize / maxDimension)).
Proof.
  split.
  - exact CoordinatesFacts.scale_of_equal_points.
  - intros landmarks targetSize bbox maxDimension.
    unfold calculateOptimalFaceScale. fold bbox. fold maxDimension.
    split; intros ->; reflexivity.
Qed.

(** Three equal points give [targetSize]; two points 0.25 apart in [x]
    give [targetSize / 0.25]. *)
Lemma calculateOptimalFaceScale_cases_witness :
  calculateOptimalFaceScale (repeat (mkPoint 0.5 0.5 0) 3) 2 = 2 /\
  calculateOptimalFaceScale [mkPoint 0.25 0.5 0; mkPoint 0.5 0.5 1] 2 = 2 / 0.25.
Proof.
  split.
  - apply (proj1 calculateOptimalFaceScale_cases (mkPoint 0.5 0.5 0)).
    repeat constructor.
  - exact (proj2 (proj2 calculateOptimalFaceScale_cases
                    [mkPoint 0.25 0.5 0; mkPoint 0.5 0.5 1] 2) eq_refl).
Defined.

(** C6, as stated, fails: two points that differ only in [z] are not all
    the same point, yet the width and height are zero and the result is
    [targetSize], not [targetSize] divided by the larger dimension (which
    would be [2 / 0 = Infinity]). *)
Lemma calculateOptimalFaceScale_depth_only_counterexample :
  let a := mkPoint 0.5 0.5 0 in
  let b := mkPoint 0.5 0.5 1 in
  let bbox := calculateFaceBoundingBox [a; b] in
  (z a =? z b) = false /\
  width bbox = 0 /\ height bbox = 0 /\
  calculateOptimalFaceScale [a; b] 2 = 2 /\
  2 / JS.Math_max (width bbox) (height bbox) = infinity.
Proof.
  cbv zeta. repeat split; vm_compute; reflexivity.
Qed.

(** C10.  On the empty sequence [calculateFaceBoundingBox] yields the
    infinite bounds it started from, and [calculateOptimalFaceScale]
    returns exactly [targetSize]: the larger dimension is [-Infinity], which
    is not above zero, so nothing is divided. *)
Theorem calculateOptimalFaceScale_empty :
  forall targetSize : float,
    calculateOptimalFaceScale [] targetSize = targetSize /\
    minX (calculateFaceBoundingBox []) = infinity /\
    maxX (calculateFaceBoundingBox []) = neg_infinity /\
    minY (calculateFaceBoundingBox []) = infinity /\
    maxY (calculateFaceBoundingBox []) = neg_infinity /\
    width (calculateFaceBoundingBox []) = neg_infinity /\
    height (calculateFaceBoundingBox []) = neg_infinity.
Proof.
  intros targetSize. repeat split; reflexivity.
Qed.

End CoordinateClaims.

(** ** Claims about the triangulation table *)

Section TriangulationClaims.
Import Triangulation.
Local Open Scope Z_scope.

(** C4.  [validateTriangles] returns false whenever some index of the list
    is at or above [landmarkCount]; on the flattened static table it returns
    false for [landmarkCount = 10] and true for [landmarkCount = 468]. *)
Theorem validateTriangles_bounds :
  (forall triangles landmarkCount index,
     In index triangles -> index >= landmarkCount ->
     validateTriangles triangles landmarkCount = false) /\
  validateTriangles getFaceTriangles 10 = false /\
  validateTriangles getFaceTriangles 468 = true.
Proof.
  split; [| split; vm_compute; reflexivity].
  intros triangles landmarkCount index Hin Hge.
  apply not_true_is_false. unfold validateTriangles. intros Hall.
  rewrite forallb_forall in Hall. specialize (Hall index Hin).
  apply andb_true_iff in Hall. destruct Hall as [_ Hlt].
  apply Z.ltb_lt in Hlt. lia.
Qed.

(** Index 61, the first of the table, is not below 10. *)
Lemma validateTriangles_bounds_witness :
  validateTriangles getFaceTriangles 10 = false.
Proof.
  apply (proj1 validateTriangles_bounds getFaceTriangles 10 61).
  - vm_compute. left. reflexivity.
  - vm_compute. discriminate.
Defined.

End TriangulationClaims.

(** ** The two mask builders *)

Module MaskFacts.
Import Coordinates.
Local Open Scope float_scope.

Lemma pixelAt_defined (lm : list Landmark) (W H : float) (indices : list nat) :
  Forall (fun i => (i < length lm)%nat) indices ->
  exists vs, map (MaskCompositor.pixelAt lm W H) indices = map Some vs.
Proof.
  induction 1 as [| i rest Hi _ [vs IH]].
  - exists []. reflexivity.
  - apply nth_error_Some in Hi.
    destruct (nth_error lm i) as [p |] eqn:E; [| congruence].
    exists ((x p * W, y p * H) :: vs). simpl. rewrite IH.
    unfold MaskCompositor.pixelAt. rewrite E. reflexivity.
Qed.

Lemma indices_in_range (lm : list Landmark) (indices : list nat) :
  (468 <= length lm)%nat ->
  forallb (fun i => (i <? 468)%nat) indices = true ->
  Forall (fun i => (i < length lm)%nat) indices.
Proof.
  intros Hlen Hall. apply Forall_forall. intros i Hi.
  rewrite forallb_forall in Hall. specialize (Hall i Hi).
  apply Nat.ltb_lt in Hall. lia.
Qed.

(** The [for] loop of [addHoleCCW]: from index [length pre] on, it appends
    one [lineTo] per remaining entry. *)
Lemma addHoleCCW_loop (lm : list Landmark) (W H : float) :
  forall (rest pre : list nat) (acc : MaskCompositor.Path2D) vs,
    map (MaskCompositor.pixelAt lm W H) rest = map Some vs ->
    fold_left
      (fun acc i =>
         path <- acc ;;
         ri <- nth_error (pre ++ rest) i ;;
         p <- nth_error lm ri ;;
         Some (path ++ [MaskCompositor.lineTo (x p * W) (y p * H)]))
      (seq (length pre) (length rest)) (Some acc)
    = Some (acc ++ map (fun v => MaskCompositor.lineTo (fst v) (snd v)) vs).
Proof.
  induction rest as [| r rest IH]; intros pre acc vs Hvs.
  - destruct vs; [| discriminate]. simpl. now rewrite app_nil_r.
  - destruct vs as [| v vs]; [discriminate |].
    simpl in Hvs. injection Hvs as Hv Hrest.
    unfold MaskCompositor.pixelAt, Throwing.bind in Hv.
    destruct (nth_error lm r) as [p |] eqn:Ep; [| discriminate].
    injection Hv as <-.
    assert (Hsplit : pre ++ r :: rest = (pre ++ [r]) ++ rest)
      by (rewrite <- app_assoc; reflexivity).
    rewrite Hsplit. simpl seq.
    match goal with |- fold_left ?f _ _ = _ => set (step := f) end.
    change (fold_left step (seq (S (length pre)) (length rest))
                      (step (Some acc) (length pre)) = Some (acc ++ map (fun v => MaskCompositor.lineTo (fst v) (snd v)) ((x p * W, y p * H) :: vs))).
    assert (Hstep : step (Some acc) (length pre)
                    = Some (acc ++ [MaskCompositor.lineTo (x p * W) (y p * H)])).
    { subst step. cbv beta. unfold Throwing.bind.
      rewrite <- Hsplit, nth_error_app2 by lia.
      rewrite Nat.sub_diag. simpl. rewrite Ep. reflexivity. }
    rewrite Hstep. subst step.
    replace (S (length pre)) with (length (pre ++ [r]))
      by (rewrite length_app; simpl; lia).
    rewrite (IH (pre ++ [r]) _ vs Hrest).
    rewrite <- app_assoc. reflexivity.
Qed.

(** [addHoleCCW] appends one closed sub-path whose vertices are the pixel
    positions of the indices read backwards. *)
Lemma addHoleCCW_appends (path : MaskCompositor.Path2D) (indices : list nat)
    (lm : list Landmark) (W H : float) (vs : list (float * float)) :
  indices <> [] ->
  map (MaskCompositor.pixelAt lm W H) (rev indices) = map Some vs ->
  MaskCompositor.addHoleCCW path indices lm W H
  = Some (path ++ MaskCompositor.closedSubPath vs).
Proof.
  intros Hne Hvs. unfold MaskCompositor.addHoleCCW.
  destruct (rev indices) as [| r0 rest] eqn:Er.
  - apply (f_equal (@rev nat)) in Er. rewrite rev_involutive in Er. contradiction.
  - destruct vs as [| [vx vy] vs]; [discriminate |].
    simpl in Hvs. injection Hvs as Hv Hrest.
    unfold MaskCompositor.pixelAt, Throwing.bind in Hv.
    destruct (nth_error lm r0) as [p0 |] eqn:Ep; [| discriminate].
    injection Hv as <- <-.
    simpl nth_error. unfold Throwing.bind at 1 2. rewrite Ep.
    replace (length (r0 :: rest) - 1)%nat with (length rest) by (simpl; lia).
    pose proof (addHoleCCW_loop lm W H rest [r0]
                  (path ++ [MaskCompositor.moveTo (x p0 * W) (y p0 * H)]) vs Hrest)
      as Hloop.
    simpl length in Hloop. change ([r0] ++ rest) with (r0 :: rest) in Hloop.
    match goal with
    | |- Throwing.bind ?m _ = _ =>
        replace m with
          (Some ((path ++ [MaskCompositor.moveTo (x p0 * W) (y p0 * H)]) ++
                 map (fun v => MaskCompositor.lineTo (fst v) (snd v)) vs))
          by (symmetry; exact Hloop)
    end.
    simpl. rewrite <- !app_assoc. reflexivity.
Qed.

Lemma vertices_closedSubPath (vs : list (float * float)) :
  MaskCompositor.vertices (MaskCompositor.closedSubPath vs) = vs.
Proof.
  destruct vs as [| [vx vy] rest]; [reflexivity |].
  unfold MaskCompositor.closedSubPath, MaskCompositor.vertices. simpl.
  f_equal. rewrite flat_map_app. simpl. rewrite app_nil_r.
  induction rest as [| [a b] rest IH]; simpl; [reflexivity | now rewrite IH].
Qed.

Lemma eyePoint_pixelAt (lm : list Landmark) (W H : float) (indices : list nat) :
  Forall (fun i => (i < length lm)%nat) indices ->
  map Some (map (MaskProcessor.eyePoint lm W H) indices)
  = map (MaskCompositor.pixelAt lm W H) indices.
Proof.
  induction 1 as [| i rest Hi _ IH]; [reflexivity |].
  simpl. rewrite IH. f_equal.
  unfold MaskProcessor.eyePoint, MaskCompositor.pixelAt.
  apply nth_error_Some in Hi.
  destruct (nth_error lm i); [reflexivity | congruence].
Qed.

Lemma lookup_defined (lm : list Landmark) (i : nat) :
  (468 <= length lm)%nat -> (i <? 468)%nat = true ->
  exists p, nth_error lm i = Some p.
Proof.
  intros Hlen Hi. apply Nat.ltb_lt in Hi.
  destruct (nth_error lm i) as [p |] eqn:E; [eauto |].
  apply nth_error_None in E. lia.
Qed.

(** A run of calls lengthens the path by all of them, unless one throws. *)
Lemma draw_spec (calls : MaskCompositor.Path2D) :
  forall path,
    MaskCompositor.draw path calls
    = if existsb MaskCompositor.throws calls then None
      else Some (path ++ calls).
Proof.
  induction calls as [| c rest IH]; intros path; cbn [MaskCompositor.draw existsb].
  - now rewrite app_nil_r.
  - destruct (MaskCompositor.throws c); [reflexivity |].
    rewrite IH. cbn [orb]. rewrite <- app_assoc. reflexivity.
Qed.

Lemma lookup_at (lm : list Landmark) (i : nat) :
  (i < length lm)%nat -> nth_error lm i = Some (MaskCompositor.landmarkAt lm i).
Proof. intros Hi. apply nth_error_nth'. exact Hi. Qed.

Lemma below_length (n : nat) (indices : list nat) (lm : list Landmark) :
  (n <= length lm)%nat ->
  forallb (fun i => (i <? n)%nat) indices = true ->
  Forall (fun i => (i < length lm)%nat) indices.
Proof.
  intros Hlen Hall. apply Forall_forall. intros i Hi.
  rewrite forallb_forall in Hall. specialize (Hall i Hi).
  apply Nat.ltb_lt in Hall. lia.
Qed.

Lemma hole_vertices (lm : list Landmark) (W H : float) (indices : list nat) :
  Forall (fun i => (i < length lm)%nat) indices ->
  exists hole,
    map Some hole = map (MaskCompositor.pixelAt lm W H) (rev indices).
Proof.
  intros Hall.
  destruct (pixelAt_defined lm W H (rev indices)) as [hole Hhole]; [| eauto].
  apply Forall_forall. intros i Hi. apply in_rev in Hi.
  rewrite Forall_forall in Hall. auto.
Qed.

(** With the 467 landmarks it reads, [buildMaskPath] throws if one of the
    outline calls or the mouth call throws, and otherwise returns the
    outline, the two eye holes and the mouth ellipse. *)
Lemma buildMaskPath_spec (lm : list Landmark) (W H : float) :
  (467 <= length lm)%nat ->
  exists leftHole rightHole,
    MaskCompositor.buildMaskPath lm W H
    = (if existsb MaskCompositor.throws
            (MaskCompositor.outlineOf lm W H ++ [MaskCompositor.mouthOf lm W H])
       then None
       else Some (MaskCompositor.outlineOf lm W H
                    ++ MaskCompositor.closedSubPath leftHole
                    ++ MaskCompositor.closedSubPath rightHole
                    ++ [MaskCompositor.mouthOf lm W H])) /\
    map Some leftHole
      = map (MaskCompositor.pixelAt lm W H) (rev MaskCompositor.LEFT_EYE) /\
    map Some rightHole
      = map (MaskCompositor.pixelAt lm W H) (rev MaskCompositor.RIGHT_EYE).
Proof.
  intros Hlen.
  destruct (hole_vertices lm W H MaskCompositor.LEFT_EYE) as [leftHole Hl];
    [apply (below_length 467); [exact Hlen | reflexivity] |].
  destruct (hole_vertices lm W H MaskCompositor.RIGHT_EYE) as [rightHole Hr];
    [apply (below_length 467); [exact Hlen | reflexivity] |].
  exists leftHole, rightHole. split; [| split; assumption].
  unfold MaskCompositor.buildMaskPath, MaskCompositor.px, MaskCompositor.py.
  rewrite (lookup_at lm MaskCompositor.LM_TOP_HEAD)
    by (unfold MaskCompositor.LM_TOP_HEAD; lia).
  rewrite (lookup_at lm MaskCompositor.LM_CHIN)
    by (unfold MaskCompositor.LM_CHIN; lia).
  rewrite (lookup_at lm MaskCompositor.LM_LEFT_EAR)
    by (unfold MaskCompositor.LM_LEFT_EAR; lia).
  rewrite (lookup_at lm MaskCompositor.LM_RIGHT_EAR)
    by (unfold MaskCompositor.LM_RIGHT_EAR; lia).
  cbn [Throwing.bind].
  fold (MaskCompositor.outlineOf lm W H).
  rewrite draw_spec, existsb_app. cbn [existsb app].
  destruct (existsb MaskCompositor.throws (MaskCompositor.outlineOf lm W H));
    [reflexivity |].
  cbn [Throwing.bind orb].
  rewrite (addHoleCCW_appends _ MaskCompositor.LEFT_EYE lm W H leftHole)
    by (first [discriminate | symmetry; exact Hl]).
  cbn [Throwing.bind].
  rewrite (addHoleCCW_appends _ MaskCompositor.RIGHT_EYE lm W H rightHole)
    by (first [discriminate | symmetry; exact Hr]).
  cbn [Throwing.bind].
  rewrite (lookup_at lm (nth 0 MaskCompositor.MOUTH_PTS 0%nat)) by (simpl; lia).
  rewrite (lookup_at lm (nth 1 MaskCompositor.MOUTH_PTS 0%nat)) by (simpl; lia).
  rewrite (lookup_at lm (nth 2 MaskCompositor.MOUTH_PTS 0%nat)) by (simpl; lia).
  rewrite (lookup_at lm (nth 3 MaskCompositor.MOUTH_PTS 0%nat)) by (simpl; lia).
  cbn [Throwing.bind].
  fold (MaskCompositor.mouthOf lm W H).
  rewrite draw_spec. cbn [existsb].
  destruct (MaskCompositor.throws (MaskCompositor.mouthOf lm W H));
    [reflexivity |].
  cbn [orb]. rewrite <- !app_assoc. reflexivity.
Qed.

End MaskFacts.

(** ** Claims about the mask builders *)

Section MaskClaims.
Import Coordinates.
Local Open Scope float_scope.

(** C2.  Given at least 468 landmarks: [addHoleCCW] appends, for any
    cutout, one closed sub-path whose vertices are the pixel positions
    [{lm[idx].x * W, lm[idx].y * H}] of the cutout indices read in reverse;
    [buildMaskPath] throws if one of its outline calls or its mouth call
    throws (a negative radius), and otherwise its path is the outline, then
    the left-eye and right-eye holes built that way, then the mouth
    ellipse; and the two polygons of [generateMaskBuffer] carry the same
    pixel positions in the stored order. *)
Theorem eye_hole_vertex_order :
  forall (lm : list Landmark) (W H : float),
    (468 <= length lm)%nat ->
    (forall path indices,
       indices <> [] ->
       forallb (fun i => (i <? 468)%nat) indices = true ->
       exists hole,
         MaskCompositor.addHoleCCW path indices lm W H
           = Some (path ++ MaskCompositor.closedSubPath hole) /\
         MaskCompositor.vertices (MaskCompositor.closedSubPath hole) = hole /\
         map Some hole = map (MaskCompositor.pixelAt lm W H) (rev indices)) /\
    (exists leftHole rightHole,
       MaskCompositor.buildMaskPath lm W H
         = (if existsb MaskCompositor.throws
                 (MaskCompositor.outlineOf lm W H
                    ++ [MaskCompositor.mouthOf lm W H])
            then None
            else Some (MaskCompositor.outlineOf lm W H
                         ++ MaskCompositor.closedSubPath leftHole
                         ++ MaskCompositor.closedSubPath rightHole
                         ++ [MaskCompositor.mouthOf lm W H])) /\
       MaskCompositor.vertices (MaskCompositor.closedSubPath leftHole) = leftHole /\
       MaskCompositor.vertices (MaskCompositor.closedSubPath rightHole) = rightHole /\
       map Some leftHole
         = map (MaskCompositor.pixelAt lm W H) (rev MaskCompositor.LEFT_EYE) /\
       map Some rightHole
         = map (MaskCompositor.pixelAt lm W H) (rev MaskCompositor.RIGHT_EYE)) /\
    (exists leftEye rightEye,
       MaskProcessor.polygons (MaskProcessor.generateMaskBuffer lm W H)
         = [leftEye; rightEye] /\
       map Some leftEye
         = map (MaskCompositor.pixelAt lm W H) MaskProcessor.LEFT_EYE /\
       map Some rightEye
         = map (MaskCompositor.pixelAt lm W H) MaskProcessor.RIGHT_EYE).
Proof.
  intros lm W H Hlen. split; [| split].
  - intros path indices Hne Hall.
    assert (Hrev : forallb (fun i => (i <? 468)%nat) (rev indices) = true).
    { apply forallb_forall. intros i Hi. apply in_rev in Hi.
      rewrite forallb_forall in Hall. auto. }
    destruct (MaskFacts.pixelAt_defined lm W H (rev indices)
                (MaskFacts.indices_in_range lm _ Hlen Hrev)) as [hole Hhole].
    exists hole. split; [| split].
    + apply MaskFacts.addHoleCCW_appends; assumption.
    + apply MaskFacts.vertices_closedSubPath.
    + symmetry. exact Hhole.
  - destruct (MaskFacts.buildMaskPath_spec lm W H ltac:(lia))
      as (leftHole & rightHole & E & Hl & Hr).
    exists leftHole, rightHole.
    split; [exact E |].
    split; [apply MaskFacts.vertices_closedSubPath |].
    split; [apply MaskFacts.vertices_closedSubPath |].
    split; assumption.
  - exists (map (MaskProcessor.eyePoint lm W H) MaskProcessor.LEFT_EYE),
           (map (MaskProcessor.eyePoint lm W H) MaskProcessor.RIGHT_EYE).
    split; [reflexivity |].
    split; apply MaskFacts.eyePoint_pixelAt;
      apply (MaskFacts.indices_in_range lm _ Hlen); reflexivity.
Qed.

(** The diagonal face at 512 x 512, where landmark [i] has the pixel
    [(i, i)]: no call throws, the left-eye hole starts at the pixels of
    landmarks 7, 163, 144, the left-eye polygon at those of 33, 246, 161. *)
Lemma eye_hole_vertex_order_witness :
  (exists leftHole rightHole,
     MaskCompositor.buildMaskPath Fixtures.diagonalFace 512 512
       = Some (MaskCompositor.outlineOf Fixtures.diagonalFace 512 512
                 ++ MaskCompositor.closedSubPath leftHole
                 ++ MaskCompositor.closedSubPath rightHole
                 ++ [MaskCompositor.mouthOf Fixtures.diagonalFace 512 512]) /\
     map Some leftHole
       = map (MaskCompositor.pixelAt Fixtures.diagonalFace 512 512)
             (rev MaskCompositor.LEFT_EYE) /\
     map Some rightHole
       = map (MaskCompositor.pixelAt Fixtures.diagonalFace 512 512)
             (rev MaskCompositor.RIGHT_EYE)) /\
  (exists leftEye rightEye,
     MaskProcessor.polygons
       (MaskProcessor.generateMaskBuffer Fixtures.diagonalFace 512 512)
       = [leftEye; rightEye] /\
     map Some leftEye
       = map (MaskCompositor.pixelAt Fixtures.diagonalFace 512 512)
             MaskProcessor.LEFT_EYE /\
     map Some rightEye
       = map (MaskCompositor.pixelAt Fixtures.diagonalFace 512 512)
             MaskProcessor.RIGHT_EYE) /\
  firstn 3 (map (MaskCompositor.pixelAt Fixtures.diagonalFace 512 512)
                (rev MaskCompositor.LEFT_EYE))
    = [Some (7, 7); Some (163, 163); Some (144, 144)] /\
  firstn 3 (map (MaskCompositor.pixelAt Fixtures.diagonalFace 512 512)
                MaskProcessor.LEFT_EYE)
    = [Some (33, 33); Some (246, 246); Some (161, 161)].
Proof.
  destruct (eye_hole_vertex_order Fixtures.diagonalFace 512 512)
    as (_ & (leftHole & rightHole & E & _ & _ & Hl & Hr) & Hsvg).
  { apply Nat.leb_le. vm_compute. reflexivity. }
  split; [| split; [exact Hsvg | split; vm_compute; reflexivity]].
  exists leftHole, rightHole. split; [| split; assumption].
  rewrite E.
  replace (existsb MaskCompositor.throws
             (MaskCompositor.outlineOf Fixtures.diagonalFace 512 512
                ++ [MaskCompositor.mouthOf Fixtures.diagonalFace 512 512]))
    with false by (vm_compute; reflexivity).
  reflexivity.
Defined.

(** The floor of [Math.max(a, lo)]: the result is a number only if it is at
    least [lo]. *)
Lemma Math_max_floor (a lo : float) :
  is_nan (JS.Math_max a lo) = false -> (lo <=? JS.Math_max a lo) = true.
Proof.
  unfold JS.Math_max.
  destruct (is_nan a) eqn:Ha; [discriminate |].
  destruct (is_nan lo) eqn:Hlo; [discriminate |]. simpl orb. cbv iota.
  destruct (a <? lo) eqn:E1.
  - intros _. apply FloatFacts.leb_refl, Hlo.
  - destruct (lo <? a) eqn:E2.
    + intros _. apply FloatFacts.ltb_leb, E2.
    + destruct (classify a); intros _;
        first [ apply FloatFacts.leb_refl, Hlo
              | apply FloatFacts.not_ltb_leb; assumption ].
Qed.

(** C5.  The raw-SVG builder floors both mouth radii at 10: each radius is
    at least 10 unless it is NaN.  The canvas-path builder passes
    the scaled landmark distances to [ellipse] as they are: on the
    closed-mouth face, which passes [validateLandmarks], at 512 x 512 its
    radii are [(0, 0)] where the SVG builder gives [(10, 10)]. *)
Theorem mouth_radii_floor_only_in_svg_builder :
  (forall lm W H,
     exists rx ry,
       MaskProcessor.ellipseRadii (MaskProcessor.generateMaskBuffer lm W H)
         = [(rx, ry)] /\
       (is_nan rx = true \/ (10 <=? rx) = true) /\
       (is_nan ry = true \/ (10 <=? ry) = true)) /\
  validateLandmarks Fixtures.closedMouthFace = true /\
  option_map MaskCompositor.ellipseRadii
    (MaskCompositor.buildMaskPath Fixtures.closedMouthFace 512 512)
    = Some [(0, 0)] /\
  MaskProcessor.ellipseRadii
    (MaskProcessor.generateMaskBuffer Fixtures.closedMouthFace 512 512)
    = [(10, 10)].
Proof.
  split.
  - intros lm W H. unfold MaskProcessor.generateMaskBuffer. cbv zeta.
    eexists _, _. split; [reflexivity |].
    split;
      match goal with
      | |- is_nan ?r = true \/ _ =>
          destruct (is_nan r) eqn:E; [left; reflexivity | right];
          apply Math_max_floor, E
      end.
  - repeat split; vm_compute; reflexivity.
Qed.

End MaskClaims.

(** ** The texture cache *)

Module CacheFacts.
Import TextureGenerator.
Local Open Scope Z_scope.


Lemma Map_delete_length_le (key : string) (m : EntryMap) :
  (length (Map_delete key m) <= length m)%nat.
Proof.
  induction m as [| [k e] rest IH]; simpl; [lia |].
  destruct (String.eqb k key); simpl; lia.
Qed.

Lemma Map_delete_length (key : string) (m : EntryMap) :
  In key (map fst m) -> S (length (Map_delete key m)) = length m.
Proof.
  induction m as [| [k e] rest IH]; simpl; [tauto |].
  intros [Hk | Hin].
  - subst k. rewrite String.eqb_refl. reflexivity.
  - destruct (String.eqb k key); [reflexivity |]. simpl. now rewrite IH.
Qed.


Lemma Map_get_absent (key : string) (m : EntryMap) :
  ~ In key (map fst m) -> Map_get key m = None.
Proof.
  induction m as [| [k e] rest IH]; simpl; intros Hnot; [reflexivity |].
  destruct (String.eqb_spec k key) as [-> | _]; [tauto |]. apply IH. tauto.
Qed.

Lemma in_insertByTimestamp (a b : string * Entry) (sorted : EntryMap) :
  In b (insertByTimestamp a sorted) <-> b = a \/ In b sorted.
Proof.
  induction sorted as [| c rest IH]; simpl.
  - intuition.
  - destruct (timestamp (snd a) - timestamp (snd c) <=? 0); simpl;
      [intuition | rewrite IH; intuition].
Qed.

Lemma in_sortByTimestamp (b : string * Entry) (entries : EntryMap) :
  In b (sortByTimestamp entries) <-> In b entries.
Proof.
  induction entries as [| a rest IH]; simpl; [tauto |].
  rewrite in_insertByTimestamp, IH. intuition.
Qed.

(** The key [set] evicts is a key of the map. *)
Lemma oldestKey_in (cache : EntryMap) (k : string) :
  oldestKey cache = Some k -> In k (map fst cache).
Proof.
  unfold oldestKey. destruct (sortByTimestamp cache) as [| [k' e] rest] eqn:E;
    [discriminate |].
  intros [= <-]. apply in_map_iff. exists (k', e). split; [reflexivity |].
  apply in_sortByTimestamp. rewrite E. left. reflexivity.
Qed.



Lemma get_never_grows (cache : EntryMap) (key : string) (now : Z) :
  (Map_size (fst (TextureCache_get cache key now)) <= Map_size cache)%nat.
Proof.
  unfold TextureCache_get, Map_size.
  destruct (Map_get key cache) as [entry |]; simpl; [| lia].
  destruct (now - timestamp entry >? ttl); simpl; [| lia].
  apply Map_delete_length_le.
Qed.


Lemma distinct_NoDup (keys : list string) : distinct keys = true -> NoDup keys.
Proof.
  induction keys as [| k rest IH]; simpl; intros H; [constructor |].
  apply andb_true_iff in H. destruct H as [Hk Hrest].
  constructor; [| auto].
  intros Hin. apply negb_true_iff in Hk.
  assert (existsb (String.eqb k) rest = true); [| congruence].
  apply existsb_exists. exists k. split; [exact Hin | apply String.eqb_refl].
Qed.




End CacheFacts.

(** *** The keys of the map *)

Module CacheMapFacts.
Import TextureGenerator.
Local Open Scope Z_scope.

Lemma Map_get_set_same (key : string) (e : Entry) (m : EntryMap) :
  Map_get key (Map_set key e m) = Some e.
Proof.
  induction m as [| [k e'] rest IH]; simpl.
  - now rewrite String.eqb_refl.
  - destruct (String.eqb k key) eqn:E; simpl; rewrite E; [reflexivity | exact IH].
Qed.

Lemma Map_get_set_other (k key : string) (e : Entry) (m : EntryMap) :
  k <> key -> Map_get k (Map_set key e m) = Map_get k m.
Proof.
  intros Hne. induction m as [| [k' e'] rest IH]; simpl.
  - destruct (String.eqb_spec key k); [congruence | reflexivity].
  - destruct (String.eqb_spec k' key) as [-> | Hk']; simpl.
    + destruct (String.eqb_spec key k); [congruence | reflexivity].
    + destruct (String.eqb k' k); [reflexivity | exact IH].
Qed.

Lemma keys_after_delete (key k : string) (m : EntryMap) :
  In k (map fst (Map_delete key m)) -> In k (map fst m).
Proof.
  induction m as [| [k' e] rest IH]; simpl; [tauto |].
  destruct (String.eqb k' key); simpl; tauto.
Qed.

Lemma delete_keeps_unique (key : string) (m : EntryMap) :
  NoDup (map fst m) -> NoDup (map fst (Map_delete key m)).
Proof.
  induction m as [| [k e] rest IH]; simpl; intros Hnd; [constructor |].
  apply NoDup_cons_iff in Hnd. destruct Hnd as [Hk Hrest].
  destruct (String.eqb k key); [exact Hrest |]. simpl.
  constructor; [| auto]. intros Hin. apply Hk. eapply keys_after_delete, Hin.
Qed.

Lemma keys_after_set (key k : string) (e : Entry) (m : EntryMap) :
  In k (map fst (Map_set key e m)) <-> k = key \/ In k (map fst m).
Proof.
  induction m as [| [k' e'] rest IH]; simpl.
  - intuition.
  - destruct (String.eqb_spec k' key) as [-> | Hne]; simpl.
    + intuition.
    + rewrite IH. intuition.
Qed.

Lemma set_keeps_unique_map (key : string) (e : Entry) (m : EntryMap) :
  NoDup (map fst m) -> NoDup (map fst (Map_set key e m)).
Proof.
  induction m as [| [k e'] rest IH]; simpl; intros Hnd.
  - constructor; [tauto | constructor].
  - apply NoDup_cons_iff in Hnd. destruct Hnd as [Hk Hrest].
    destruct (String.eqb_spec k key) as [-> | Hne]; simpl.
    + constructor; assumption.
    + constructor; [| auto]. rewrite keys_after_set. intros [-> | Hin]; tauto.
Qed.

Lemma Map_get_delete_same (key : string) (m : EntryMap) :
  NoDup (map fst m) -> Map_get key (Map_delete key m) = None.
Proof.
  induction m as [| [k e] rest IH]; simpl; intros Hnd; [reflexivity |].
  apply NoDup_cons_iff in Hnd. destruct Hnd as [Hk Hrest].
  destruct (String.eqb_spec k key) as [-> | Hne].
  - apply CacheFacts.Map_get_absent, Hk.
  - simpl. destruct (String.eqb_spec k key); [congruence | auto].
Qed.

Lemma Map_get_delete_other (k key : string) (m : EntryMap) :
  k <> key -> Map_get k (Map_delete key m) = Map_get k m.
Proof.
  intros Hne. induction m as [| [k' e] rest IH]; simpl; [reflexivity |].
  destruct (String.eqb_spec k' key) as [-> | Hk']; simpl.
  - destruct (String.eqb_spec key k); [congruence | reflexivity].
  - destruct (String.eqb k' k); [reflexivity | exact IH].
Qed.

Lemma Map_get_present (key : string) (m : EntryMap) :
  In key (map fst m) -> exists e, Map_get key m = Some e.
Proof.
  induction m as [| [k e] rest IH]; simpl; [tauto |].
  destruct (String.eqb_spec k key) as [-> | Hne]; [eauto |].
  intros [Hk | Hin]; [congruence | auto].
Qed.

Lemma Map_get_in_keys (key : string) (m : EntryMap) (e : Entry) :
  Map_get key m = Some e -> In key (map fst m).
Proof.
  induction m as [| [k e'] rest IH]; simpl; [discriminate |].
  destruct (String.eqb_spec k key) as [-> | Hne]; [tauto | auto].
Qed.

Lemma Map_set_length_present (key : string) (e : Entry) (m : EntryMap) :
  In key (map fst m) -> length (Map_set key e m) = length m.
Proof.
  induction m as [| [k e'] rest IH]; simpl; [tauto |].
  destruct (String.eqb_spec k key) as [-> | Hne]; [reflexivity |].
  intros [Hk | Hin]; [congruence |]. simpl. now rewrite IH.
Qed.

Lemma set_keeps_unique (cache : EntryMap) (key : string)
    (value : TextureGenerationResponse) (now : Z) :
  NoDup (map fst cache) ->
  NoDup (map fst (TextureCache_set cache key value now)).
Proof.
  intros Hnd. unfold TextureCache_set. apply set_keeps_unique_map.
  destruct (maxSize <=? Map_size cache)%nat; [| exact Hnd].
  destruct (oldestKey cache); [apply delete_keeps_unique, Hnd | exact Hnd].
Qed.

Lemma get_after_set (cache : EntryMap) (key : string)
    (value : TextureGenerationResponse) (now : Z) :
  Map_get key (TextureCache_set cache key value now) = Some (mkEntry value now).
Proof. unfold TextureCache_set. apply Map_get_set_same. Qed.




End CacheMapFacts.

(** ** Claims about the texture cache and the generator *)

Section GeneratorClaims.
Import TextureGenerator.
Local Open Scope Z_scope.




(** C8 (as amended).  While a generation is outstanding, a [generate]
    request whose key has no unexpired cache entry is rejected at once with
    the error "Generation already in progress": nothing is queued, the flag
    stays set, and the cache is unchanged except that an expired entry of
    that key is deleted.  A request whose key has an unexpired entry is
    served from the cache, and the generator is unchanged. *)
Theorem generate_while_in_flight :
  forall g request now,
    isGenerating g = true ->
    match Map_get (generateKey request) (cache g) with
    | None =>
        generate g request now
          = (g, Rejected "Generation already in progress")
    | Some entry =>
        if now - timestamp entry >? ttl
        then generate g request now
               = (mkGenerator (Map_delete (generateKey request) (cache g)) true,
                  Rejected "Generation already in progress")
        else generate g request now = (g, Resolved (data entry))
    end.
Proof.
  intros [c flag] request now Hflag. simpl in Hflag. subst flag.
  unfold generate, TextureCache_get. cbn [cache isGenerating].
  destruct (Map_get (generateKey request) c) as [entry |]; [| reflexivity].
  destruct (now - timestamp entry >? ttl); reflexivity.
Qed.

(** A busy generator with an empty cache rejects the request and stays as
    it was. *)
Lemma generate_while_in_flight_witness :
  generate (mkGenerator [] true) (sampleRequest 0) 2000
    = (mkGenerator [] true, Rejected "Generation already in progress").
Proof.
  exact (generate_while_in_flight (mkGenerator [] true) (sampleRequest 0) 2000
           eq_refl).
Defined.

(** C8, as stated, fails: with the request's key cached one second ago, a
    request made while a generation is outstanding is resolved from the
    cache instead of failing; and a day and a second later the rejected
    request has emptied the cache. *)
Lemma generate_cached_while_in_flight_counterexample :
  let g := mkGenerator [entryOf (sampleCall 0)] true in
  isGenerating g = true /\
  generate g (sampleRequest 0) 2000 = (g, Resolved sampleResponse) /\
  generate g (sampleRequest 0) (1000 + ttl + 1)
    = (mkGenerator [] true, Rejected "Generation already in progress").
Proof.
  cbv zeta. repeat split.
Qed.

End GeneratorClaims.

(** ** The prompt processor *)

Module PromptFacts.
Import PromptProcessor.
Local Open Scope string_scope.

Lemma denylist_clear (text : string) :
  existsb (fun word => includes text word) inappropriateWords = false <->
  (forall word, In word inappropriateWords -> includes text word = false).
Proof.
  split.
  - intros H word Hin. apply not_true_is_false. intros Hw.
    assert (existsb (fun word => includes text word) inappropriateWords = true);
      [| congruence].
    apply existsb_exists. eauto.
  - intros H. apply not_true_is_false. intros Hex.
    apply existsb_exists in Hex. destruct Hex as (word & Hin & Hw).
    rewrite (H word Hin) in Hw. discriminate.
Qed.

Lemma validatePrompt_valid (prompt : string) :
  validPhrase prompt -> validatePrompt prompt = mkValidation true None.
Proof.
  intros (Hmin & Hmax & Hclean). unfold validatePrompt.
  destruct (String.eqb_spec prompt "") as [-> | _].
  - unfold minLength in Hmin. simpl in Hmin. lia.
  - destruct (Nat.ltb_spec (String.length (trim prompt)) minLength); [lia |].
    destruct (Nat.ltb_spec maxLength (String.length (trim prompt))); [lia |].
    apply denylist_clear in Hclean. rewrite Hclean. reflexivity.
Qed.

Lemma validatePrompt_invalid (prompt : string) :
  ~ validPhrase prompt ->
  exists message,
    validatePrompt prompt = mkValidation false (Some message) /\
    In message validationMessages.
Proof.
  intros Hnot. unfold validatePrompt, validationMessages.
  destruct (String.eqb prompt ""); [eexists; split; [reflexivity | simpl; tauto] |].
  destruct (Nat.ltb_spec (String.length (trim prompt)) minLength);
    [eexists; split; [reflexivity | simpl; tauto] |].
  destruct (Nat.ltb_spec maxLength (String.length (trim prompt)));
    [eexists; split; [reflexivity | simpl; tauto] |].
  destruct (existsb (fun word => includes (toLowerCase (trim prompt)) word)
                    inappropriateWords) eqn:E;
    [eexists; split; [reflexivity | simpl; tauto] |].
  exfalso. apply Hnot. repeat split; try assumption.
  apply denylist_clear, E.
Qed.

(** Every selector value has a phrase in its table, and no phrase is
    empty. *)
Lemma style_phrase (s : Style) :
  exists v, lookup STYLE_PRESETS (styleKey s) = Some v /\ String.eqb v "" = false.
Proof. destruct s; eexists; split; reflexivity. Qed.

Lemma quality_phrase (q : Quality) :
  exists v, lookup QUALITY_PRESETS (qualityKey q) = Some v /\ String.eqb v "" = false.
Proof. destruct q; eexists; split; reflexivity. Qed.

Lemma lighting_phrase (l : Lighting) :
  exists v, lookup LIGHTING_PRESETS (lightingKey l) = Some v /\ String.eqb v "" = false.
Proof. destruct l; eexists; split; reflexivity. Qed.

Lemma material_phrase (m : Material) :
  exists v, lookup MATERIAL_PRESETS (materialKey m) = Some v /\ String.eqb v "" = false.
Proof. destruct m; eexists; split; reflexivity. Qed.

Lemma detail_phrase (d : DetailLevel) :
  exists v, lookup DETAIL_PRESETS (detailKey d) = Some v /\ String.eqb v "" = false.
Proof. destruct d; eexists; split; reflexivity. Qed.

Lemma trimmed_not_empty (prompt : string) :
  validPhrase prompt -> String.eqb (trim prompt) "" = false.
Proof.
  intros (Hmin & _). apply String.eqb_neq. intros E. rewrite E in Hmin.
  unfold minLength in Hmin. simpl in Hmin. lia.
Qed.

End PromptFacts.

Section PromptClaims.
Import PromptProcessor.
Local Open Scope string_scope.

(** C9 (as amended).  For a valid phrase [enhancePrompt] returns, as the
    enhanced prompt, the trimmed phrase, the style, quality, lighting,
    material and detail phrases that the config (or its defaults) selects
    from the preset tables, and the fixed closing phrase
    "mask, face mask, wearable art", joined by ", ".  For an invalid phrase
    it throws one of the four validation messages. *)
Theorem enhancePrompt_shape :
  forall prompt config,
    (validPhrase prompt ->
     exists stylePhrase qualityPhrase lightingPhrase materialPhrase detailPhrase,
       lookup STYLE_PRESETS
              (styleKey (orDefault (style config) style_realistic))
         = Some stylePhrase /\
       lookup QUALITY_PRESETS
              (qualityKey (orDefault (quality config) quality_high))
         = Some qualityPhrase /\
       lookup LIGHTING_PRESETS
              (lightingKey (orDefault (lighting config) lighting_studio))
         = Some lightingPhrase /\
       lookup MATERIAL_PRESETS
              (materialKey (orDefault (material config) material_metal))
         = Some materialPhrase /\
       lookup DETAIL_PRESETS
              (detailKey (orDefault (detailLevel config) detail_high))
         = Some detailPhrase /\
       enhancedText (enhancePrompt prompt config)
         = Some (trim prompt ++ ", " ++ stylePhrase ++ ", " ++ qualityPhrase
                   ++ ", " ++ lightingPhrase ++ ", " ++ materialPhrase
                   ++ ", " ++ detailPhrase
                   ++ ", " ++ "mask, face mask, wearable art")) /\
    (~ validPhrase prompt ->
     exists message,
       enhancePrompt prompt config = Thrown message /\
       In message validationMessages).
Proof.
  intros prompt config. split.
  - intros Hvalid.
    destruct (PromptFacts.style_phrase
                (orDefault (style config) style_realistic)) as (s & Hs & Hs').
    destruct (PromptFacts.quality_phrase
                (orDefault (quality config) quality_high)) as (q & Hq & Hq').
    destruct (PromptFacts.lighting_phrase
                (orDefault (lighting config) lighting_studio)) as (l & Hl & Hl').
    destruct (PromptFacts.material_phrase
                (orDefault (material config) material_metal)) as (m & Hm & Hm').
    destruct (PromptFacts.detail_phrase
                (orDefault (detailLevel config) detail_high)) as (d & Hd & Hd').
    exists s, q, l, m, d. repeat (split; [assumption |]).
    unfold enhancePrompt.
    rewrite (PromptFacts.validatePrompt_valid prompt Hvalid). cbn [valid negb].
    cbv zeta. rewrite Hs, Hq, Hl, Hm, Hd.
    unfold enhancedText, enhanced, truthy. cbn [flat_map].
    rewrite (PromptFacts.trimmed_not_empty prompt Hvalid), Hs', Hq', Hl', Hm', Hd'.
    reflexivity.
  - intros Hnot.
    destruct (PromptFacts.validatePrompt_invalid prompt Hnot) as (message & Hv & Hin).
    exists message. split; [| exact Hin].
    unfold enhancePrompt. rewrite Hv. reflexivity.
Qed.

(** The phrase of the source's own example, with the default config. *)
Lemma enhancePrompt_shape_witness :
  exists stylePhrase qualityPhrase lightingPhrase materialPhrase detailPhrase,
    lookup STYLE_PRESETS "realistic" = Some stylePhrase /\
    lookup QUALITY_PRESETS "high" = Some qualityPhrase /\
    lookup LIGHTING_PRESETS "studio" = Some lightingPhrase /\
    lookup MATERIAL_PRESETS "metal" = Some materialPhrase /\
    lookup DETAIL_PRESETS "high" = Some detailPhrase /\
    enhancedText
      (enhancePrompt " A golden mask with intricate patterns " defaultConfig)
      = Some ("A golden mask with intricate patterns" ++ ", " ++ stylePhrase
                ++ ", " ++ qualityPhrase ++ ", " ++ lightingPhrase
                ++ ", " ++ materialPhrase ++ ", " ++ detailPhrase
                ++ ", " ++ "mask, face mask, wearable art").
Proof.
  apply (proj1 (enhancePrompt_shape " A golden mask with intricate patterns "
                                    defaultConfig)).
  split; [| split].
  - vm_compute. lia.
  - vm_compute. lia.
  - intros word [<- | [<- | [<- | []]]]; vm_compute; reflexivity.
Defined.

(** C9, as stated, fails: the enhanced prompt is not the join of the six
    listed parts; the code appends a seventh, fixed part. *)
Lemma enhancePrompt_closing_phrase_counterexample :
  let prompt := "A golden mask with intricate patterns" in
  let sixParts :=
    join ", "
      [ prompt;
        "photorealistic, 4K, professional photography, detailed, high quality";
        "2048x2048 resolution, excellent quality, highly detailed";
        "studio lighting, professional lighting setup, key light, fill light";
        "metallic, shiny, reflective, polished metal";
        "intricate details, complex patterns, fine textures" ] in
  valid (validatePrompt prompt) = true /\
  enhancedText (enhancePrompt prompt defaultConfig)
    = Some (sixParts ++ ", mask, face mask, wearable art") /\
  String.eqb (sixParts ++ ", mask, face mask, wearable art") sixParts = false.
Proof.
  cbv zeta. repeat split; vm_compute; reflexivity.
Qed.

End PromptClaims.

(** * Further properties of the code *)

(** ** More facts about binary64 order *)

Module FloatOrderFacts.
Import FloatOrder.
Local Open Scope float_scope.

Lemma lex_le_trans (a b c : Z * Z * Z) :
  lex_le a b -> lex_le b c -> lex_le a c.
Proof.
  destruct a as [[a1 a2] a3], b as [[b1 b2] b3], c as [[c1 c2] c3].
  unfold lex_le. lia.
Qed.

(** On values other than NaN, [SFleb] is the lexicographic order of the
    keys. *)
Lemma SFleb_rank (a b : spec_float) :
  a <> S754_nan -> b <> S754_nan ->
  (SFleb a b = true <-> lex_le (rank a) (rank b)).
Proof.
  intros Ha Hb. unfold SFleb.
  destruct a as [sa | sa | | sa ma ea], b as [sb | sb | | sb mb eb];
    try congruence; try destruct sa; try destruct sb;
    cbn [SFcompare rank lex_le]; try (split; [intros _; lia | reflexivity]);
    try (split; [discriminate | lia]).
  - (* both negative *)
    change (Pos.compare_cont Eq ma mb) with (Pos.compare ma mb).
    destruct (Z.compare_spec ea eb) as [E | E | E];
      [destruct (Pos.compare_spec ma mb) as [M | M | M] |..]; cbn [CompOpp];
      split; intros H; try reflexivity; try discriminate; try lia.
  - (* both positive *)
    change (Pos.compare_cont Eq ma mb) with (Pos.compare ma mb).
    destruct (Z.compare_spec ea eb) as [E | E | E];
      [destruct (Pos.compare_spec ma mb) as [M | M | M] |..];
      split; intros H; try reflexivity; try discriminate; try lia.
Qed.

Lemma leb_trans (a b c : float) :
  (a <=? b) = true -> (b <=? c) = true -> (a <=? c) = true.
Proof.
  intros Hab Hbc.
  destruct (FloatFacts.leb_not_nan _ _ Hab) as [Na Nb].
  destruct (FloatFacts.leb_not_nan _ _ Hbc) as [_ Nc].
  assert (forall v, is_nan v = false -> Prim2SF v <> S754_nan) as Hn.
  { intros v Hv E. apply FloatFacts.is_nan_spec in E. congruence. }
  rewrite leb_spec in *.
  apply SFleb_rank in Hab; auto. apply SFleb_rank in Hbc; auto.
  apply SFleb_rank; auto. eapply lex_le_trans; eassumption.
Qed.

End FloatOrderFacts.

(** ** The bounding box *)

Module BoundingBoxFacts.
Import Coordinates.
Local Open Scope float_scope.

Lemma Math_min_nan_r (a : float) : JS.Math_min a nan = nan.
Proof.
  unfold JS.Math_min. change (is_nan nan) with true. now rewrite orb_true_r.
Qed.

Lemma Math_max_nan_r (a : float) : JS.Math_max a nan = nan.
Proof.
  unfold JS.Math_max. change (is_nan nan) with true. now rewrite orb_true_r.
Qed.

(** [Math.min] and [Math.max] return one of their arguments. *)
Lemma Math_min_select (a b : float) :
  JS.Math_min a b = a \/ JS.Math_min a b = b.
Proof.
  unfold JS.Math_min.
  destruct (is_nan a) eqn:Ha; [left; symmetry; apply FloatFacts.is_nan_eq, Ha |].
  destruct (is_nan b) eqn:Hb; [right; symmetry; apply FloatFacts.is_nan_eq, Hb |].
  simpl. destruct (a <? b); [tauto |]. destruct (b <? a); [tauto |].
  destruct (classify a); tauto.
Qed.

Lemma Math_max_select (a b : float) :
  JS.Math_max a b = a \/ JS.Math_max a b = b.
Proof.
  unfold JS.Math_max.
  destruct (is_nan a) eqn:Ha; [left; symmetry; apply FloatFacts.is_nan_eq, Ha |].
  destruct (is_nan b) eqn:Hb; [right; symmetry; apply FloatFacts.is_nan_eq, Hb |].
  simpl. destruct (a <? b); [tauto |]. destruct (b <? a); [tauto |].
  destruct (classify a); tauto.
Qed.

(** On numbers, [Math.min] is below both arguments and [Math.max] above. *)
Lemma Math_min_below (a b : float) :
  is_nan a = false -> is_nan b = false ->
  (JS.Math_min a b <=? a) = true /\ (JS.Math_min a b <=? b) = true.
Proof.
  intros Ha Hb. unfold JS.Math_min. rewrite Ha, Hb. simpl.
  destruct (a <? b) eqn:E1.
  - split; [apply FloatFacts.leb_refl, Ha | apply FloatFacts.ltb_leb, E1].
  - destruct (b <? a) eqn:E2.
    + split; [apply FloatFacts.ltb_leb, E2 | apply FloatFacts.leb_refl, Hb].
    + pose proof (FloatFacts.not_ltb_leb a b Ha Hb E1).
      pose proof (FloatFacts.not_ltb_leb b a Hb Ha E2).
      pose proof (FloatFacts.leb_refl a Ha). pose proof (FloatFacts.leb_refl b Hb).
      destruct (classify a); tauto.
Qed.

Lemma Math_max_above (a b : float) :
  is_nan a = false -> is_nan b = false ->
  (a <=? JS.Math_max a b) = true /\ (b <=? JS.Math_max a b) = true.
Proof.
  intros Ha Hb. unfold JS.Math_max. rewrite Ha, Hb. simpl.
  destruct (a <? b) eqn:E1.
  - split; [apply FloatFacts.ltb_leb, E1 | apply FloatFacts.leb_refl, Hb].
  - destruct (b <? a) eqn:E2.
    + split; [apply FloatFacts.leb_refl, Ha | apply FloatFacts.ltb_leb, E2].
    + pose proof (FloatFacts.not_ltb_leb a b Ha Hb E1).
      pose proof (FloatFacts.not_ltb_leb b a Hb Ha E2).
      pose proof (FloatFacts.leb_refl a Ha). pose proof (FloatFacts.leb_refl b Hb).
      destruct (classify a); tauto.
Qed.

Lemma select_not_nan (r a b : float) :
  r = a \/ r = b -> is_nan a = false -> is_nan b = false -> is_nan r = false.
Proof. intros [-> | ->]; auto. Qed.

(** *** Running minimum and maximum of one coordinate *)

Section OneCoordinate.
Variable f : Landmark -> float.

Local Abbreviation runMin := (fun (m : float) (p : Landmark) => JS.Math_min m (f p)).
Local Abbreviation runMax := (fun (m : float) (p : Landmark) => JS.Math_max m (f p)).

Lemma runMin_attained (l : list Landmark) :
  forall m0, fold_left runMin l m0 = m0 \/
             exists p, In p l /\ fold_left runMin l m0 = f p.
Proof.
  induction l as [| a l IH]; intros m0; simpl; [tauto |].
  destruct (IH (JS.Math_min m0 (f a))) as [E | (p & Hp & E)].
  - rewrite E. destruct (Math_min_select m0 (f a)) as [-> | ->]; eauto.
  - right. eauto.
Qed.

Lemma runMax_attained (l : list Landmark) :
  forall m0, fold_left runMax l m0 = m0 \/
             exists p, In p l /\ fold_left runMax l m0 = f p.
Proof.
  induction l as [| a l IH]; intros m0; simpl; [tauto |].
  destruct (IH (JS.Math_max m0 (f a))) as [E | (p & Hp & E)].
  - rewrite E. destruct (Math_max_select m0 (f a)) as [-> | ->]; eauto.
  - right. eauto.
Qed.

Lemma runMin_first (a : Landmark) (l : list Landmark) :
  exists p, In p (a :: l) /\ fold_left runMin (a :: l) infinity = f p.
Proof.
  simpl. rewrite CoordinatesFacts.Math_min_infinity.
  destruct (runMin_attained l (f a)) as [E | (p & Hp & E)]; eauto.
Qed.

Lemma runMax_first (a : Landmark) (l : list Landmark) :
  exists p, In p (a :: l) /\ fold_left runMax (a :: l) neg_infinity = f p.
Proof.
  simpl. rewrite CoordinatesFacts.Math_max_neg_infinity.
  destruct (runMax_attained l (f a)) as [E | (p & Hp & E)]; eauto.
Qed.

Lemma runMin_below (l : list Landmark) :
  (forall p, In p l -> is_nan (f p) = false) ->
  forall m0, is_nan m0 = false ->
    is_nan (fold_left runMin l m0) = false /\
    (fold_left runMin l m0 <=? m0) = true /\
    (forall p, In p l -> (fold_left runMin l m0 <=? f p) = true).
Proof.
  induction l as [| a l IH]; intros Hl m0 Hm0; simpl.
  - split; [exact Hm0 | split; [apply FloatFacts.leb_refl, Hm0 | tauto]].
  - assert (Ha : is_nan (f a) = false) by (apply Hl; left; reflexivity).
    destruct (Math_min_below m0 (f a) Hm0 Ha) as [L1 L2].
    destruct (IH (fun p Hp => Hl p (or_intror Hp)) (JS.Math_min m0 (f a)))
      as (N & L & Lall).
    { eapply select_not_nan; [apply Math_min_select | |]; assumption. }
    split; [exact N | split].
    + eapply FloatOrderFacts.leb_trans; eassumption.
    + intros p [<- | Hp]; [| auto].
      eapply FloatOrderFacts.leb_trans; eassumption.
Qed.

Lemma runMax_above (l : list Landmark) :
  (forall p, In p l -> is_nan (f p) = false) ->
  forall m0, is_nan m0 = false ->
    is_nan (fold_left runMax l m0) = false /\
    (m0 <=? fold_left runMax l m0) = true /\
    (forall p, In p l -> (f p <=? fold_left runMax l m0) = true).
Proof.
  induction l as [| a l IH]; intros Hl m0 Hm0; simpl.
  - split; [exact Hm0 | split; [apply FloatFacts.leb_refl, Hm0 | tauto]].
  - assert (Ha : is_nan (f a) = false) by (apply Hl; left; reflexivity).
    destruct (Math_max_above m0 (f a) Hm0 Ha) as [L1 L2].
    destruct (IH (fun p Hp => Hl p (or_intror Hp)) (JS.Math_max m0 (f a)))
      as (N & L & Lall).
    { eapply select_not_nan; [apply Math_max_select | |]; assumption. }
    split; [exact N | split].
    + eapply FloatOrderFacts.leb_trans; eassumption.
    + intros p [<- | Hp]; [| auto].
      eapply FloatOrderFacts.leb_trans; eassumption.
Qed.

Lemma runMin_nan_stays (l : list Landmark) : fold_left runMin l nan = nan.
Proof. induction l as [| a l IH]; simpl; [reflexivity | exact IH]. Qed.

Lemma runMax_nan_stays (l : list Landmark) : fold_left runMax l nan = nan.
Proof. induction l as [| a l IH]; simpl; [reflexivity | exact IH]. Qed.

Lemma runMin_poisoned (l : list Landmark) (p : Landmark) :
  In p l -> is_nan (f p) = true -> forall m0, fold_left runMin l m0 = nan.
Proof.
  intros Hin Hp. induction l as [| a l IH]; [contradiction |]. intros m0. simpl.
  destruct Hin as [-> | Hin]; [| auto].
  rewrite (FloatFacts.is_nan_eq _ Hp), Math_min_nan_r. apply runMin_nan_stays.
Qed.

Lemma runMax_poisoned (l : list Landmark) (p : Landmark) :
  In p l -> is_nan (f p) = true -> forall m0, fold_left runMax l m0 = nan.
Proof.
  intros Hin Hp. induction l as [| a l IH]; [contradiction |]. intros m0. simpl.
  destruct Hin as [-> | Hin]; [| auto].
  rewrite (FloatFacts.is_nan_eq _ Hp), Math_max_nan_r. apply runMax_nan_stays.
Qed.

(** On a sequence with a first landmark, whose coordinates all lie between
    [lo] and [hi], so do the two runs, the minimum below the maximum. *)
Lemma run_in_interval (a : Landmark) (l : list Landmark) (lo hi : float) :
  (forall p, In p (a :: l) -> (lo <=? f p) = true /\ (f p <=? hi) = true) ->
  (lo <=? fold_left runMin (a :: l) infinity) = true /\
  (fold_left runMin (a :: l) infinity
   <=? fold_left runMax (a :: l) neg_infinity) = true /\
  (fold_left runMax (a :: l) neg_infinity <=? hi) = true.
Proof.
  intros Hall.
  assert (Hnum : forall p, In p (a :: l) -> is_nan (f p) = false).
  { intros p Hp. destruct (Hall p Hp) as [Hlo _].
    apply (FloatFacts.leb_not_nan _ _ Hlo). }
  destruct (runMin_first a l) as (p1 & I1 & E1).
  destruct (runMax_first a l) as (p2 & I2 & E2).
  destruct (runMin_below (a :: l) Hnum infinity eq_refl) as (_ & _ & Lmin).
  destruct (runMax_above (a :: l) Hnum neg_infinity eq_refl) as (_ & _ & Lmax).
  split; [rewrite E1; apply Hall, I1 | split].
  - eapply FloatOrderFacts.leb_trans;
      [apply (Lmin a) | apply (Lmax a)]; left; reflexivity.
  - rewrite E2. apply Hall, I2.
Qed.

End OneCoordinate.

(** *** The six bounds are six such runs *)

Lemma bounds_runs (l : list Landmark) :
  forall b,
    fold_left updateBounds l b
    = mkBounds
        (fold_left (fun m p => JS.Math_min m (x p)) l (b_minX b))
        (fold_left (fun m p => JS.Math_max m (x p)) l (b_maxX b))
        (fold_left (fun m p => JS.Math_min m (y p)) l (b_minY b))
        (fold_left (fun m p => JS.Math_max m (y p)) l (b_maxY b))
        (fold_left (fun m p => JS.Math_min m (z p)) l (b_minZ b))
        (fold_left (fun m p => JS.Math_max m (z p)) l (b_maxZ b)).
Proof.
  induction l as [| a l IH]; intros b; simpl.
  - destruct b; reflexivity.
  - rewrite IH. reflexivity.
Qed.

Lemma bbox_runs (l : list Landmark) :
  minX (calculateFaceBoundingBox l)
    = fold_left (fun m p => JS.Math_min m (x p)) l infinity /\
  maxX (calculateFaceBoundingBox l)
    = fold_left (fun m p => JS.Math_max m (x p)) l neg_infinity /\
  minY (calculateFaceBoundingBox l)
    = fold_left (fun m p => JS.Math_min m (y p)) l infinity /\
  maxY (calculateFaceBoundingBox l)
    = fold_left (fun m p => JS.Math_max m (y p)) l neg_infinity /\
  minZ (calculateFaceBoundingBox l)
    = fold_left (fun m p => JS.Math_min m (z p)) l infinity /\
  maxZ (calculateFaceBoundingBox l)
    = fold_left (fun m p => JS.Math_max m (z p)) l neg_infinity.
Proof.
  unfold calculateFaceBoundingBox. rewrite bounds_runs. simpl. tauto.
Qed.

Lemma bbox_sizes (l : list Landmark) :
  width (calculateFaceBoundingBox l)
    = maxX (calculateFaceBoundingBox l) - minX (calculateFaceBoundingBox l) /\
  height (calculateFaceBoundingBox l)
    = maxY (calculateFaceBoundingBox l) - minY (calculateFaceBoundingBox l) /\
  depth (calculateFaceBoundingBox l)
    = maxZ (calculateFaceBoundingBox l) - minZ (calculateFaceBoundingBox l).
Proof. unfold calculateFaceBoundingBox. simpl. tauto. Qed.

End BoundingBoxFacts.

(** ** Properties of the coordinate converter *)

Section CoordinateProperties.
Import Coordinates.
Import PixelSpace.
Local Open Scope float_scope.

(** X1.  On a sequence with at least one landmark, each of the six bounds
    of [calculateFaceBoundingBox] is the coordinate of some landmark of the
    sequence: the box is tight, and the infinite starting values are
    gone. *)
Theorem bounding_box_attained :
  forall (first : Landmark) (rest : list Landmark),
    let landmarks := first :: rest in
    let bbox := calculateFaceBoundingBox landmarks in
    (exists p, In p landmarks /\ minX bbox = x p) /\
    (exists p, In p landmarks /\ maxX bbox = x p) /\
    (exists p, In p landmarks /\ minY bbox = y p) /\
    (exists p, In p landmarks /\ maxY bbox = y p) /\
    (exists p, In p landmarks /\ minZ bbox = z p) /\
    (exists p, In p landmarks /\ maxZ bbox = z p).
Proof.
  intros first rest landmarks bbox. subst bbox.
  destruct (BoundingBoxFacts.bbox_runs landmarks) as (-> & -> & -> & -> & -> & ->).
  repeat split;
    first [ apply BoundingBoxFacts.runMin_first
          | apply BoundingBoxFacts.runMax_first ].
Qed.

(** X2.  When no coordinate of any landmark is NaN, the bounds of
    [calculateFaceBoundingBox] enclose every landmark: on each axis
    min <= coordinate <= max. *)
Theorem bounding_box_encloses :
  forall landmarks : list Landmark,
    (forall p, In p landmarks -> allNumbers p) ->
    let bbox := calculateFaceBoundingBox landmarks in
    forall p, In p landmarks ->
      (minX bbox <=? x p) = true /\ (x p <=? maxX bbox) = true /\
      (minY bbox <=? y p) = true /\ (y p <=? maxY bbox) = true /\
      (minZ bbox <=? z p) = true /\ (z p <=? maxZ bbox) = true.
Proof.
  intros landmarks Hall bbox p Hp. subst bbox.
  destruct (BoundingBoxFacts.bbox_runs landmarks) as (-> & -> & -> & -> & -> & ->).
  repeat split;
    first [ apply (BoundingBoxFacts.runMin_below _ landmarks); try reflexivity;
            try assumption; intros q Hq; apply (Hall q Hq)
          | apply (BoundingBoxFacts.runMax_above _ landmarks); try reflexivity;
            try assumption; intros q Hq; apply (Hall q Hq) ].
Qed.

(** Two landmarks: the box runs from 0.25 to 0.75 in [x]. *)
Lemma bounding_box_encloses_witness :
  let landmarks := [mkPoint 0.25 0.5 0; mkPoint 0.75 0.5 1] in
  let bbox := calculateFaceBoundingBox landmarks in
  (minX bbox <=? 0.75) = true /\ (0.75 <=? maxX bbox) = true /\
  (minY bbox <=? 0.5) = true /\ (0.5 <=? maxY bbox) = true /\
  (minZ bbox <=? 1) = true /\ (1 <=? maxZ bbox) = true.
Proof.
  refine (bounding_box_encloses [mkPoint 0.25 0.5 0; mkPoint 0.75 0.5 1] _
                                (mkPoint 0.75 0.5 1) _).
  - intros p [<- | [<- | []]]; repeat split.
  - right. left. reflexivity.
Defined.

(** X3.  Landmarks that pass [validateLandmarks] have a bounding box inside
    the valid ranges, with min <= max on every axis:
    0 <= minX <= maxX <= 1, 0 <= minY <= maxY <= 1, -1 <= minZ <= maxZ <= 1. *)
Theorem validated_bounding_box_in_range :
  forall landmarks : list Landmark,
    validateLandmarks landmarks = true ->
    let bbox := calculateFaceBoundingBox landmarks in
    ((0 <=? minX bbox) = true /\ (minX bbox <=? maxX bbox) = true /\
     (maxX bbox <=? 1) = true) /\
    ((0 <=? minY bbox) = true /\ (minY bbox <=? maxY bbox) = true /\
     (maxY bbox <=? 1) = true) /\
    ((-1 <=? minZ bbox) = true /\ (minZ bbox <=? maxZ bbox) = true /\
     (maxZ bbox <=? 1) = true).
Proof.
  intros landmarks Hvalid bbox. subst bbox.
  destruct landmarks as [| first rest]; [discriminate |].
  assert (Hrange : forall p, In p (first :: rest) -> inValidRange p).
  { intros p Hp. apply CoordinatesFacts.landmarkOk_true.
    unfold validateLandmarks in Hvalid. rewrite forallb_forall in Hvalid. auto. }
  destruct (BoundingBoxFacts.bbox_runs (first :: rest))
    as (-> & -> & -> & -> & -> & ->).
  split; [| split].
  - apply (BoundingBoxFacts.run_in_interval x first rest 0 1).
    intros p Hp. destruct (Hrange p Hp) as (X0 & X1 & _). split; assumption.
  - apply (BoundingBoxFacts.run_in_interval y first rest 0 1).
    intros p Hp. destruct (Hrange p Hp) as (_ & _ & Y0 & Y1 & _).
    split; assumption.
  - apply (BoundingBoxFacts.run_in_interval z first rest (-1) 1).
    intros p Hp. destruct (Hrange p Hp) as (_ & _ & _ & _ & Z0 & Z1).
    split; assumption.
Qed.

(** The closed-mouth face passes validation, so its box is in range. *)
Lemma validated_bounding_box_in_range_witness :
  let bbox := calculateFaceBoundingBox Fixtures.closedMouthFace in
  ((0 <=? minX bbox) = true /\ (minX bbox <=? maxX bbox) = true /\
   (maxX bbox <=? 1) = true) /\
  ((0 <=? minY bbox) = true /\ (minY bbox <=? maxY bbox) = true /\
   (maxY bbox <=? 1) = true) /\
  ((-1 <=? minZ bbox) = true /\ (minZ bbox <=? maxZ bbox) = true /\
   (maxZ bbox <=? 1) = true).
Proof.
  apply (validated_bounding_box_in_range Fixtures.closedMouthFace).
  vm_compute. reflexivity.
Defined.

(** X4.  A NaN [x] or [y] coordinate in any landmark turns the width or the
    height of the bounding box into NaN, and [calculateOptimalFaceScale]
    then returns [targetSize] unchanged, whatever the other landmarks
    are. *)
Theorem scale_with_nan_coordinate :
  forall (landmarks : list Landmark) (p : Landmark) (targetSize : float),
    In p landmarks ->
    is_nan (x p) = true \/ is_nan (y p) = true ->
    calculateOptimalFaceScale landmarks targetSize = targetSize.
Proof.
  intros landmarks p targetSize Hin Hnan.
  unfold calculateOptimalFaceScale.
  destruct (BoundingBoxFacts.bbox_sizes landmarks) as (-> & -> & _).
  destruct (BoundingBoxFacts.bbox_runs landmarks) as (-> & -> & -> & -> & _).
  destruct Hnan as [H | H].
  - rewrite (BoundingBoxFacts.runMin_poisoned x landmarks p Hin H),
            (BoundingBoxFacts.runMax_poisoned x landmarks p Hin H).
    reflexivity.
  - rewrite (BoundingBoxFacts.runMin_poisoned y landmarks p Hin H),
            (BoundingBoxFacts.runMax_poisoned y landmarks p Hin H).
    change (nan - nan) with nan. rewrite BoundingBoxFacts.Math_max_nan_r.
    reflexivity.
Qed.

(** One landmark with a NaN [x] among two good ones. *)
Lemma scale_with_nan_coordinate_witness :
  calculateOptimalFaceScale
    [mkPoint 0.25 0.5 0; mkPoint nan 0.5 0; mkPoint 0.75 0.5 0] 3 = 3.
Proof.
  apply (scale_with_nan_coordinate _ (mkPoint nan 0.5 0)).
  - right. left. reflexivity.
  - left. reflexivity.
Defined.

End CoordinateProperties.

(** ** Pixel space and the face centre *)

Module PixelFacts.
Local Open Scope float_scope.

(** A product with zero is a zero or NaN, and dividing that by zero gives
    NaN. *)
Lemma mul_zero_div_zero (a : float) : a * 0 / 0 = nan.
Proof.
  assert (H : a * 0 = nan \/ a * 0 = 0 \/ a * 0 = -0).
  { assert (Hs : Prim2SF (a * 0) = S754_nan \/
                 Prim2SF (a * 0) = S754_zero false \/
                 Prim2SF (a * 0) = S754_zero true).
    { rewrite mul_spec. change (Prim2SF 0) with (S754_zero false).
      unfold SF64mul, SFmul.
      destruct (Prim2SF a) as [s | s | | s m e]; try destruct s; auto. }
    destruct Hs as [Hs | [Hs | Hs]]; [left | right; left | right; right];
      apply Prim2SF_inj; rewrite Hs; reflexivity. }
  destruct H as [-> | [-> | ->]]; reflexivity.
Qed.

Lemma nan_mul (a : float) : nan * a = nan.
Proof.
  apply Prim2SF_inj. rewrite mul_spec. reflexivity.
Qed.

(** A coordinate in [0,1], scaled by a positive normal number and divided
    by it again, comes back within the tolerance. *)
Lemma scaled_and_back (v s : float) :
  (0 <=? v) = true -> (v <=? 1) = true -> Coordinates.positiveNormal s ->
  Coordinates.withinTolerance (v * s / s) v = true.
Proof.
  intros V0 V1 (S0 & S1).
  destruct Rounding.value_min_normal as [Nmin Vmin].
  destruct Rounding.value_max_float as [Emax Vmax].
  destruct Rounding.value_zero as [N0 E0]. destruct Rounding.value_one as [N1 E1].
  assert (Nmax : Binary64.number 0x1.fffffffffffffp1023)
    by (unfold Binary64.number; rewrite Emax; reflexivity).
  assert (Ns : Binary64.number s)
    by (apply (Rounding.between_number _ s _ Nmin Nmax); assumption).
  assert (Hlo : (Binary64.pow2 (-1022) <= Binary64.value s)%R).
  { rewrite <- Vmin. apply Rounding.leb_value; assumption. }
  assert (Nv : Binary64.number v)
    by (apply (Rounding.between_number 0 v 1); assumption).
  apply (Rounding.leb_value 0 v N0 Nv) in V0.
  apply (Rounding.leb_value v 1 Nv N1) in V1.
  rewrite E0 in V0. rewrite E1 in V1.
  assert (Hv : (Rabs (Binary64.value v) <= 1)%R) by (apply Rabs_le; lra).
  destruct (Rounding.scale_strict s Ns Hlo v Nv Hv) as [Hlt | [-> Ev]].
  - destruct (Rounding.there_and_back s Ns Hlo v Nv Hv Hlt) as (Nc & Hc).
    apply Rounding.close_within; [exact Nc | exact Nv |].
    pose proof (Rounding.pow2_pos (-51)). lra.
  - destruct Ev as [-> | ->]; vm_compute; reflexivity.
Qed.

End PixelFacts.

Section PixelProperties.
Import Coordinates.
Import PixelSpace.

Local Open Scope float_scope.

(** X5.  In binary64, [normalizedToPixel] followed by [pixelToNormalized]
    returns a point whose coordinates lie in [0,1] within the tolerance
    [1e-9] on each coordinate, for every image width and height that is a
    positive normal number (finite and at least [2^-1022]). *)
Theorem pixel_round_trip_binary64 :
  forall (p : float * float) (imageWidth imageHeight : float),
    (0 <=? fst p) = true -> (fst p <=? 1) = true ->
    (0 <=? snd p) = true -> (snd p <=? 1) = true ->
    positiveNormal imageWidth -> positiveNormal imageHeight ->
    let q := pixelToNormalized float_ops
               (normalizedToPixel float_ops p imageWidth imageHeight)
               imageWidth imageHeight in
    withinTolerance (fst q) (fst p) = true /\
    withinTolerance (snd q) (snd p) = true.
Proof.
  intros [a b] W H A0 A1 B0 B1 HW HH. cbn [fst snd] in *.
  unfold pixelToNormalized, normalizedToPixel.
  cbn [fst snd mul div float_ops].
  split; apply PixelFacts.scaled_and_back; assumption.
Qed.

(** The point (0.1, 0.7) in a 3 x 7 image comes back within the tolerance,
    though not exactly: its [x] returns as 0.10000000000000002. *)
Lemma pixel_round_trip_binary64_witness :
  let q := pixelToNormalized float_ops
             (normalizedToPixel float_ops (0.1, 0.7) 3 7) 3 7 in
  (withinTolerance (fst q) 0.1 = true /\ withinTolerance (snd q) 0.7 = true) /\
  (fst q =? 0.1) = false.
Proof.
  split.
  - apply (pixel_round_trip_binary64 (0.1, 0.7) 3 7);
      first [reflexivity | split; reflexivity].
  - vm_compute. reflexivity.
Defined.

(** X6.  Neither pixel conversion guards against a zero image dimension: in
    binary64, for an image of width 0 the [x] of every point comes back
    from the round trip as NaN, and likewise [y] for height 0. *)
Theorem pixel_round_trip_zero_dimension :
  forall (p : float * float) (size : float),
    fst (pixelToNormalized float_ops
           (normalizedToPixel float_ops p 0 size) 0 size) = nan /\
    snd (pixelToNormalized float_ops
           (normalizedToPixel float_ops p size 0) size 0) = nan.
Proof.
  intros [a b] size. simpl. split; apply PixelFacts.mul_zero_div_zero.
Qed.

(** X7.  On the empty sequence [getFaceCenter] returns the point
    (NaN, NaN, NaN) at every face scale: the infinite bounds of the empty
    bounding box cancel into NaN. *)
Theorem getFaceCenter_empty :
  forall faceScale : float,
    getFaceCenter [] faceScale = mkPoint nan nan nan.
Proof.
  intros faceScale. unfold getFaceCenter, normalizedToWorld. simpl.
  change (infinity + neg_infinity / 2 - 0.5) with nan.
  change (- nan) with nan.
  change (infinity + neg_infinity / 2) with nan.
  rewrite !PixelFacts.nan_mul. reflexivity.
Qed.

End PixelProperties.

(** ** The triangulation table and the face mesh *)

Module MeshFacts.
Import Coordinates.
Local Open Scope Z_scope.

Lemma table_indices_bounded :
  forallb (fun index => (0 <=? index) && (index <=? 466))
          Triangulation.getFaceTriangles = true.
Proof. vm_compute. reflexivity. Qed.

Lemma table_accepted (landmarkCount : Z) :
  Triangulation.validateTriangles Triangulation.getFaceTriangles landmarkCount
  = true <-> 467 <= landmarkCount.
Proof.
  unfold Triangulation.validateTriangles. split.
  - intros H. rewrite forallb_forall in H.
    assert (Hin : In 466 Triangulation.getFaceTriangles).
    { destruct (proj1 (existsb_exists (Z.eqb 466) Triangulation.getFaceTriangles))
        as (v & Hv & Ev); [vm_compute; reflexivity |].
      apply Z.eqb_eq in Ev. subst v. exact Hv. }
    specialize (H 466 Hin). apply andb_true_iff in H. destruct H as [_ H].
    apply Z.ltb_lt in H. lia.
  - intros Hn. apply forallb_forall. intros index Hin.
    pose proof table_indices_bounded as Hb. rewrite forallb_forall in Hb.
    specialize (Hb index Hin). apply andb_true_iff in Hb. destruct Hb as [H0 H1].
    apply Z.leb_le in H0. apply Z.leb_le in H1.
    apply andb_true_iff. split; [apply Z.geb_le | apply Z.ltb_lt]; lia.
Qed.

(** Entry [3 i + k] of a list built from triples. *)
Lemma nth_error_triples {A B : Type} (f : A -> B * B * B) (l : list A) :
  forall (i : nat) (a : A),
    nth_error l i = Some a ->
    let '(b0, b1, b2) := f a in
    let flat := flat_map (fun a => let '(b0, b1, b2) := f a in [b0; b1; b2]) l in
    nth_error flat (3 * i) = Some b0 /\
    nth_error flat (3 * i + 1) = Some b1 /\
    nth_error flat (3 * i + 2) = Some b2.
Proof.
  induction l as [| h l IH]; intros i a Hi; [destruct i; discriminate |].
  destruct i as [| i].
  - injection Hi as ->. simpl. destruct (f a) as [[b0 b1] b2]. simpl. tauto.
  - simpl in Hi. specialize (IH i a Hi).
    destruct (f a) as [[b0 b1] b2]. cbv zeta in IH |- *.
    cbn [flat_map]. destruct (f h) as [[c0 c1] c2].
    replace (3 * S i)%nat with (S (S (S (3 * i)))) by lia.
    replace (S (S (S (3 * i))) + 1)%nat with (S (S (S (3 * i + 1)))) by lia.
    replace (S (S (S (3 * i))) + 2)%nat with (S (S (S (3 * i + 2)))) by lia.
    exact IH.
Qed.

Lemma nth_error_pairs {A B : Type} (f : A -> B * B) (l : list A) :
  forall (i : nat) (a : A),
    nth_error l i = Some a ->
    let flat := flat_map (fun a => [fst (f a); snd (f a)]) l in
    nth_error flat (2 * i) = Some (fst (f a)) /\
    nth_error flat (2 * i + 1) = Some (snd (f a)).
Proof.
  induction l as [| h l IH]; intros i a Hi; [destruct i; discriminate |].
  destruct i as [| i].
  - injection Hi as ->. simpl. tauto.
  - simpl in Hi. specialize (IH i a Hi). cbv zeta in IH |- *.
    cbn [flat_map].
    replace (2 * S i)%nat with (S (S (2 * i))) by lia.
    replace (S (S (2 * i)) + 1)%nat with (S (S (2 * i + 1))) by lia.
    exact IH.
Qed.

Lemma flat_map_length_const {A B : Type} (f : A -> list B) (k : nat) (l : list A) :
  (forall a, length (f a) = k) -> length (flat_map f l) = (k * length l)%nat.
Proof.
  intros Hk. induction l as [| h l IH]; simpl; [lia |].
  rewrite length_app, Hk, IH. lia.
Qed.

End MeshFacts.

Section MeshProperties.
Import Coordinates.
Import FaceMesh3D.
Local Open Scope Z_scope.

(** X8.  [validateTriangles] is monotone in [landmarkCount], rejects every
    list with a negative index, and accepts the flattened static table
    exactly for [landmarkCount >= 467] (its largest index is 466). *)
Theorem validateTriangles_threshold :
  (forall triangles n n',
     Triangulation.validateTriangles triangles n = true -> n <= n' ->
     Triangulation.validateTriangles triangles n' = true) /\
  (forall triangles n index,
     In index triangles -> index < 0 ->
     Triangulation.validateTriangles triangles n = false) /\
  (forall n,
     Triangulation.validateTriangles Triangulation.getFaceTriangles n = true
     <-> 467 <= n).
Proof.
  split; [| split].
  - intros triangles n n' H Hle. unfold Triangulation.validateTriangles in *.
    rewrite forallb_forall in *. intros index Hin. specialize (H index Hin).
    apply andb_true_iff in H. destruct H as [H0 H1]. apply Z.ltb_lt in H1.
    rewrite H0. simpl. apply Z.ltb_lt. lia.
  - intros triangles n index Hin Hneg. apply not_true_is_false. intros H.
    unfold Triangulation.validateTriangles in H. rewrite forallb_forall in H.
    specialize (H index Hin). apply andb_true_iff in H. destruct H as [H0 _].
    apply Z.geb_le in H0. lia.
  - exact MeshFacts.table_accepted.
Qed.

(** The table at 467 and at 500 landmarks. *)
Lemma validateTriangles_threshold_witness :
  Triangulation.validateTriangles Triangulation.getFaceTriangles 500 = true.
Proof.
  apply (proj1 validateTriangles_threshold Triangulation.getFaceTriangles 467 500).
  - vm_compute. reflexivity.
  - vm_compute. discriminate.
Defined.

(** X9.  [FaceMesh] builds a mesh exactly when the landmarks pass
    [validateLandmarks] and there are at least 467 of them; otherwise it
    falls back to the empty geometry.  A mesh that is built has three
    position entries and two uv entries per landmark, in landmark order:
    entries [3i .. 3i+2] are [normalizedToWorld] of landmark [i] at the
    scale [calculateOptimalFaceScale(landmarks, 2)], entries [2i, 2i+1] of
    the uv array are its [x] and [y]; and its index buffer is the flattened
    table, every index of which is below the number of landmarks. *)
Theorem face_mesh_geometry :
  forall landmarks : list Landmark,
    (validateLandmarks landmarks = false \/ (length landmarks < 467)%nat ->
     buildGeometry landmarks = emptyGeometry) /\
    (validateLandmarks landmarks = true -> (467 <= length landmarks)%nat ->
     exists position uv,
       buildGeometry landmarks
         = meshGeometry position uv Triangulation.getFaceTriangles /\
       length position = (3 * length landmarks)%nat /\
       length uv = (2 * length landmarks)%nat /\
       (forall i p,
          nth_error landmarks i = Some p ->
          let w := normalizedToWorld float_ops p
                     (calculateOptimalFaceScale landmarks 2) in
          nth_error position (3 * i) = Some (x w) /\
          nth_error position (3 * i + 1) = Some (y w) /\
          nth_error position (3 * i + 2) = Some (z w) /\
          nth_error uv (2 * i) = Some (x p) /\
          nth_error uv (2 * i + 1) = Some (y p)) /\
       (forall index, In index Triangulation.getFaceTriangles ->
                      0 <= index < Z.of_nat (length landmarks))).
Proof.
  intros landmarks. split.
  - intros [Hinvalid | Hshort]; unfold buildGeometry.
    + rewrite Hinvalid. simpl. now rewrite orb_true_r.
    + destruct ((length landmarks =? 0)%nat || negb (validateLandmarks landmarks));
        [reflexivity |].
      cbv zeta.
      destruct (Triangulation.validateTriangles Triangulation.getFaceTriangles
                  (Z.of_nat (length landmarks))) eqn:E; [| reflexivity].
      apply MeshFacts.table_accepted in E. lia.
  - intros Hvalid Hlen. unfold buildGeometry. rewrite Hvalid.
    replace (length landmarks =? 0)%nat with false
      by (symmetry; apply Nat.eqb_neq; lia).
    simpl orb. cbv iota zeta.
    assert (E : Triangulation.validateTriangles Triangulation.getFaceTriangles
                  (Z.of_nat (length landmarks)) = true)
      by (apply MeshFacts.table_accepted; lia).
    rewrite E. simpl negb. cbv iota.
    eexists _, _. split; [reflexivity |].
    split; [| split; [| split]].
    + apply MeshFacts.flat_map_length_const. reflexivity.
    + apply MeshFacts.flat_map_length_const. reflexivity.
    + intros i p Hi.
      pose proof (MeshFacts.nth_error_triples
                    (fun landmark =>
                       let worldPos := normalizedToWorld float_ops landmark
                                         (calculateOptimalFaceScale landmarks 2) in
                       (x worldPos, y worldPos, z worldPos)) landmarks i p Hi) as H3.
      pose proof (MeshFacts.nth_error_pairs
                    (fun landmark => (x landmark, y landmark)) landmarks i p Hi) as H2.
      cbv zeta in H3, H2. simpl fst in H2. simpl snd in H2.
      destruct H3 as (A & B & C). destruct H2 as (D & F).
      repeat split; assumption.
    + intros index Hin.
      unfold Triangulation.validateTriangles in E. rewrite forallb_forall in E.
      specialize (E index Hin). apply andb_true_iff in E. destruct E as [E0 E1].
      apply Z.geb_le in E0. apply Z.ltb_lt in E1. lia.
Qed.

(** The closed-mouth face gives a mesh of 3 * 468 positions. *)
Lemma face_mesh_geometry_witness :
  exists position uv,
    buildGeometry Fixtures.closedMouthFace
      = meshGeometry position uv Triangulation.getFaceTriangles /\
    length position = (3 * length Fixtures.closedMouthFace)%nat /\
    length uv = (2 * length Fixtures.closedMouthFace)%nat.
Proof.
  destruct (proj2 (face_mesh_geometry Fixtures.closedMouthFace))
    as (position & uv & H1 & H2 & H3 & _).
  - vm_compute. reflexivity.
  - apply Nat.leb_le. vm_compute. reflexivity.
  - exists position, uv. auto.
Defined.

End MeshProperties.

(** ** More about the mask builders *)

Module MaskPathFacts.
Import Coordinates.
Import MaskCompositor.
Local Open Scope float_scope.

(** Once the loop of [addHoleCCW] has thrown, it stays thrown. *)
Lemma loop_thrown (lm : list Landmark) (W H : float) (rev : list nat)
    (todo : list nat) :
  fold_left
    (fun acc i =>
       path <- acc ;;
       ri <- nth_error rev i ;;
       p <- nth_error lm ri ;;
       Some (path ++ [lineTo (x p * W) (y p * H)]))
    todo None = None.
Proof. induction todo as [| i todo IH]; simpl; [reflexivity | exact IH]. Qed.

(** The loop throws when one of the entries it reads names a missing
    landmark. *)
Lemma loop_throws (lm : list Landmark) (W H : float) :
  forall (rest pre : list nat) (acc : option Path2D),
    (exists r, In r rest /\ (length lm <= r)%nat) ->
    fold_left
      (fun acc i =>
         path <- acc ;;
         ri <- nth_error (pre ++ rest) i ;;
         p <- nth_error lm ri ;;
         Some (path ++ [lineTo (x p * W) (y p * H)]))
      (seq (length pre) (length rest)) acc = None.
Proof.
  induction rest as [| r rest IH]; intros pre acc (r' & Hin & Hout);
    [contradiction |].
  assert (Hsplit : pre ++ r :: rest = (pre ++ [r]) ++ rest)
    by (rewrite <- app_assoc; reflexivity).
  rewrite Hsplit. simpl seq.
  match goal with |- fold_left ?f _ _ = _ => set (step := f) end.
  change (fold_left step (seq (S (length pre)) (length rest))
                    (step acc (length pre)) = None).
  destruct (step acc (length pre)) as [path' |] eqn:Estep.
  - destruct Hin as [<- | Hin].
    + (* the entry read now is the missing one *)
      exfalso. subst step. cbv beta in Estep. unfold Throwing.bind in Estep.
      destruct acc as [path |]; [| discriminate].
      rewrite <- Hsplit, nth_error_app2 in Estep by lia.
      rewrite Nat.sub_diag in Estep. simpl in Estep.
      apply nth_error_None in Hout. rewrite Hout in Estep. discriminate.
    + subst step.
      replace (S (length pre)) with (length (pre ++ [r]))
        by (rewrite length_app; simpl; lia).
      apply IH. eauto.
  - subst step. apply loop_thrown.
Qed.

(** [addHoleCCW] throws on a cutout that names a missing landmark. *)
Lemma addHoleCCW_missing (path : Path2D) (indices : list nat)
    (lm : list Landmark) (W H : float) (i : nat) :
  In i indices -> (length lm <= i)%nat ->
  addHoleCCW path indices lm W H = None.
Proof.
  intros Hin Hout. unfold addHoleCCW.
  apply in_rev in Hin.
  destruct (rev indices) as [| r0 rest] eqn:Er; [contradiction |].
  simpl nth_error. unfold Throwing.bind at 1 2.
  destruct (nth_error lm r0) as [p0 |] eqn:Ep; [| reflexivity].
  destruct Hin as [<- | Hin].
  - apply nth_error_None in Hout. congruence.
  - replace (length (r0 :: rest) - 1)%nat with (length rest) by (simpl; lia).
    pose proof (loop_throws lm W H rest [r0]
                  (Some (path ++ [moveTo (x p0 * W) (y p0 * H)]))
                  (ex_intro _ i (conj Hin Hout))) as Hloop.
    simpl length in Hloop. change ([r0] ++ rest) with (r0 :: rest) in Hloop.
    match goal with
    | |- Throwing.bind ?m _ = _ => replace m with (@None Path2D)
        by (symmetry; exact Hloop)
    end.
    reflexivity.
Qed.

Lemma lookup_in_range (lm : list Landmark) (i : nat) :
  (i < length lm)%nat -> exists p, nth_error lm i = Some p.
Proof.
  intros Hi. destruct (nth_error lm i) as [p |] eqn:E; [eauto |].
  apply nth_error_None in E. lia.
Qed.

Lemma all_below (n : nat) (indices : list nat) (lm : list Landmark) :
  (n <= length lm)%nat ->
  forallb (fun i => (i <? n)%nat) indices = true ->
  Forall (fun i => (i < length lm)%nat) indices.
Proof.
  intros Hlen Hall. apply Forall_forall. intros i Hi.
  rewrite forallb_forall in Hall. specialize (Hall i Hi).
  apply Nat.ltb_lt in Hall. lia.
Qed.

(** [addHoleCCW] succeeds on a non-empty cutout all of whose landmarks
    exist. *)
Lemma addHoleCCW_succeeds (path : Path2D) (indices : list nat)
    (lm : list Landmark) (W H : float) :
  indices <> [] ->
  Forall (fun i => (i < length lm)%nat) indices ->
  exists hole,
    addHoleCCW path indices lm W H = Some (path ++ closedSubPath hole) /\
    map Some hole = map (pixelAt lm W H) (rev indices).
Proof.
  intros Hne Hall.
  destruct (MaskFacts.pixelAt_defined lm W H (rev indices)) as [hole Hhole].
  { apply Forall_forall. intros i Hi. apply in_rev in Hi.
    rewrite Forall_forall in Hall. auto. }
  exists hole. split; [| symmetry; exact Hhole].
  apply MaskFacts.addHoleCCW_appends; assumption.
Qed.

(** Whatever [addHoleCCW] returns extends the path it was given by one
    closed sub-path. *)
Lemma addHoleCCW_extends (path path' : Path2D) (indices : list nat)
    (lm : list Landmark) (W H : float) :
  addHoleCCW path indices lm W H = Some path' ->
  exists hole, path' = path ++ closedSubPath hole.
Proof.
  intros E.
  destruct indices as [| i0 indices']; [discriminate |].
  destruct (Forall_Exists_dec (fun i => (i < length lm)%nat)
              (fun i => lt_dec i (length lm)) (i0 :: indices')) as [Hall | Hex].
  - destruct (addHoleCCW_succeeds path (i0 :: indices') lm W H) as (hole & E' & _);
      [discriminate | exact Hall |].
    rewrite E' in E. injection E as <-. eauto.
  - apply Exists_exists in Hex. destruct Hex as (i & Hin & Hout).
    rewrite (addHoleCCW_missing path (i0 :: indices') lm W H i Hin) in E by lia.
    discriminate.
Qed.

(** [|a|] is never below zero. *)
Lemma abs_not_negative (a : float) : (abs a <? 0) = false.
Proof.
  rewrite ltb_spec, abs_spec. change (Prim2SF 0) with (S754_zero false).
  destruct (Prim2SF a) as [s | s | | s m e]; reflexivity.
Qed.

End MaskPathFacts.

Section MaskPathProperties.
Import Coordinates.
Import MaskCompositor.
Import MaskEdge.
Local Open Scope float_scope.

(** X10.  [addHoleCCW] throws for an empty cutout and for a cutout that
    names a landmark the array does not have; for every other cutout it
    appends one closed sub-path to the path it was given. *)
Theorem addHoleCCW_defined :
  forall (path : Path2D) (indices : list nat) (lm : list Landmark) (W H : float),
    (indices = [] -> addHoleCCW path indices lm W H = None) /\
    (forall i, In i indices -> (length lm <= i)%nat ->
               addHoleCCW path indices lm W H = None) /\
    (indices <> [] -> Forall (fun i => (i < length lm)%nat) indices ->
     exists hole,
       addHoleCCW path indices lm W H = Some (path ++ closedSubPath hole) /\
       map Some hole = map (pixelAt lm W H) (rev indices)).
Proof.
  intros path indices lm W H. split; [| split].
  - intros ->. reflexivity.
  - intros i. apply MaskPathFacts.addHoleCCW_missing.
  - apply MaskPathFacts.addHoleCCW_succeeds.
Qed.

(** A two-point cutout on three landmarks, and the same cutout with a
    landmark index that is out of range. *)
Lemma addHoleCCW_defined_witness :
  (exists hole,
     addHoleCCW [] [0; 2]%nat
       [mkPoint 0.25 0.5 0; mkPoint 0.5 0.5 0; mkPoint 0.75 0.5 0] 512 512
       = Some ([] ++ closedSubPath hole) /\
     map Some hole
       = map (pixelAt [mkPoint 0.25 0.5 0; mkPoint 0.5 0.5 0; mkPoint 0.75 0.5 0]
                      512 512) (rev [0; 2]%nat)) /\
  addHoleCCW [] [0; 3]%nat
    [mkPoint 0.25 0.5 0; mkPoint 0.5 0.5 0; mkPoint 0.75 0.5 0] 512 512 = None.
Proof.
  split.
  - apply (proj2 (proj2 (addHoleCCW_defined [] [0; 2]%nat
             [mkPoint 0.25 0.5 0; mkPoint 0.5 0.5 0; mkPoint 0.75 0.5 0] 512 512))).
    + discriminate.
    + repeat constructor.
  - apply (proj1 (proj2 (addHoleCCW_defined [] [0; 3]%nat
             [mkPoint 0.25 0.5 0; mkPoint 0.5 0.5 0; mkPoint 0.75 0.5 0] 512 512))
             3%nat).
    + right. left. reflexivity.
    + simpl. lia.
Defined.

(** X11.  [buildMaskPath] throws when it is given fewer than 467 landmarks
    (the largest index it reads is 466, in the right eye).  Given 467 or
    more, it throws when one of the four [arcTo] calls of its outline or
    its [ellipse] call throws (finite arguments and a negative radius), and
    otherwise returns a path. *)
Theorem buildMaskPath_defined :
  forall (lm : list Landmark) (W H : float),
    ((length lm < 467)%nat -> buildMaskPath lm W H = None) /\
    ((467 <= length lm)%nat ->
     (existsb throws (outlineOf lm W H ++ [mouthOf lm W H]) = true ->
      buildMaskPath lm W H = None) /\
     (existsb throws (outlineOf lm W H ++ [mouthOf lm W H]) = false ->
      exists path, buildMaskPath lm W H = Some path)).
Proof.
  intros lm W H. split.
  - intros Hshort. unfold buildMaskPath.
    destruct (py lm LM_TOP_HEAD H) as [topY |]; [| reflexivity].
    destruct (py lm LM_CHIN H) as [chinY |]; [| reflexivity].
    destruct (px lm LM_LEFT_EAR W) as [leftX |]; [| reflexivity].
    destruct (px lm LM_RIGHT_EAR W) as [rightX |]; [| reflexivity].
    cbn [Throwing.bind].
    destruct (draw [] (outline topY chinY leftX rightX)) as [p0 |];
      [| reflexivity].
    cbn [Throwing.bind].
    destruct (addHoleCCW p0 LEFT_EYE lm W H) as [p1 |]; [| reflexivity].
    cbn [Throwing.bind].
    rewrite (MaskPathFacts.addHoleCCW_missing p1 RIGHT_EYE lm W H 466%nat);
      [reflexivity | | lia].
    unfold RIGHT_EYE. simpl. tauto.
  - intros Hlen.
    destruct (MaskFacts.buildMaskPath_spec lm W H Hlen)
      as (leftHole & rightHole & E & _).
    rewrite E. split; intros ->; [reflexivity | eauto].
Qed.

(** The closed-mouth face gives a path; its first 466 landmarks do not;
    nor does the mirrored face, whose right ear lies left of its left ear,
    so that the corner radius is negative. *)
Lemma buildMaskPath_defined_witness :
  (exists path, buildMaskPath Fixtures.closedMouthFace 512 512 = Some path) /\
  buildMaskPath (firstn 466 Fixtures.closedMouthFace) 512 512 = None /\
  buildMaskPath Fixtures.mirroredFace 512 512 = None.
Proof.
  split; [| split].
  - apply (proj2 (buildMaskPath_defined Fixtures.closedMouthFace 512 512)).
    + apply Nat.leb_le. vm_compute. reflexivity.
    + vm_compute. reflexivity.
  - apply (proj1 (buildMaskPath_defined (firstn 466 Fixtures.closedMouthFace)
                                        512 512)).
    apply Nat.ltb_lt. vm_compute. reflexivity.
  - apply (proj2 (buildMaskPath_defined Fixtures.mirroredFace 512 512)).
    + apply Nat.leb_le. vm_compute. reflexivity.
    + vm_compute. reflexivity.
Defined.

(** X12.  Whenever [buildMaskPath] returns a path, [drawEdge] succeeds on
    the same input (its calls are those of the outline, none of which
    threw) and the path it strokes is the first ten calls of the mask path:
    the rounded outline alone, ending in its [closePath], with no eye hole
    and no mouth ellipse. *)
Theorem drawEdge_strokes_outline :
  forall (lm : list Landmark) (W H : float) (path : Path2D),
    buildMaskPath lm W H = Some path ->
    exists stroke,
      drawEdge lm W H = Some stroke /\
      strokePath stroke = firstn 10 path /\
      length (strokePath stroke) = 10%nat /\
      nth_error (strokePath stroke) 9 = Some closePath /\
      ellipseRadii (strokePath stroke) = [].
Proof.
  intros lm W H path Hbuild. unfold buildMaskPath in Hbuild. unfold drawEdge.
  destruct (py lm LM_TOP_HEAD H) as [topY |]; [| discriminate].
  destruct (py lm LM_CHIN H) as [chinY |]; [| discriminate].
  destruct (px lm LM_LEFT_EAR W) as [leftX |]; [| discriminate].
  destruct (px lm LM_RIGHT_EAR W) as [rightX |]; [| discriminate].
  cbn [Throwing.bind] in *.
  change (draw [] _) with (draw [] (outline topY chinY leftX rightX)).
  destruct (draw [] (outline topY chinY leftX rightX)) as [p0 |] eqn:E0;
    [| discriminate].
  rewrite MaskFacts.draw_spec in E0.
  destruct (existsb throws (outline topY chinY leftX rightX));
    [discriminate |].
  injection E0 as <-.
  cbn [Throwing.bind] in *.
  cbn [app] in *.
  destruct (addHoleCCW (outline topY chinY leftX rightX) LEFT_EYE lm W H)
    as [p1 |] eqn:E1; [| discriminate].
  cbn [Throwing.bind] in Hbuild.
  destruct (addHoleCCW p1 RIGHT_EYE lm W H) as [p2 |] eqn:E2; [| discriminate].
  cbn [Throwing.bind] in Hbuild.
  destruct (px lm (nth 0 MOUTH_PTS 0%nat) W); [| discriminate].
  destruct (py lm (nth 1 MOUTH_PTS 0%nat) H); [| discriminate].
  destruct (px lm (nth 2 MOUTH_PTS 0%nat) W); [| discriminate].
  destruct (py lm (nth 3 MOUTH_PTS 0%nat) H); [| discriminate].
  cbn [Throwing.bind] in Hbuild.
  rewrite MaskFacts.draw_spec in Hbuild.
  destruct (existsb throws [mouthEllipse f f0 f1 f2]); [discriminate |].
  injection Hbuild as <-.
  destruct (MaskPathFacts.addHoleCCW_extends _ _ _ _ _ _ E1) as [h1 ->].
  destruct (MaskPathFacts.addHoleCCW_extends _ _ _ _ _ _ E2) as [h2 ->].
  eexists. split; [reflexivity |]. cbn [strokePath].
  repeat split; reflexivity.
Qed.

(** The closed-mouth face at 512 x 512. *)
Lemma drawEdge_strokes_outline_witness :
  exists path stroke,
    buildMaskPath Fixtures.closedMouthFace 512 512 = Some path /\
    drawEdge Fixtures.closedMouthFace 512 512 = Some stroke /\
    strokePath stroke = firstn 10 path.
Proof.
  destruct (buildMaskPath Fixtures.closedMouthFace 512 512) as [path |] eqn:E.
  - destruct (drawEdge_strokes_outline Fixtures.closedMouthFace 512 512 path E)
      as (stroke & H1 & H2 & _).
    exists path, stroke. auto.
  - vm_compute in E. discriminate E.
Defined.

(** X13.  [getHeadWidth] has a value exactly when the array has more than
    454 landmarks, and the value is never below zero, also when the right
    ear lies to the left of the left ear. *)
Theorem getHeadWidth_not_negative :
  forall (lm : list Landmark) (W H : float),
    ((length lm <= 454)%nat -> getHeadWidth lm W H = None) /\
    ((454 < length lm)%nat ->
     exists width, getHeadWidth lm W H = Some width /\ (width <? 0) = false).
Proof.
  intros lm W H. unfold getHeadWidth, px. split.
  - intros Hshort.
    assert (E : nth_error lm LM_RIGHT_EAR = None)
      by (apply nth_error_None; unfold LM_RIGHT_EAR; lia).
    rewrite E. reflexivity.
  - intros Hlen.
    destruct (MaskPathFacts.lookup_in_range lm LM_RIGHT_EAR) as [pr ->];
      [unfold LM_RIGHT_EAR; lia |].
    destruct (MaskPathFacts.lookup_in_range lm LM_LEFT_EAR) as [pl ->];
      [unfold LM_LEFT_EAR; lia |].
    cbn [Throwing.bind]. eexists. split; [reflexivity |].
    apply MaskPathFacts.abs_not_negative.
Qed.

(** The mirrored face, whose right ear lies left of its left ear. *)
Lemma getHeadWidth_not_negative_witness :
  (exists width,
     getHeadWidth Fixtures.mirroredFace 512 512 = Some width /\
     (width <? 0) = false) /\
  (x (landmarkAt Fixtures.mirroredFace LM_RIGHT_EAR)
   <? x (landmarkAt Fixtures.mirroredFace LM_LEFT_EAR)) = true.
Proof.
  split.
  - apply (proj2 (getHeadWidth_not_negative Fixtures.mirroredFace 512 512)).
    apply Nat.ltb_lt. vm_compute. reflexivity.
  - vm_compute. reflexivity.
Defined.

(** X14.  [generateMaskBuffer] never throws on a short landmark array: with
    at most seven landmarks (fewer than any index it reads) it returns, for
    every width and height, two eye polygons of sixteen points (0, 0) each
    and a mouth ellipse centred at (0, 0) with both radii 10. *)
Theorem generateMaskBuffer_short_array :
  forall (landmarks : list Landmark) (W H : float),
    (length landmarks <= 7)%nat ->
    MaskProcessor.generateMaskBuffer landmarks W H
    = [ MaskProcessor.rect "white";
        MaskProcessor.polygon (repeat (0, 0) 16) "black";
        MaskProcessor.polygon (repeat (0, 0) 16) "black";
        MaskProcessor.svgEllipse 0 0 10 10 "black" ].
Proof.
  intros landmarks W H Hlen.
  assert (Hnone : forall i, (7 <= i)%nat -> nth_error landmarks i = None)
    by (intros i Hi; apply nth_error_None; lia).
  unfold MaskProcessor.generateMaskBuffer, MaskProcessor.xOrZero,
    MaskProcessor.yOrZero, MaskProcessor.eyePoint,
    MaskProcessor.LEFT_EYE, MaskProcessor.RIGHT_EYE, MaskProcessor.MOUTH_PTS.
  cbn [map nth].
  rewrite !Hnone by lia. reflexivity.
Qed.

(** The one-landmark array of the backend's own endpoint test. *)
Lemma generateMaskBuffer_short_array_witness :
  MaskProcessor.generateMaskBuffer [mkPoint 0.5 0.5 0] 512 512
  = [ MaskProcessor.rect "white";
      MaskProcessor.polygon (repeat (0, 0) 16) "black";
      MaskProcessor.polygon (repeat (0, 0) 16) "black";
      MaskProcessor.svgEllipse 0 0 10 10 "black" ].
Proof.
  apply (generateMaskBuffer_short_array [mkPoint 0.5 0.5 0] 512 512).
  simpl. lia.
Defined.

End MaskPathProperties.

(** ** More about the texture cache and the generator *)

Section CacheProperties.
Import TextureGenerator.
Local Open Scope Z_scope.

(** X15.  What [set] stores, [get] returns for the next 24 hours, leaving
    the cache as it is; the first [get] after that returns null and deletes
    the entry, so the cache is one entry smaller and the key is gone. *)
Theorem cache_set_then_get :
  forall (cache : EntryMap) (key : string) (value : TextureGenerationResponse)
         (setAt getAt : Z),
    NoDup (map fst cache) ->
    let stored := TextureCache_set cache key value setAt in
    (getAt - setAt <= ttl ->
     TextureCache_get stored key getAt = (stored, Some value)) /\
    (ttl < getAt - setAt ->
     exists cache',
       TextureCache_get stored key getAt = (cache', None) /\
       Map_get key cache' = None /\
       S (Map_size cache') = Map_size stored).
Proof.
  intros cache key value setAt getAt Hnd stored.
  pose proof (CacheMapFacts.get_after_set cache key value setAt) as Hget.
  fold stored in Hget.
  unfold TextureCache_get. rewrite Hget. cbn [timestamp data]. split.
  - intros Hfresh.
    destruct (getAt - setAt >? ttl) eqn:E; [| reflexivity].
    apply Z.gtb_lt in E. lia.
  - intros Hold.
    replace (getAt - setAt >? ttl) with true by (symmetry; apply Z.gtb_lt; lia).
    exists (Map_delete key stored). split; [reflexivity | split].
    + apply CacheMapFacts.Map_get_delete_same.
      apply CacheMapFacts.set_keeps_unique, Hnd.
    + unfold Map_size. apply CacheFacts.Map_delete_length.
      eapply CacheMapFacts.Map_get_in_keys, Hget.
Qed.

(** An entry stored at time 1000 and read one hour and two days later. *)
Lemma cache_set_then_get_witness :
  TextureCache_get
    (TextureCache_set [] "A_realistic_high" sampleResponse 1000)
    "A_realistic_high" 3601000
  = (TextureCache_set [] "A_realistic_high" sampleResponse 1000,
     Some sampleResponse) /\
  exists cache',
    TextureCache_get
      (TextureCache_set [] "A_realistic_high" sampleResponse 1000)
      "A_realistic_high" 172801000 = (cache', None) /\
    Map_get "A_realistic_high" cache' = None /\
    S (Map_size cache')
      = Map_size (TextureCache_set [] "A_realistic_high" sampleResponse 1000).
Proof.
  split.
  - apply (proj1 (cache_set_then_get [] "A_realistic_high" sampleResponse
                                     1000 3601000 (NoDup_nil _))).
    vm_compute. discriminate.
  - apply (proj2 (cache_set_then_get [] "A_realistic_high" sampleResponse
                                     1000 172801000 (NoDup_nil _))).
    vm_compute. reflexivity.
Defined.

(** X16.  [set] evicts before it looks whether the key is already there:
    when the cache is full and [set] is called for a key it already holds,
    the oldest entry (if it belongs to another key) is still deleted, so
    the cache drops to 19 entries, with the key's entry replaced. *)
Theorem set_existing_key_evicts :
  forall (cache : EntryMap) (key oldest : string)
         (value : TextureGenerationResponse) (now : Z),
    NoDup (map fst cache) ->
    Map_size cache = maxSize ->
    In key (map fst cache) ->
    oldestKey cache = Some oldest ->
    oldest <> key ->
    let cache' := TextureCache_set cache key value now in
    Map_size cache' = 19%nat /\
    Map_get oldest cache' = None /\
    Map_get key cache' = Some (mkEntry value now).
Proof.
  intros cache key oldest value now Hnd Hfull Hkey Hold Hne cache'.
  subst cache'. unfold TextureCache_set. rewrite Hfull, Nat.leb_refl, Hold.
  assert (Hin : In key (map fst (Map_delete oldest cache))).
  { destruct (CacheMapFacts.Map_get_present key cache Hkey) as [e He].
    apply (CacheMapFacts.Map_get_in_keys key _ e).
    rewrite CacheMapFacts.Map_get_delete_other by congruence. exact He. }
  split; [| split].
  - unfold Map_size in *. rewrite CacheMapFacts.Map_set_length_present by exact Hin.
    pose proof (CacheFacts.Map_delete_length oldest cache
                  (CacheFacts.oldestKey_in _ _ Hold)) as Hlen.
    unfold maxSize in Hfull. lia.
  - rewrite CacheMapFacts.Map_get_set_other by exact Hne.
    apply CacheMapFacts.Map_get_delete_same, Hnd.
  - apply CacheMapFacts.Map_get_set_same.
Qed.

(** Twenty entries "A" .. "T"; setting "B" again evicts "A". *)
Lemma set_existing_key_evicts_witness :
  let cache := map entryOf (map sampleCall (seq 0 20)) in
  let cache' := TextureCache_set cache (fst (fst (sampleCall 1)))
                                 sampleResponse 5000 in
  Map_size cache' = 19%nat /\
  Map_get (fst (fst (sampleCall 0))) cache' = None /\
  Map_get (fst (fst (sampleCall 1))) cache' = Some (mkEntry sampleResponse 5000).
Proof.
  apply (set_existing_key_evicts (map entryOf (map sampleCall (seq 0 20)))
           (fst (fst (sampleCall 1))) (fst (fst (sampleCall 0)))
           sampleResponse 5000).
  - apply CacheFacts.distinct_NoDup. vm_compute. reflexivity.
  - reflexivity.
  - vm_compute. tauto.
  - vm_compute. reflexivity.
  - intros E. vm_compute in E. discriminate E.
Defined.

(** X17.  One full generation on an idle generator with no cached entry for
    the request: [generate] sets the flag and waits for the model; when the
    model answers, the flag is cleared and the response is cached, so that
    any request with the same key made within 24 hours of the answer is
    resolved with that response; when the model call fails, the flag is
    cleared and the generator is exactly as it was before. *)
Theorem generate_full_cycle :
  forall (g : Generator) (request : TextureGenerationRequest) (now : Z),
    isGenerating g = false ->
    Map_get (generateKey request) (cache g) = None ->
    let key := generateKey request in
    let busy := mkGenerator (cache g) true in
    generate g request now = (busy, AwaitingModel key) /\
    (forall response answeredAt,
       let done := fst (generate_resume busy key (inl response) answeredAt) in
       generate_resume busy key (inl response) answeredAt
         = (done, Resolved response) /\
       isGenerating done = false /\
       forall request' askedAt,
         generateKey request' = key ->
         askedAt - answeredAt <= ttl ->
         generate done request' askedAt = (done, Resolved response)) /\
    (forall message failedAt,
       generate_resume busy key (inr message) failedAt = (g, Rejected message)).
Proof.
  intros [c flag] request now Hidle Hmiss key busy. simpl in Hidle, Hmiss.
  subst flag. subst key busy. cbn [cache]. split; [| split].
  - unfold generate, TextureCache_get. cbn [cache isGenerating].
    rewrite Hmiss. reflexivity.
  - intros response answeredAt. cbv zeta. cbn [generate_resume fst].
    split; [reflexivity | split; [reflexivity |]].
    intros request' askedAt Hkey Hfresh.
    unfold generate. cbn [cache isGenerating]. rewrite Hkey.
    unfold TextureCache_get. rewrite CacheMapFacts.get_after_set.
    cbn [timestamp data].
    destruct (askedAt - answeredAt >? ttl) eqn:E; [| reflexivity].
    apply Z.gtb_lt in E. lia.
  - intros message failedAt. reflexivity.
Qed.

(** A generation for request 0, then the same prompt, style and quality
    with another seed an hour later. *)
Lemma generate_full_cycle_witness :
  generate (mkGenerator [] false) (sampleRequest 0) 1000
    = (mkGenerator [] true, AwaitingModel (generateKey (sampleRequest 0))) /\
  generate
    (fst (generate_resume (mkGenerator [] true) (generateKey (sampleRequest 0))
                          (inl sampleResponse) 2000))
    (mkRequest "A" None (Some "realistic"%string) (Some high) (Some 42%float)
               None None)
    3602000
  = (fst (generate_resume (mkGenerator [] true) (generateKey (sampleRequest 0))
                          (inl sampleResponse) 2000),
     Resolved sampleResponse).
Proof.
  destruct (generate_full_cycle (mkGenerator [] false) (sampleRequest 0) 1000
              eq_refl eq_refl) as (H1 & H2 & _).
  split; [exact H1 |].
  destruct (H2 sampleResponse 2000) as (_ & _ & H3).
  apply H3.
  - reflexivity.
  - vm_compute. discriminate.
Defined.

End CacheProperties.

(** ** Cache keys and the retry loop *)

Module KeyFacts.
Local Open Scope string_scope.

Lemma append_assoc (a b c : string) : (a ++ b) ++ c = a ++ (b ++ c).
Proof. induction a as [| ch a IH]; simpl; [reflexivity | now rewrite IH]. Qed.

End KeyFacts.

Module RetryFacts.
Import TextureGenerator.
Import ModelCall.
Local Open Scope Z_scope.

(** The delays the loop adds between attempt [a] and attempt [a + k]. *)
Local Abbreviation delaysFrom a k :=
  (map (fun i => 1000 * (a + Z.of_nat i + 1)) (seq 0 k)).

Lemma delays_step (a : Z) (k : nat) :
  delaysFrom a (S k) = 1000 * (a + 1) :: delaysFrom (a + 1) k.
Proof.
  cbn [seq map]. f_equal; [f_equal; lia |].
  rewrite <- seq_shift, map_map. apply map_ext. intros i. f_equal. lia.
Qed.

Lemma attemptLoop_step (n : nat) (a : Z) (retries : option Z)
    (outcome : Z -> Attempt) (lastError : option string) (waited : list Z) :
  attemptLoop (S n) a retries outcome lastError waited
  = match outcome a with
    | inl response => (waited, inl response)
    | inr message =>
        attemptLoop n (a + 1) retries outcome (Some message)
          (if a <? retriesOrDefault retries - 1
           then waited ++ [1000 * (a + 1)] else waited)
    end.
Proof. reflexivity. Qed.

(** The loop when attempt [k] is the first to succeed. *)
Lemma loop_succeeds (retries : option Z) (outcome : Z -> Attempt)
    (k : Z) (response : TextureGenerationResponse) :
  k < retriesOrDefault retries ->
  outcome k = inl response ->
  forall (n : nat) (a : Z) (lastError : option string) (waited : list Z),
    a <= k -> k < a + Z.of_nat n ->
    (forall j, a <= j < k -> exists m, outcome j = inr m) ->
    attemptLoop n a retries outcome lastError waited
    = (waited ++ delaysFrom a (Z.to_nat (k - a)), inl response).
Proof.
  intros HkN Hk. induction n as [| n IH]; intros a lastError waited Ha Hn Hfail;
    [lia |].
  cbn [attemptLoop].
  destruct (Z.eq_dec a k) as [-> | Hne].
  - rewrite Hk, Z.sub_diag. simpl. now rewrite app_nil_r.
  - destruct (Hfail a) as [m Hm]; [lia |]. rewrite Hm.
    replace (a <? retriesOrDefault retries - 1) with true
      by (symmetry; apply Z.ltb_lt; lia).
    rewrite IH; [| lia | lia | intros j Hj; apply Hfail; lia].
    replace (Z.to_nat (k - a)) with (S (Z.to_nat (k - (a + 1)))) by lia.
    rewrite delays_step, <- app_assoc. reflexivity.
Qed.

(** The loop when every remaining attempt fails. *)
Lemma loop_fails (retries : option Z) (outcome : Z -> Attempt)
    (message : Z -> string) :
  forall (n : nat) (a : Z) (lastError : option string) (waited : list Z),
    a + Z.of_nat n = retriesOrDefault retries - 1 ->
    (forall j, a <= j < retriesOrDefault retries -> outcome j = inr (message j)) ->
    attemptLoop (S n) a retries outcome lastError waited
    = (waited ++ delaysFrom a n,
       inr (mkFailure retries (Some (message (retriesOrDefault retries - 1))))).
Proof.
  induction n as [| n IH]; intros a lastError waited Hn Hfail.
  - rewrite attemptLoop_step, Hfail by lia.
    replace (a <? retriesOrDefault retries - 1) with false
      by (symmetry; apply Z.ltb_ge; lia).
    simpl. rewrite app_nil_r. repeat f_equal. lia.
  - rewrite attemptLoop_step, Hfail by lia.
    replace (a <? retriesOrDefault retries - 1) with true
      by (symmetry; apply Z.ltb_lt; lia).
    rewrite (IH (a + 1)); [| lia | intros j Hj; apply Hfail; lia].
    rewrite delays_step, <- app_assoc. reflexivity.
Qed.

Lemma delays_from_zero (k : nat) : delaysFrom 0 k = backoff k.
Proof. reflexivity. Qed.

End RetryFacts.

Section KeyAndRetryProperties.
Import TextureGenerator.
Import ModelCall.
Local Open Scope Z_scope.

(** X18.  [generateKey] does not tell every two requests apart: a prompt
    ending in "_b" with style "c" has the key of the prompt without that
    ending with style "b_c", and a request without a style has the key of
    the same request with the style "undefined". *)
Theorem generateKey_collisions :
  forall (a b c : string) (quality : option Quality)
         (negativePrompt : option string) (seed steps guidance : option float),
    generateKey (mkRequest (a ++ "_" ++ b)%string negativePrompt (Some c)
                           quality seed steps guidance)
    = generateKey (mkRequest a negativePrompt (Some (b ++ "_" ++ c)%string)
                             quality seed steps guidance) /\
    generateKey (mkRequest a negativePrompt None quality seed steps guidance)
    = generateKey (mkRequest a negativePrompt (Some "undefined"%string)
                             quality seed steps guidance).
Proof.
  intros a b c quality negativePrompt seed steps guidance.
  unfold generateKey. cbn [prompt style TextureGenerator.quality printOptional].
  split; [| reflexivity].
  rewrite !KeyFacts.append_assoc. reflexivity.
Qed.

(** X19.  The retry loop of [callAIModel] makes [retries || 3] attempts at
    most.  It returns the response of the first attempt that succeeds,
    having waited 1000, 2000, ... milliseconds after the failures before
    it.  When every attempt fails it throws after the last one without a
    further wait, reporting the configured [retries] as it is (so 0 is
    reported for the three attempts made) and the message of the last
    error.  With a negative count it throws at once without any attempt. *)
Theorem callAIModel_retry_policy :
  forall (retries : option Z) (outcome : Z -> Attempt),
    (forall k response,
       0 <= k < retriesOrDefault retries ->
       (forall j, 0 <= j < k -> exists m, outcome j = inr m) ->
       outcome k = inl response ->
       callAIModel retries outcome = (backoff (Z.to_nat k), inl response)) /\
    (forall message : Z -> string,
       0 < retriesOrDefault retries ->
       (forall j, 0 <= j < retriesOrDefault retries ->
                  outcome j = inr (message j)) ->
       callAIModel retries outcome
       = (backoff (Z.to_nat (retriesOrDefault retries - 1)),
          inr (mkFailure retries
                 (Some (message (retriesOrDefault retries - 1)))))) /\
    (retriesOrDefault retries <= 0 ->
     callAIModel retries outcome = ([], inr (mkFailure retries None))).
Proof.
  intros retries outcome. unfold callAIModel. split; [| split].
  - intros k response Hk Hfail Hok.
    rewrite (RetryFacts.loop_succeeds retries outcome k response);
      try lia; try assumption.
    rewrite Z.sub_0_r. reflexivity.
  - intros message Hpos Hfail.
    replace (Z.to_nat (retriesOrDefault retries))
      with (S (Z.to_nat (retriesOrDefault retries - 1))) by lia.
    rewrite (RetryFacts.loop_fails retries outcome message); [| lia | exact Hfail].
    reflexivity.
  - intros Hneg.
    replace (Z.to_nat (retriesOrDefault retries)) with 0%nat by lia.
    reflexivity.
Qed.

(** With [retries = 0]: a model that fails twice and then answers, and a
    model that always fails. *)
Lemma callAIModel_retry_policy_witness :
  callAIModel (Some 0)
    (fun attempt => if attempt <? 2 then inr "API error: Bad Gateway"%string
                    else inl sampleResponse)
    = ([1000; 2000], inl sampleResponse) /\
  callAIModel (Some 0) (fun _ => inr "API error: Bad Gateway"%string)
    = ([1000; 2000],
       inr (mkFailure (Some 0) (Some "API error: Bad Gateway"%string))).
Proof.
  split.
  - apply (proj1 (callAIModel_retry_policy (Some 0)
             (fun attempt => if attempt <? 2
                             then inr "API error: Bad Gateway"%string
                             else inl sampleResponse)) 2 sampleResponse).
    + vm_compute. split; [discriminate | reflexivity].
    + intros j Hj. exists "API error: Bad Gateway"%string.
      replace (j <? 2) with true by (symmetry; apply Z.ltb_lt; lia).
      reflexivity.
    + reflexivity.
  - apply (proj1 (proj2 (callAIModel_retry_policy (Some 0)
             (fun _ => inr "API error: Bad Gateway"%string)))
             (fun _ => "API error: Bad Gateway"%string)).
    + reflexivity.
    + intros j Hj. reflexivity.
Defined.

End KeyAndRetryProperties.

(** ** More about the prompt processor *)

Module PromptTextFacts.
Import PromptProcessor.
Import PromptExtras.
Local Open Scope string_scope.

Lemma length_append (a b : string) :
  String.length (a ++ b) = (String.length a + String.length b)%nat.
Proof. induction a as [| c a IH]; simpl; [reflexivity | now rewrite IH]. Qed.

Lemma prefix_append (word rest : string) : String.prefix word (word ++ rest) = true.
Proof.
  induction word as [| c word IH]; simpl; [destruct rest; reflexivity |].
  destruct (ascii_dec c c); [exact IH | congruence].
Qed.

Lemma includes_prefix (s word : string) :
  String.prefix word s = true -> includes s word = true.
Proof. intros H. destruct s; cbn [includes]; rewrite H; reflexivity. Qed.

(** [includes] finds a word wherever it stands. *)
Lemma includes_append (before word rest : string) :
  includes (before ++ word ++ rest) word = true.
Proof.
  induction before as [| c before IH].
  - change ("" ++ word ++ rest) with (word ++ rest).
    apply includes_prefix. apply prefix_append.
  - simpl. rewrite IH. apply orb_true_r.
Qed.

Lemma trimStart_white (s : string) : allWhiteSpace s = true -> trimStart s = "".
Proof.
  induction s as [| c s IH]; simpl; [reflexivity |].
  intros H. apply andb_true_iff in H. destruct H as [-> H]. auto.
Qed.

Lemma lowerChar_idempotent (c : ascii) : lowerChar (lowerChar c) = lowerChar c.
Proof. destruct c as [[] [] [] [] [] [] [] []]; reflexivity. Qed.

Lemma toLowerCase_idempotent (s : string) :
  toLowerCase (toLowerCase s) = toLowerCase s.
Proof.
  induction s as [| c s IH]; simpl; [reflexivity |].
  now rewrite lowerChar_idempotent, IH.
Qed.

Lemma includes_empty (s : string) : includes s "" = true.
Proof. destruct s; reflexivity. Qed.

(** The shortest and the longest phrase of each table. *)
Lemma style_phrase_length (s : Style) :
  exists v, lookup STYLE_PRESETS (styleKey s) = Some v /\
            String.eqb v "" = false /\
            (42 <= String.length v <= 68)%nat.
Proof. destruct s; eexists; repeat split; simpl; lia. Qed.

Lemma quality_phrase_length (q : Quality) :
  exists v, lookup QUALITY_PRESETS (qualityKey q) = Some v /\
            String.eqb v "" = false /\
            (18 <= String.length v <= 56)%nat.
Proof. destruct q; eexists; repeat split; simpl; lia. Qed.

Lemma lighting_phrase_length (l : Lighting) :
  exists v, lookup LIGHTING_PRESETS (lightingKey l) = Some v /\
            String.eqb v "" = false /\
            (49 <= String.length v <= 67)%nat.
Proof. destruct l; eexists; repeat split; simpl; lia. Qed.

Lemma material_phrase_length (m : Material) :
  exists v, lookup MATERIAL_PRESETS (materialKey m) = Some v /\
            String.eqb v "" = false /\
            (39 <= String.length v <= 45)%nat.
Proof. destruct m; eexists; repeat split; simpl; lia. Qed.

Lemma detail_phrase_length (d : DetailLevel) :
  exists v, lookup DETAIL_PRESETS (detailKey d) = Some v /\
            String.eqb v "" = false /\
            (30 <= String.length v <= 58)%nat.
Proof. destruct d; eexists; repeat split; simpl; lia. Qed.

(** The length of the enhanced prompt of a valid phrase: the trimmed phrase
    plus between 219 and 335 characters. *)
Lemma enhanced_length (prompt : string) (config : PromptConfig) :
  validPhrase prompt ->
  exists e,
    enhancePrompt prompt config = Returned e /\
    tokens e = estimateTokens (enhanced e) /\
    (String.length (trim prompt) + 219 <= String.length (enhanced e)
     <= String.length (trim prompt) + 335)%nat.
Proof.
  intros Hvalid.
  destruct (style_phrase_length (orDefault (style config) style_realistic))
    as (s & Hs & Hs' & Ls).
  destruct (quality_phrase_length (orDefault (quality config) quality_high))
    as (q & Hq & Hq' & Lq).
  destruct (lighting_phrase_length (orDefault (lighting config) lighting_studio))
    as (l & Hl & Hl' & Ll).
  destruct (material_phrase_length (orDefault (material config) material_metal))
    as (m & Hm & Hm' & Lm).
  destruct (detail_phrase_length (orDefault (detailLevel config) detail_high))
    as (d & Hd & Hd' & Ld).
  unfold enhancePrompt.
  rewrite (PromptFacts.validatePrompt_valid prompt Hvalid). cbn [valid negb].
  cbv zeta. rewrite Hs, Hq, Hl, Hm, Hd.
  eexists. split; [reflexivity |]. cbn [tokens enhanced].
  split; [reflexivity |].
  unfold truthy. cbn [flat_map].
  rewrite (PromptFacts.trimmed_not_empty prompt Hvalid), Hs', Hq', Hl', Hm', Hd'.
  cbn [String.eqb Ascii.eqb Bool.eqb app join].
  rewrite !length_append. cbn [String.length]. lia.
Qed.

End PromptTextFacts.

Section PromptProperties.
Import PromptProcessor.
Import PromptExtras.
Local Open Scope string_scope.

(** X20.  An empty prompt is reported as "must be a non-empty string"; a
    prompt of white space only is not empty and is reported as too short
    instead. *)
Theorem validatePrompt_blank :
  validatePrompt "" = mkValidation false (Some "Prompt must be a non-empty string") /\
  (forall prompt,
     prompt <> "" -> allWhiteSpace prompt = true ->
     validatePrompt prompt
     = mkValidation false (Some "Prompt must be at least 5 characters")).
Proof.
  split; [reflexivity |].
  intros prompt Hne Hwhite. unfold validatePrompt.
  destruct (String.eqb_spec prompt ""); [contradiction |].
  unfold trim. rewrite (PromptTextFacts.trimStart_white prompt Hwhite).
  reflexivity.
Qed.

(** Six spaces. *)
Lemma validatePrompt_blank_witness :
  validatePrompt "      "
  = mkValidation false (Some "Prompt must be at least 5 characters").
Proof.
  apply (proj2 validatePrompt_blank "      ").
  - discriminate.
  - reflexivity.
Defined.

(** X21.  The denylist is matched on substrings of the trimmed, lower-cased
    prompt: a prompt of valid length is rejected as inappropriate as soon as
    a denylisted word occurs anywhere in it, in any letter case, also
    inside a longer word ("whatever" contains "hate"). *)
Theorem validatePrompt_denylist_substring :
  forall (prompt before word rest : string),
    In word inappropriateWords ->
    toLowerCase (trim prompt) = before ++ word ++ rest ->
    (minLength <= String.length (trim prompt) <= maxLength)%nat ->
    validatePrompt prompt
    = mkValidation false (Some "Prompt contains inappropriate content").
Proof.
  intros prompt before word rest Hword Hlower [Hmin Hmax].
  unfold validatePrompt.
  destruct (String.eqb_spec prompt "") as [-> | _].
  - unfold minLength in Hmin. simpl in Hmin. lia.
  - destruct (Nat.ltb_spec (String.length (trim prompt)) minLength); [lia |].
    destruct (Nat.ltb_spec maxLength (String.length (trim prompt))); [lia |].
    replace (existsb (fun w => includes (toLowerCase (trim prompt)) w)
                     inappropriateWords) with true; [reflexivity |].
    symmetry. apply existsb_exists. exists word. split; [exact Hword |].
    rewrite Hlower. apply PromptTextFacts.includes_append.
Qed.

(** A harmless prompt that happens to contain "hate". *)
Lemma validatePrompt_denylist_substring_witness :
  validatePrompt "A Mask, WHATEVER style"
  = mkValidation false (Some "Prompt contains inappropriate content").
Proof.
  apply (validatePrompt_denylist_substring "A Mask, WHATEVER style"
           "a mask, w" "hate" "ver style").
  - right. left. reflexivity.
  - reflexivity.
  - vm_compute. split; lia.
Defined.

(** X22.  The token budget [maxTokens = 150] is not enforced by
    [enhancePrompt]: for a valid phrase the enhanced prompt is the trimmed
    phrase plus 219 to 335 characters, its token estimate is that length
    divided by four and rounded up, and for every valid phrase of 382
    characters or more the estimate exceeds [maxTokens], whatever the
    config. *)
Theorem enhancePrompt_token_budget :
  forall (prompt : string) (config : PromptConfig),
    validPhrase prompt ->
    exists e,
      enhancePrompt prompt config = Returned e /\
      (String.length (trim prompt) + 219 <= String.length (enhanced e)
       <= String.length (trim prompt) + 335)%nat /\
      (4 * (tokens e - 1) < String.length (enhanced e) <= 4 * tokens e)%nat /\
      ((382 <= String.length (trim prompt))%nat -> (maxTokens < tokens e)%nat).
Proof.
  intros prompt config Hvalid.
  destruct (PromptTextFacts.enhanced_length prompt config Hvalid)
    as (e & He & Ht & Hlen).
  exists e. split; [exact He | split; [exact Hlen |]].
  rewrite Ht. unfold estimateTokens, maxTokens.
  pose proof (Nat.div_mod_eq (String.length (enhanced e) + 3) 4) as Hdiv.
  pose proof (Nat.mod_upper_bound (String.length (enhanced e) + 3) 4) as Hmod.
  split; [lia | intros Hlong; lia].
Qed.

(** A phrase of 400 letters with the default config. *)
Lemma enhancePrompt_token_budget_witness :
  exists e,
    enhancePrompt (String.concat "" (repeat "mask" 100)) defaultConfig
      = Returned e /\
    (maxTokens < tokens e)%nat.
Proof.
  destruct (enhancePrompt_token_budget (String.concat "" (repeat "mask" 100))
              defaultConfig) as (e & He & _ & _ & Hbig).
  - split; [| split].
    + vm_compute. lia.
    + apply Nat.leb_le. vm_compute. reflexivity.
    + intros word [<- | [<- | [<- | []]]]; vm_compute; reflexivity.
  - exists e. split; [exact He |]. apply Hbig.
    apply Nat.leb_le. vm_compute. reflexivity.
Defined.

(** X23.  [getSuggestions] ignores the letter case of its argument, lists
    every style for the empty string, and only ever suggests keys of the
    style table. *)
Theorem getSuggestions_case_insensitive :
  forall partial : string,
    getSuggestions (toLowerCase partial) = getSuggestions partial /\
    getSuggestions "" = map fst STYLE_PRESETS /\
    (forall style, In style (getSuggestions partial) ->
                   exists phrase, lookup STYLE_PRESETS style = Some phrase).
Proof.
  intros partial. split; [| split].
  - unfold getSuggestions. now rewrite PromptTextFacts.toLowerCase_idempotent.
  - reflexivity.
  - intros style Hin. unfold getSuggestions in Hin.
    apply filter_In in Hin. destruct Hin as [Hin _].
    simpl in Hin.
    repeat (destruct Hin as [<- | Hin]; [eexists; reflexivity |]).
    contradiction.
Qed.

End PromptProperties.

(** ** The choice of projection *)

Module ProjectionFacts.
Local Open Scope float_scope.

(** Zero divided by a positive number is zero. *)
Lemma zero_div_positive (m : float) : (0 <? m) = true -> 0 / m = 0.
Proof.
  intros Hpos. apply Prim2SF_inj. rewrite div_spec.
  rewrite ltb_spec in Hpos. change (Prim2SF 0) with (S754_zero false) in *.
  unfold SF64div, SFdiv, SFltb in *.
  destruct (Prim2SF m) as [s | s | | s mm e]; try destruct s;
    simpl in Hpos; try discriminate; reflexivity.
Qed.

(** A number that is not negative, divided by zero, is never below
    anything: it is +Infinity or NaN. *)
Lemma div_zero_not_below (a bound : float) :
  (0 <=? a) = true -> (a / 0 <? bound) = false.
Proof.
  intros Hpos.
  assert (H : a / 0 = nan \/ a / 0 = infinity).
  { assert (Hs : Prim2SF (a / 0) = S754_nan \/
                 Prim2SF (a / 0) = S754_infinity false).
    { rewrite div_spec. rewrite leb_spec in Hpos.
      change (Prim2SF 0) with (S754_zero false) in *.
      unfold SF64div, SFdiv, SFleb in *.
      destruct (Prim2SF a) as [s | s | | s mm e]; try destruct s;
        simpl in Hpos; try discriminate; auto. }
    destruct Hs as [Hs | Hs]; [left | right]; apply Prim2SF_inj; rewrite Hs;
      reflexivity. }
  destruct H as [-> | ->].
  - rewrite ltb_spec. reflexivity.
  - apply FloatFacts.infinity_ltb.
Qed.

End ProjectionFacts.

Section ProjectionProperties.
Import Coordinates.
Import UVMapper.
Local Open Scope float_scope.

(** X24.  The automatic choice of projection at degenerate sizes: a box of
    zero depth whose width or height is positive is projected planar; a box
    of zero width and zero height (a point, or a segment along [z]) is
    projected spherical, because both ratios are then NaN or Infinity and
    fail both tests. *)
Theorem autoProjection_degenerate :
  (forall width height : float,
     (0 <? JS.Math_max width height) = true ->
     autoProjection (mkPoint width height 0) = planarInfo) /\
  (forall depth : float,
     (0 <=? depth) = true ->
     autoProjection (mkPoint 0 0 depth) = sphericalInfo).
Proof.
  split.
  - intros width height Hpos. unfold autoProjection. cbn [x y z].
    rewrite (ProjectionFacts.zero_div_positive _ Hpos). reflexivity.
  - intros depth Hpos. unfold autoProjection. cbn [x y z].
    change (JS.Math_max 0 0) with 0. change (JS.Math_min 0 0) with 0.
    rewrite (ProjectionFacts.div_zero_not_below depth 0.2 Hpos). reflexivity.
Qed.

(** A flat 10 x 2 sheet, and a segment of length 4 along [z]. *)
Lemma autoProjection_degenerate_witness :
  autoProjection (mkPoint 10 2 0) = planarInfo /\
  autoProjection (mkPoint 0 0 4) = sphericalInfo.
Proof.
  split.
  - apply (proj1 autoProjection_degenerate 10 2). reflexivity.
  - apply (proj2 autoProjection_degenerate 4). reflexivity.
Defined.

End ProjectionProperties.

(** ** White space around a prompt *)

Module TrimFacts.
Import PromptProcessor.
Local Open Scope string_scope.

(** A string that does not begin with white space. *)
Local Abbreviation startsClean s :=
  (match s with
   | EmptyString => True
   | String c _ => isWhiteSpace c = false
   end).

Lemma trimStart_clean (s : string) : startsClean (trimStart s).
Proof.
  induction s as [| c s IH]; simpl; [exact I |].
  destruct (isWhiteSpace c) eqn:E; [exact IH | exact E].
Qed.

Lemma trimStart_of_clean (s : string) : startsClean s -> trimStart s = s.
Proof. destruct s as [| c s]; simpl; [reflexivity | intros ->; reflexivity]. Qed.

Lemma trimEnd_clean (s : string) : startsClean s -> startsClean (trimEnd s).
Proof.
  destruct s as [| c s]; simpl; [trivial |]. intros Hc.
  destruct (trimEnd s); [rewrite Hc |]; exact Hc.
Qed.

Lemma trimEnd_idempotent (s : string) : trimEnd (trimEnd s) = trimEnd s.
Proof.
  induction s as [| c s IH]; simpl; [reflexivity |].
  destruct (trimEnd s) as [| d t] eqn:E.
  - destruct (isWhiteSpace c) eqn:Ec; simpl; [reflexivity | now rewrite Ec].
  - cbn [trimEnd] in IH |- *. rewrite IH. reflexivity.
Qed.

Lemma trim_idempotent (s : string) : trim (trim s) = trim s.
Proof.
  unfold trim.
  rewrite (trimStart_of_clean (trimEnd (trimStart s))).
  - apply trimEnd_idempotent.
  - apply trimEnd_clean, trimStart_clean.
Qed.

(** Validation gives a prompt and its trimmed form the same verdict. *)
Lemma validatePrompt_trim (prompt : string) :
  valid (validatePrompt (trim prompt)) = valid (validatePrompt prompt).
Proof.
  unfold validatePrompt. rewrite trim_idempotent.
  destruct (String.eqb_spec (trim prompt) "") as [E | E];
    destruct (String.eqb_spec prompt "") as [E' | E']; try reflexivity.
  - rewrite E. reflexivity.
  - subst prompt. exfalso. apply E. reflexivity.
Qed.

End TrimFacts.

Section TrimProperties.
Import PromptProcessor.
Local Open Scope string_scope.

(** X25.  White space around a prompt does not matter: [trim] is
    idempotent, a prompt is a valid phrase exactly when its trimmed form
    is, and [enhancePrompt] gives the trimmed prompt the same enhanced text
    as the prompt itself (or throws for both). *)
Theorem enhancePrompt_ignores_padding :
  forall (prompt : string) (config : PromptConfig),
    trim (trim prompt) = trim prompt /\
    (validPhrase (trim prompt) <-> validPhrase prompt) /\
    enhancedText (enhancePrompt (trim prompt) config)
    = enhancedText (enhancePrompt prompt config).
Proof.
  intros prompt config. split; [apply TrimFacts.trim_idempotent |]. split.
  - unfold validPhrase. rewrite TrimFacts.trim_idempotent. tauto.
  - unfold enhancePrompt. cbv zeta.
    rewrite TrimFacts.validatePrompt_trim, TrimFacts.trim_idempotent.
    destruct (valid (validatePrompt prompt)); reflexivity.
Qed.

End TrimProperties.
